(** * pygomoku: the board and the pure Monte Carlo tree search

    A shallow embedding of [pygomoku/Board.py] and of the pure search engine
    of [pygomoku/mcts/MCTS.py].  Python integers are [Z], the [states]
    dictionary is a [gmap Z Z], the lists [moved] and [availables] are
    lists, and an attribute that may hold [None] is an [option].  A method
    that mutates its object is a function from the object to the mutated
    object and an outcome, so that what a method leaves behind when it
    raises is visible too. *)

From Stdlib Require Import ZArith QArith Lia Lqa List Bool.
From stdpp Require Import base option list gmap.

Local Open Scope Z_scope.

(** ** Python outcomes *)

Inductive PyExc : Type :=
  | ValueError
  | KeyError
  | TypeError
  | ZeroDivisionError
  | AttributeError
  | UnboundLocalError
  | PyException.

(** The outcome of running a piece of Python: a value, a raised exception,
    or [OutOfFuel] when a loop was cut by the step budget of the model. *)
Inductive Res (A : Type) : Type :=
  | Ok (a : A)
  | Raise (e : PyExc)
  | OutOfFuel.

Arguments Ok {A} a.
Arguments Raise {A} e.
Arguments OutOfFuel {A}.

Definition res_bind {A B : Type} (r : Res A) (k : A -> Res B) : Res B :=
  match r with
  | Ok a => k a
  | Raise e => Raise e
  | OutOfFuel => OutOfFuel
  end.

Notation "'let*' x ':=' r 'in' k" := (res_bind r (fun x => k))
  (at level 10, x name, r at level 100, k at level 200).

(** The values a caller can hand to the board's query methods. *)
#[warnings="-register-all"]
Inductive PyVal : Type :=
  | PyNone
  | PyBool (b : bool)
  | PyInt (z : Z)
  | PyStr (s : list nat)
  | PyList (l : list PyVal)
  | PyObj (tag : nat).

(** [isinstance(v, int)]: [bool] is a subclass of [int]. *)
Definition isinstance_int (v : PyVal) : bool :=
  match v with
  | PyInt _ | PyBool _ => true
  | _ => false
  end.

(** The integer an [int] instance stands for in arithmetic and [==]. *)
Definition as_int (v : PyVal) : option Z :=
  match v with
  | PyInt z => Some z
  | PyBool true => Some 1
  | PyBool false => Some 0
  | _ => None
  end.

(** [a % b] on integers: floored, like [Z.modulo], but raising on zero. *)
Definition py_mod (a b : Z) : Res Z :=
  if b =? 0 then Raise ZeroDivisionError else Ok (a mod b).

(** [l.remove(x)]: drops the first occurrence, [None] stands for the
    [ValueError] raised when there is none. *)
Fixpoint list_remove (x : Z) (l : list Z) : option (list Z) :=
  match l with
  | [] => None
  | y :: l' =>
      if bool_decide (x = y) then Some l'
      else option_map (cons y) (list_remove x l')
  end.

(** [while cond(x): x = body(x)] with a step budget. *)
Fixpoint while_loop {A : Type} (fuel : nat) (cond : A -> Res bool)
    (body : A -> A) (x : A) : Res A :=
  match fuel with
  | O => OutOfFuel
  | S fuel' =>
      let* c := cond x in
      if c then while_loop fuel' cond body (body x) else Ok x
  end.

(** ** Board.py *)

Module Board.

Definition kPlayerWhite : Z := 0.
Definition kPlayerBlack : Z := 1.
Definition kEmpty : Z := -1.

Record t : Type := mk {
  width : Z;
  height : Z;
  numberToWin : Z;
  current_player : Z;
  availables : list Z;
  moved : list Z;
  states : gmap Z Z;
  last_move : option Z
}.

(** [initBoard(start_player)] on an object of the given dimensions. *)
Definition initBoard (w h n : Z) (start_player : option Z) : Res t :=
  let start_player := default kPlayerBlack start_player in
  if (w <? n) || (h <? n) then Raise PyException
  else Ok {| width := w; height := h; numberToWin := n;
             current_player := start_player;
             availables := seqZ 0 (w * h);
             moved := [];
             states := ∅;
             last_move := None |}.

Definition isValidMove (b : t) (move : PyVal) : Res bool :=
  if negb (isinstance_int move) then Ok false
  else
    match as_int move with
    | None => Raise TypeError
    | Some m =>
        if (m <? 0) || (m >=? width b * height b) then Ok false
        else if bool_decide (m ∈ moved b) then Ok false
        else Ok true
    end.

Definition moveToLocation (b : t) (move : PyVal) : Res (option (Z * Z)) :=
  match move with
  | PyNone => Ok None
  | _ =>
      match as_int move with
      | None => Raise TypeError
      | Some m =>
          if (m <? 0) || (m >=? width b * height b) then Ok None
          else
            let* h_index := (if width b =? 0 then Raise ZeroDivisionError
                             else Ok (m / width b)) in
            let* w_index := py_mod m (width b) in
            Ok (Some (h_index, w_index))
      end
  end.

Definition locationToMove (b : t) (location : PyVal) : Res (option Z) :=
  match location with
  | PyNone => Ok None
  | PyList l =>
      if negb (length l =? 2)%nat then Ok None
      else
        match l with
        | [vh; vw] =>
            match as_int vh, as_int vw with
            | Some h_index, Some w_index =>
                let move := h_index * width b + w_index in
                if (move <? 0) || (move >=? width b * height b) then Ok None
                else Ok (Some move)
            | _, _ => Raise TypeError
            end
        | _ => Ok None
        end
  | PyStr s => if negb (length s =? 2)%nat then Ok None else Raise TypeError
  | _ => Raise TypeError
  end.

Definition changePlayer (b : t) : t :=
  {| width := width b; height := height b; numberToWin := numberToWin b;
     current_player := 1 - current_player b;
     availables := availables b; moved := moved b; states := states b;
     last_move := last_move b |}.

(** [play(move)]: the board it leaves and what it returns or raises.  The
    write to [states] comes before [availables.remove], so it stays when
    the latter raises. *)
Definition play (b : t) (move : Z) : t * Res bool :=
  if bool_decide (move ∈ moved b) then (b, Ok false)
  else
    let b1 := {| width := width b; height := height b;
                 numberToWin := numberToWin b;
                 current_player := current_player b;
                 availables := availables b; moved := moved b;
                 states := <[move := current_player b]> (states b);
                 last_move := last_move b |} in
    match list_remove move (availables b1) with
    | None => (b1, Raise ValueError)
    | Some av =>
        let b2 := {| width := width b1; height := height b1;
                     numberToWin := numberToWin b1;
                     current_player := current_player b1;
                     availables := av; moved := moved b1 ++ [move];
                     states := states b1; last_move := last_move b1 |} in
        let b3 := changePlayer b2 in
        ({| width := width b3; height := height b3;
            numberToWin := numberToWin b3;
            current_player := current_player b3;
            availables := availables b3; moved := moved b3;
            states := states b3; last_move := Some move |}, Ok true)
    end.

(** [undo()]. [del self.states[k]] raises [KeyError] when [k] is no key,
    which [None] never is. *)
Definition undo (b : t) : t * Res bool :=
  match moved b with
  | [] => (b, Ok false)
  | _ =>
      match last_move b with
      | None => (b, Raise KeyError)
      | Some lm =>
          match states b !! lm with
          | None => (b, Raise KeyError)
          | Some _ =>
              let mv := removelast (moved b) in
              ({| width := width b; height := height b;
                  numberToWin := numberToWin b;
                  current_player := 1 - current_player b;
                  availables := availables b ++ [lm];
                  moved := mv;
                  states := delete lm (states b);
                  last_move := last mv |}, Ok true)
          end
      end
  end.

Definition is_empty (b : t) : bool :=
  match moved b with
  | [] => true
  | _ => false
  end.

(** *** Win detection *)

(** [self.states.get(k, Board.kEmpty)]. *)
Definition cell (b : t) (k : Z) : Z := default kEmpty (states b !! k).

(** [self.states.get(k, kEmpty) == player and x % self.__width != c]; the
    remainder is only computed when the colours agree. *)
Definition same_colour_within_row (b : t) (player k x c : Z) : Res bool :=
  if cell b k =? player
  then let* r := py_mod x (width b) in Ok (negb (r =? c))
  else Ok false.

(** The step budget of every scanning loop: one more than the number of
    cells of the board. *)
Definition scan_fuel (b : t) : nat := S (Z.to_nat (width b * height b)).

Definition horizontal (b : t) (start player : Z) : Res bool :=
  let* left_bd :=
    while_loop (scan_fuel b)
      (fun l => same_colour_within_row b player (l - 1) l 0)
      (fun l => l - 1) start in
  let* right_bd :=
    while_loop (scan_fuel b)
      (fun r => same_colour_within_row b player r r 0)
      (fun r => r + 1) (start + 1) in
  Ok (right_bd - left_bd >=? numberToWin b).

Definition vertical (b : t) (start player : Z) : Res bool :=
  let* lc :=
    while_loop (scan_fuel b)
      (fun lc => Ok (cell b (fst lc - width b) =? player))
      (fun lc => (fst lc - width b, snd lc + 1)) (start, 1) in
  let* rc :=
    while_loop (scan_fuel b)
      (fun rc => Ok (cell b (fst rc) =? player))
      (fun rc => (fst rc + width b, snd rc + 1))
      (start + width b, snd lc) in
  Ok (snd rc >=? numberToWin b).

Definition main_diagonal (b : t) (start player : Z) : Res bool :=
  let* lc :=
    while_loop (scan_fuel b)
      (fun lc => same_colour_within_row b player
                   (fst lc - 1 - width b) (fst lc) 0)
      (fun lc => (fst lc - (width b + 1), snd lc + 1)) (start, 1) in
  let* rc :=
    while_loop (scan_fuel b)
      (fun rc => same_colour_within_row b player (fst rc) (fst rc) 0)
      (fun rc => (fst rc + (width b + 1), snd rc + 1))
      (start + width b + 1, snd lc) in
  Ok (snd rc >=? numberToWin b).

Definition deputy_diagonal (b : t) (start player : Z) : Res bool :=
  let* lc :=
    while_loop (scan_fuel b)
      (fun lc => same_colour_within_row b player
                   (fst lc + 1 - width b) (fst lc) (width b - 1))
      (fun lc => (fst lc - (width b - 1), snd lc + 1)) (start, 1) in
  let* rc :=
    while_loop (scan_fuel b)
      (fun rc => same_colour_within_row b player (fst rc) (fst rc)
                   (width b - 1))
      (fun rc => (fst rc + (width b - 1), snd rc + 1))
      (start + width b - 1, snd lc) in
  Ok (snd rc >=? numberToWin b).

(** The four scans of one pass of the loop body, in the order of the
    source, each returning at once when its line is long enough. *)
Definition lines_from (b : t) (start player : Z) : Res bool :=
  let* h := horizontal b start player in
  if h then Ok true else
  let* v := vertical b start player in
  if v then Ok true else
  let* d := main_diagonal b start player in
  if d then Ok true else
  deputy_diagonal b start player.

(** [for m in ms: player = self.states[m]; ...scans...], where the scans
    start at [start_of m]. *)
Fixpoint scan_moves (b : t) (start_of : Z -> Res Z) (ms : list Z)
    : Res (option Z) :=
  match ms with
  | [] => Ok None
  | m :: ms' =>
      let* player := match states b !! m with
                     | Some p => Ok p
                     | None => Raise KeyError
                     end in
      let* start := start_of m in
      let* won := lines_from b start player in
      if won then Ok (Some player) else scan_moves b start_of ms'
  end.

(** [self.__last_move] used as a number. *)
Definition last_move_int (b : t) : Res Z :=
  match last_move b with
  | Some lm => Ok lm
  | None => Raise TypeError
  end.

(** [fastGetWinner()]: the candidates are the last two moves; the bounds of
    every scan start at [self.__last_move]. *)
Definition fastGetWinner (b : t) : Res (option Z) :=
  if Z.of_nat (length (moved b)) <? 2 * numberToWin b - 1 then Ok None
  else scan_moves b (fun _ => last_move_int b) (take 2 (reverse (moved b))).

(** [getWinner()]: every move of the history, each scanned from itself. *)
Definition getWinner (b : t) : Res (option Z) :=
  if Z.of_nat (length (moved b)) <? 2 * numberToWin b - 1 then Ok None
  else scan_moves b Ok (reverse (moved b)).

(** The incremental check as the specification words it: the last two
    moves, each scanned outward from its own position. *)
Definition fastGetWinner_spec (b : t) : Res (option Z) :=
  if Z.of_nat (length (moved b)) <? 2 * numberToWin b - 1 then Ok None
  else scan_moves b Ok (take 2 (reverse (moved b))).

Definition gameEnd (b : t) : Res (bool * option Z) :=
  let* winner := fastGetWinner b in
  match winner with
  | Some w => Ok (true, Some w)
  | None =>
      match availables b with
      | [] => Ok (true, None)
      | _ => Ok (false, None)
      end
  end.

(** A run of [play] calls, stopping at the first that does not return
    [True]. *)
Fixpoint play_all (b : t) (ms : list Z) : t * Res bool :=
  match ms with
  | [] => (b, Ok true)
  | m :: ms' =>
      match play b m with
      | (b', Ok true) => play_all b' ms'
      | r => r
      end
  end.

(** [n] calls of [undo], stopping at the first that does not return
    [True]. *)
Fixpoint undo_n (n : nat) (b : t) : t * Res bool :=
  match n with
  | O => (b, Ok true)
  | S n' =>
      match undo b with
      | (b', Ok true) => undo_n n' b'
      | r => r
      end
  end.

(** [Board.opponent(player_color)]. *)
Definition opponent (player_color : Z) : Z := 1 - player_color.

End Board.

(** A fresh 15 x 15 board with five in a row to win, Black to move. *)
Definition board15 : Board.t :=
  {| Board.width := 15; Board.height := 15; Board.numberToWin := 5;
     Board.current_player := Board.kPlayerBlack;
     Board.availables := seqZ 0 225; Board.moved := [];
     Board.states := ∅; Board.last_move := None |}.

(** *** The representation invariant of a board

    What [initBoard] establishes and [play] and [undo] keep: the data-model
    invariant of the board. *)
Record Board_inv (b : Board.t) : Prop := {
  inv_width : 0 < Board.width b;
  inv_height : 0 < Board.height b;
  inv_moved_range :
    forall k, k ∈ Board.moved b -> 0 <= k < Board.width b * Board.height b;
  inv_moved_nodup : NoDup (Board.moved b);
  inv_states_dom :
    forall k, is_Some (Board.states b !! k) <-> k ∈ Board.moved b;
  inv_states_players :
    forall k p, Board.states b !! k = Some p -> p = 0 \/ p = 1;
  inv_current :
    Board.current_player b = 0 \/ Board.current_player b = 1;
  inv_last : Board.last_move b = last (Board.moved b);
  inv_avail :
    forall k, k ∈ Board.availables b <->
              0 <= k < Board.width b * Board.height b /\ k ∉ Board.moved b;
  inv_avail_nodup : NoDup (Board.availables b)
}.

(** Two boards that differ at most in the order of [availables]. *)
Definition board_equiv (b1 b2 : Board.t) : Prop :=
  Board.width b1 = Board.width b2 /\
  Board.height b1 = Board.height b2 /\
  Board.numberToWin b1 = Board.numberToWin b2 /\
  Board.current_player b1 = Board.current_player b2 /\
  Board.moved b1 = Board.moved b2 /\
  Board.states b1 = Board.states b2 /\
  Board.last_move b1 = Board.last_move b2 /\
  Board.availables b1 ≡ₚ Board.availables b2.

(** The boards a program can build: [initBoard] with a proper starting
    colour, then successful [play] and [undo] calls. *)
Inductive reachable : Board.t -> Prop :=
  | reach_init w h n sp b :
      0 < w -> 0 < h ->
      sp = None \/ sp = Some 0 \/ sp = Some 1 ->
      Board.initBoard w h n sp = Ok b -> reachable b
  | reach_play b m b' :
      reachable b -> Board.play b m = (b', Ok true) -> reachable b'
  | reach_undo b b' :
      reachable b -> Board.undo b = (b', Ok true) -> reachable b'.

(** *** Three games on the 15 x 15 board

    Black plays the cells 0, 1, 2, ... of the top row and White answers on
    the row below. *)

(** Black completes the top row 0..4 with the ninth stone, White then plays
    the far cell 100. *)
Definition game_win_then_one : list Z := [0; 15; 1; 16; 2; 17; 3; 18; 4; 100].


(** Black holds 0, 1, 3 and 4 of the top row, and White's last stone takes
    the gap at 2. *)
Definition game_gap_filled : list Z := [0; 15; 1; 16; 3; 17; 4; 100; 200; 2].

Definition board_win_then_one : Board.t :=
  Eval vm_compute in fst (Board.play_all board15 game_win_then_one).


Definition board_gap_filled : Board.t :=
  Eval vm_compute in fst (Board.play_all board15 game_gap_filled).

(** Black completes the top row 0..4 with the last stone. *)
Definition game_win : list Z := [0; 15; 1; 16; 2; 17; 3; 18; 4].

Definition board_win : Board.t :=
  Eval vm_compute in fst (Board.play_all board15 game_win).

(** ** State and exceptions *)

(** A computation on a mutable state [S]: the state it leaves, also when it
    raises, and its outcome. *)
Definition St (S A : Type) : Type := S -> S * Res A.

Definition st_ret {S A : Type} (a : A) : St S A := fun s => (s, Ok a).

Definition st_raise {S A : Type} (e : PyExc) : St S A :=
  fun s => (s, Raise e).

Definition st_bind {S A B : Type} (c : St S A) (k : A -> St S B) : St S B :=
  fun s =>
    match c s with
    | (s', Ok a) => k a s'
    | (s', Raise e) => (s', Raise e)
    | (s', OutOfFuel) => (s', OutOfFuel)
    end.

Notation "'let!' x ':=' c 'in' k" := (st_bind c (fun x => k))
  (at level 10, x name, c at level 100, k at level 200).

Definition st_get {S : Type} : St S S := fun s => (s, Ok s).

Definition st_lift {S A : Type} (r : Res A) : St S A := fun s => (s, r).

(** [max(items, key=...)] over items already paired with their keys: the
    first item whose key no later key exceeds; [None] stands for the
    [ValueError] of an empty sequence. *)
Fixpoint py_max_from {A K : Type} (gt : K -> K -> bool) (best : A * K)
    (l : list (A * K)) : A * K :=
  match l with
  | [] => best
  | x :: l' => py_max_from gt (if gt (snd x) (snd best) then x else best) l'
  end.

Definition py_max_by {A K : Type} (gt : K -> K -> bool) (l : list (A * K))
    : option (A * K) :=
  match l with
  | [] => None
  | x :: l' => Some (py_max_from gt x l')
  end.

(** [a > b] on the rationals that stand for Python floats. *)
Definition Qgtb (a b : Q) : bool := negb (Qle_bool a b).

(** ** mcts/MCTS.py

    The nodes of the search tree live in a store indexed by object
    identities, since parents and children refer to each other and every
    playout updates them in place.  A Python [float] is taken as the exact
    rational it approximates: rounding is not modelled. *)

Module MCTS.

Record Node : Type := mkNode {
  parent : option nat;
  children : list (Z * nat);
  vis_times : Z;
  Q_value : Q;
  U_value : Q;
  P_value : Q
}.

Abbreviation Tree := (gmap nat Node).

(** [MCTSTreeNode(parent, prior_prob)]. *)
Definition new_node (parent : option nat) (prior_prob : Q) : Node :=
  {| parent := parent; children := []; vis_times := 0;
     Q_value := 0; U_value := 0; P_value := prior_prob |}.

(** The object behind a reference; a reference to nothing, which Python
    cannot form, is reported as an [AttributeError]. *)
Definition node_at (self : nat) : St Tree Node :=
  fun h =>
    match h !! self with
    | Some nd => (h, Ok nd)
    | None => (h, Raise AttributeError)
    end.

Definition set_node (self : nat) (nd : Node) : St Tree unit :=
  fun h => (<[self := nd]> h, Ok tt).

(** [update(bp_value)]: the visit count is stored before the division. *)
Definition update (self : nat) (bp_value : Q) : St Tree unit :=
  let! nd := node_at self in
  let nd1 := {| parent := parent nd; children := children nd;
                vis_times := vis_times nd + 1;
                Q_value := Q_value nd; U_value := U_value nd;
                P_value := P_value nd |} in
  let! _ := set_node self nd1 in
  if vis_times nd1 =? 0 then st_raise ZeroDivisionError
  else
    set_node self
      {| parent := parent nd1; children := children nd1;
         vis_times := vis_times nd1;
         Q_value := (Q_value nd1
                     + (bp_value - Q_value nd1) / inject_Z (vis_times nd1))%Q;
         U_value := U_value nd1; P_value := P_value nd1 |}.

(** [backPropagation(bp_value)], the recursion bounded by [fuel]. *)
Fixpoint backPropagation_fuel (fuel : nat) (self : nat) (bp_value : Q)
    : St Tree unit :=
  match fuel with
  | O => st_lift OutOfFuel
  | S fuel' =>
      let! _ := update self bp_value in
      let! nd := node_at self in
      match parent nd with
      | Some p => backPropagation_fuel fuel' p (- bp_value)%Q
      | None => st_ret tt
      end
  end.

(** The budget: a chain of parents without a cycle is no longer than the
    store has nodes. *)
Definition backPropagation (self : nat) (bp_value : Q) : St Tree unit :=
  fun h => backPropagation_fuel (S (size h)) self bp_value h.

Definition is_leaf (nd : Node) : bool :=
  match children nd with
  | [] => true
  | _ => false
  end.

Definition is_root (nd : Node) : bool :=
  match parent nd with
  | None => true
  | Some _ => false
  end.

(** [expand(action_priors)]. *)
Fixpoint expand (self : nat) (action_priors : list (Z * Q)) : St Tree unit :=
  match action_priors with
  | [] => st_ret tt
  | (action, prob) :: rest =>
      let! nd := node_at self in
      let! _ :=
        (if bool_decide (action ∈ (children nd).*1) then st_ret tt
         else
           let! h := st_get in
           let child := fresh (dom h) in
           let! _ := set_node child (new_node (Some self) prob) in
           set_node self
             {| parent := parent nd;
                children := children nd ++ [(action, child)];
                vis_times := vis_times nd; Q_value := Q_value nd;
                U_value := U_value nd; P_value := P_value nd |}) in
      expand self rest
  end.

Section Search.

(** [numpy.sqrt], and the random generator behind [numpy.random.rand]. *)
Variable sqrt : Q -> Q.
Variable Rng : Type.

(** [evaluate(weight_c)]: stores [_U] and returns the score. *)
Definition evaluate (self : nat) (weight_c : Q) : St Tree Q :=
  let! nd := node_at self in
  match parent nd with
  | None => st_raise AttributeError
  | Some p =>
      let! pn := node_at p in
      let u := (P_value nd * sqrt (inject_Z (vis_times pn))
                / inject_Z (1 + vis_times nd))%Q in
      let! _ := set_node self
        {| parent := parent nd; children := children nd;
           vis_times := vis_times nd; Q_value := Q_value nd;
           U_value := u; P_value := P_value nd |} in
      st_ret (Q_value nd + weight_c * u)%Q
  end.

(** The keys of [select]'s [max], computed child by child. *)
Fixpoint evaluate_items (items : list (Z * nat)) (weight_c : Q)
    : St Tree (list ((Z * nat) * Q)) :=
  match items with
  | [] => st_ret []
  | (action, child) :: rest =>
      let! score := evaluate child weight_c in
      let! scored := evaluate_items rest weight_c in
      st_ret (((action, child), score) :: scored)
  end.

(** [select(weight_c)]. *)
Definition select (self : nat) (weight_c : Q) : St Tree (Z * nat) :=
  let! nd := node_at self in
  let! scored := evaluate_items (children nd) weight_c in
  match py_max_by Qgtb scored with
  | None => st_raise ValueError
  | Some (item, _) => st_ret item
  end.

(** The engine object.  Its policies are pure readers of the board they
    are given; the rollout policy draws from the random generator. *)
Record Engine : Type := mkEngine {
  root : nat;
  expand_policy : Board.t -> list (Z * Q) * Q;
  rollout_policy : Rng -> Board.t -> list (Z * Q) * Rng;
  weight_c : Q;
  compute_budget : Z;
  silent : bool;
  expand_bound : Z
}.

(** What the search can touch: the board objects, the tree nodes and the
    random generator. *)
Record World : Type := mkWorld {
  boards : gmap nat Board.t;
  tree : Tree;
  rng : Rng
}.

(** A tree operation run in the world. *)
Definition on_tree {A : Type} (c : St Tree A) : St World A :=
  fun w =>
    let (h, r) := c (tree w) in
    ({| boards := boards w; tree := h; rng := rng w |}, r).

Definition board_at (state : nat) : St World Board.t :=
  fun w =>
    match boards w !! state with
    | Some b => (w, Ok b)
    | None => (w, Raise AttributeError)
    end.

(** A method that mutates the board object [state]. *)
Definition on_board {A : Type} (state : nat) (f : Board.t -> Board.t * Res A)
    : St World A :=
  fun w =>
    match boards w !! state with
    | Some b =>
        let (b', r) := f b in
        ({| boards := <[state := b']> (boards w); tree := tree w;
            rng := rng w |}, r)
    | None => (w, Raise AttributeError)
    end.

(** [copy.deepcopy(state)]: a new board object with the same contents. *)
Definition deepcopy (state : nat) : St World nat :=
  let! b := board_at state in
  fun w =>
    let state_copy := fresh (dom (boards w)) in
    ({| boards := <[state_copy := b]> (boards w); tree := tree w;
        rng := rng w |}, Ok state_copy).

Definition call_rollout_policy (e : Engine) (state : nat)
    : St World (list (Z * Q)) :=
  let! b := board_at state in
  fun w =>
    let (action_probs, g) := rollout_policy e (rng w) b in
    ({| boards := boards w; tree := tree w; rng := g |}, Ok action_probs).

(** The [for _ in range(limit)] loop of [_evaluateRollout]; [winner_color]
    is unbound ([None]) until the first pass has run. *)
Fixpoint rollout_loop (e : Engine) (limit : nat) (state : nat)
    (winner_color : option (option Z)) : St World (option (option Z)) :=
  match limit with
  | O => st_ret winner_color
  | S limit' =>
      let! b := board_at state in
      let! ended := st_lift (Board.gameEnd b) in
      if fst ended then st_ret (Some (snd ended))
      else
        let! action_probs := call_rollout_policy e state in
        match py_max_by Qgtb action_probs with
        | None => st_raise ValueError
        | Some (next_action, _) =>
            let! _ := on_board state (fun b => Board.play b next_action) in
            rollout_loop e limit' state (Some (snd ended))
        end
  end.

(** [_evaluateRollout(state, limit)]. *)
Definition evaluateRollout (e : Engine) (state : nat) (limit : nat)
    : St World Z :=
  let! b := board_at state in
  let player_color := Board.current_player b in
  let! winner_color := rollout_loop e limit state None in
  match winner_color with
  | None => st_raise UnboundLocalError
  | Some None => st_ret 0
  | Some (Some w) => st_ret (if w =? player_color then 1 else -1)
  end.

(** The descent of [_playout]: [while True: if node.is_leaf(): break; ...],
    bounded by [fuel]. *)
Fixpoint descend (e : Engine) (fuel : nat) (node : nat) (state : nat)
    : St World nat :=
  match fuel with
  | O => st_lift OutOfFuel
  | S fuel' =>
      let! nd := on_tree (node_at node) in
      if is_leaf nd then st_ret node
      else
        let! item := on_tree (select node (weight_c e)) in
        let! _ := on_board state (fun b => Board.play b (fst item)) in
        descend e fuel' (snd item) state
  end.

(** [_playout(state)]. *)
Definition playout (e : Engine) (state : nat) : St World unit :=
  let! w := st_get in
  let! node := descend e (S (size (tree w))) (root e) state in
  let! b := board_at state in
  let action_probs := fst (expand_policy e b) in
  let! ended := st_lift (Board.gameEnd b) in
  let! nd := on_tree (node_at node) in
  let! _ :=
    (if negb (fst ended) && (vis_times nd >=? expand_bound e)
     then on_tree (expand node action_probs)
     else st_ret tt) in
  let! bp_value := evaluateRollout e state 1000 in
  on_tree (backPropagation node (inject_Z (- bp_value))).

(** [for _ in range(n): state_copy = copy.deepcopy(state);
    self._playout(state_copy)]; the progress bar of the talkative branch
    only writes to the console. *)
Fixpoint playouts (e : Engine) (n : nat) (state : nat) : St World unit :=
  match n with
  | O => st_ret tt
  | S n' =>
      let! state_copy := deepcopy state in
      let! _ := playout e state_copy in
      playouts e n' state
  end.

(** [getMove(state)]. *)
Definition getMove (e : Engine) (state : nat) : St World Z :=
  let! b := board_at state in
  if Board.is_empty b then
    st_ret (Z.of_nat (length (Board.availables b)) / 2)
  else
    let! _ := playouts e (Z.to_nat (compute_budget e)) state in
    let! r := on_tree (node_at (root e)) in
    let! items :=
      on_tree (fun h =>
        (h, Ok (omap (fun item : Z * nat =>
                        match h !! snd item with
                        | Some c => Some (fst item, vis_times c)
                        | None => None
                        end) (children r)))) in
    match py_max_by Z.gtb items with
    | None => st_raise ValueError
    | Some (action, _) => st_ret action
    end.

(** [self.root = node]. *)
Definition set_root (e : Engine) (node : nat) : Engine :=
  {| root := node; expand_policy := expand_policy e;
     rollout_policy := rollout_policy e; weight_c := weight_c e;
     compute_budget := compute_budget e; silent := silent e;
     expand_bound := expand_bound e |}.

(** [self.root = MCTSTreeNode(None, 1.0)]: a new object becomes the root. *)
Definition fresh_root (e : Engine) : St Tree Engine :=
  fun h =>
    let r := fresh (dom h) in
    (<[r := new_node None 1]> h, Ok (set_root e r)).

(** [reset()]. *)
Definition reset (e : Engine) : St Tree Engine := fresh_root e.

(** [d[key]] for a dictionary kept as the list of its items. *)
Fixpoint dict_get (key : Z) (items : list (Z * nat)) : option nat :=
  match items with
  | [] => None
  | (k, v) :: rest => if bool_decide (k = key) then Some v
                      else dict_get key rest
  end.

(** [updateWithMove(last_move)]; [last_move] is [None] before the first
    stone, and [None] is no key of [children]. *)
Definition updateWithMove (e : Engine) (last_move : option Z)
    : St Tree Engine :=
  let! r := node_at (root e) in
  match last_move with
  | None => fresh_root e
  | Some m =>
      match dict_get m (children r) with
      | None => fresh_root e
      | Some c =>
          let! cn := node_at c in
          let! _ := set_node c
            {| parent := None; children := children cn;
               vis_times := vis_times cn; Q_value := Q_value cn;
               U_value := U_value cn; P_value := P_value cn |} in
          st_ret (set_root e c)
      end
  end.

(** *** mcts/policy_fn.py *)

(** [numpy.random.rand(n)]: [n] numbers and the generator's next state. *)
Variable rand : Rng -> nat -> list Q * Rng.

(** [rollout_policy_fn(board)]. *)
Definition rollout_policy_fn (g : Rng) (board : Board.t)
    : list (Z * Q) * Rng :=
  let (action_probs, g') := rand g (length (Board.availables board)) in
  (zip (Board.availables board) action_probs, g').

(** [MCTS_expand_policy_fn(board)]. *)
Definition MCTS_expand_policy_fn (board : Board.t) : list (Z * Q) * Q :=
  let n := length (Board.availables board) in
  (zip (Board.availables board)
       (replicate n (1 / inject_Z (Z.of_nat n))%Q), 0%Q).

(** [MCTS(expand_policy, rollout_policy, weight_c, compute_budget,
    expand_bound, silent)] on a given root object. *)
Definition init (root : nat)
    (expand_policy : Board.t -> list (Z * Q) * Q)
    (rollout_policy : Rng -> Board.t -> list (Z * Q) * Rng)
    (weight_c : Q) (compute_budget expand_bound : Z) (silent : bool)
    : Engine :=
  {| root := root; expand_policy := expand_policy;
     rollout_policy := rollout_policy; weight_c := weight_c;
     compute_budget := compute_budget; silent := silent;
     expand_bound := Z.min expand_bound compute_budget |}.

End Search.

(** What the specification calls the incremental mean: one more visit, and
    [Q] moved towards the value by the [visitCount]-th part of the gap. *)
Definition incremental_mean (nd : Node) (value : Q) : Node :=
  {| parent := parent nd; children := children nd;
     vis_times := vis_times nd + 1;
     Q_value := (Q_value nd
                 + (value - Q_value nd) / inject_Z (vis_times nd + 1))%Q;
     U_value := U_value nd; P_value := P_value nd |}.

(** The value that reaches the [i]-th node above the one where the
    backpropagation starts: negated once per level. *)
Fixpoint flipped (i : nat) (value : Q) : Q :=
  match i with
  | O => value
  | S i' => flipped i' (- value)%Q
  end.

(** A path from a node to the root along the [parent] references. *)
Inductive path_to_root (h : Tree) : list nat -> Prop :=
  | path_root n nd :
      h !! n = Some nd -> parent nd = None -> path_to_root h [n]
  | path_step n nd p rest :
      h !! n = Some nd -> parent nd = Some p ->
      path_to_root h (p :: rest) -> path_to_root h (n :: p :: rest).

(** [update] called once for each value of a list, in order. *)
Fixpoint updates (self : nat) (values : list Q) : St Tree unit :=
  match values with
  | [] => st_ret tt
  | v :: rest => let! _ := update self v in updates self rest
  end.

End MCTS.

(** A toy generator for concrete runs: the state is a counter. *)
Definition toy_rand (g : nat) (n : nat) : list Q * nat :=
  (map (fun i => inject_Z (Z.of_nat ((g * 31 + i * 17) mod 7))) (seq 0 n),
   S g).

(** A pure engine as [PureMCTSPlayer] builds it, with root object 0 and a
    budget of 100 playouts. *)
Definition toy_engine : MCTS.Engine nat :=
  MCTS.init nat 0%nat MCTS.MCTS_expand_policy_fn
    (MCTS.rollout_policy_fn nat toy_rand) 5 100 1 true.

(** A world with the fresh board as object 7 and a tree of one root. *)
Definition toy_world (b : Board.t) : MCTS.World nat :=
  {| MCTS.boards := {[ 7%nat := b ]};
     MCTS.tree := {[ 0%nat := MCTS.new_node None 1 ]};
     MCTS.rng := 0%nat |}.

(** A computation that leaves the board object [l] as it finds it,
    whatever its outcome. *)
Definition keeps_board {Rng A : Type} (l : nat)
    (c : St (MCTS.World Rng) A) : Prop :=
  forall w, MCTS.boards Rng (fst (c w)) !! l = MCTS.boards Rng w !! l.

(** A tree of three nodes: the root 0, its child 1 for the move 112 and
    the grandchild 2 for the move 113, visited 3, 2 and 1 times. *)
Definition toy_tree : gmap nat MCTS.Node :=
  <[2%nat := MCTS.mkNode (Some 1%nat) [] 1 1 0 (1 # 2)]>
    (<[1%nat := MCTS.mkNode (Some 0%nat) [(113, 2%nat)] 2 (-1 # 2) 0 (1 # 2)]>
       {[0%nat := MCTS.mkNode None [(112, 1%nat)] 3 (1 # 3) 0 1]}).

(** *** Lines of stones

    The board as rows and columns: the cell of row [r] and column [c] has
    the move index [r * width + c]. *)

Definition on_board (b : Board.t) (r c : Z) : Prop :=
  0 <= r < Board.height b /\ 0 <= c < Board.width b.

Definition stone (b : Board.t) (r c : Z) : option Z :=
  Board.states b !! (r * Board.width b + c).

(** Along a row, down a column, down the main diagonal, down the other
    diagonal. *)
Definition directions : list (Z * Z) := [(0, 1); (1, 0); (1, 1); (1, -1)].

(** [numberToWin] stones of [player] in a line that starts at the cell
    [(r, c)] and advances by [(dr, dc)], all of them on the board. *)
Definition line_at (b : Board.t) (player r c dr dc : Z) : Prop :=
  forall i, 0 <= i < Board.numberToWin b ->
    on_board b (r + i * dr) (c + i * dc) /\
    stone b (r + i * dr) (c + i * dc) = Some player.

Definition has_line (b : Board.t) (player : Z) : Prop :=
  exists r c dr dc, (dr, dc) ∈ directions /\ line_at b player r c dr dc.

(** A line of [player] that passes through the cell with index [m]. *)
Definition line_through (b : Board.t) (player m : Z) : Prop :=
  exists r c dr dc j,
    (dr, dc) ∈ directions /\ line_at b player r c dr dc /\
    0 <= j < Board.numberToWin b /\
    m = (r + j * dr) * Board.width b + (c + j * dc).


(** Seen from the cell [start], the cell [i] steps along [(dr, dc)] is
    good when its column is on the board and it holds a stone of
    [player]. *)
Definition good (b : Board.t) (player start dr dc : Z) (i : Z) : Prop :=
  0 <= start mod Board.width b + i * dc < Board.width b /\
  Board.states b !! (start + i * (dr * Board.width b + dc)) = Some player.

(** The good cells around the start reach [nL] steps back and [nR] steps
    forward, and no further. *)
Definition extent (g : Z -> Prop) (nL nR : nat) : Prop :=
  (forall i, - Z.of_nat nL <= i <= Z.of_nat nR -> i <> 0 -> g i) /\
  ~ g (- (Z.of_nat nL + 1)) /\ ~ g (Z.of_nat nR + 1).

(** A computation that keeps the invariant [Inv] of the state, whatever
    its outcome, and whose value, when it returns one, satisfies [Post]. *)
Definition st_keeps {S A : Type} (Inv : S -> Prop) (Post : A -> Prop)
    (c : St S A) : Prop :=
  forall s, Inv s ->
    Inv (fst (c s)) /\ (forall a, snd (c s) = Ok a -> Post a).

(** Every node of the store has a visit count that is not negative and a
    value between -1 and 1. *)
Definition node_bounded (nd : MCTS.Node) : Prop :=
  0 <= MCTS.vis_times nd /\ (-1 <= MCTS.Q_value nd <= 1)%Q.

Definition tree_bounded (h : gmap nat MCTS.Node) : Prop :=
  forall n nd, h !! n = Some nd -> node_bounded nd.

(** The same in the world of the search. *)
Definition world_bounded {Rng : Type} (w : MCTS.World Rng) : Prop :=
  tree_bounded (MCTS.tree Rng w).

(** The score that [select] maximises, as the documentation of the node
    states it: [Q + c * P * sqrt(N_parent) / (1 + N)], read off the store. *)
Definition uct_score (sqrt : Q -> Q) (h : gmap nat MCTS.Node) (weight_c : Q)
    (child : nat) : option Q :=
  match h !! child with
  | None => None
  | Some nd =>
      match MCTS.parent nd with
      | None => None
      | Some p =>
          match h !! p with
          | None => None
          | Some pn =>
              Some (MCTS.Q_value nd
                    + weight_c
                      * (MCTS.P_value nd
                         * sqrt (inject_Z (MCTS.vis_times pn))
                         / inject_Z (1 + MCTS.vis_times nd)))%Q
          end
      end
  end.

(** Two nodes that differ at most in the stored [_U]. *)
Definition core_eq (nd nd' : MCTS.Node) : Prop :=
  MCTS.parent nd' = MCTS.parent nd /\
  MCTS.children nd' = MCTS.children nd /\
  MCTS.vis_times nd' = MCTS.vis_times nd /\
  MCTS.Q_value nd' = MCTS.Q_value nd /\
  MCTS.P_value nd' = MCTS.P_value nd.

(** Two stores with the same nodes up to the stored [_U]. *)
Definition same_but_U (h h' : gmap nat MCTS.Node) : Prop :=
  forall n,
    match h !! n, h' !! n with
    | Some nd, Some nd' => core_eq nd nd'
    | None, None => True
    | _, _ => False
    end.

(** A board of 3 x 3 cells with three in a row to win, after Black's first
    stone in the middle, and a pure engine with a budget of four playouts. *)
Definition board3_one : Board.t :=
  Eval vm_compute in
    fst (Board.play
           {| Board.width := 3; Board.height := 3; Board.numberToWin := 3;
              Board.current_player := Board.kPlayerBlack;
              Board.availables := seqZ 0 9; Board.moved := [];
              Board.states := ∅; Board.last_move := None |} 4).

Definition small_engine : MCTS.Engine nat :=
  MCTS.init nat 0%nat MCTS.MCTS_expand_policy_fn
    (MCTS.rollout_policy_fn nat toy_rand) 5 4 1 true.

(** A search tree that fits a board of [cells] cells: the root is a node
    without parent, every child that a node records is a node that names
    it as parent and stands for a cell of the board, and no visit count is
    negative. *)
Record tree_wf (h : gmap nat MCTS.Node) (r : nat) (cells : Z) : Prop := {
  wf_root : exists rn, h !! r = Some rn /\ MCTS.parent rn = None;
  wf_children :
    forall n nd a c, h !! n = Some nd -> (a, c) ∈ MCTS.children nd ->
      0 <= a < cells /\
      exists cn, h !! c = Some cn /\ MCTS.parent cn = Some n;
  wf_visits : forall n nd, h !! n = Some nd -> 0 <= MCTS.vis_times nd
}.

(** A root visited six times with three children of different priors,
    visits and values. *)
Definition toy_fan : gmap nat MCTS.Node :=
  <[3%nat := MCTS.mkNode (Some 0%nat) [] 1 1 0 (1 # 4)]>
    (<[2%nat := MCTS.mkNode (Some 0%nat) [] 2 (-1 # 2) 0 (1 # 4)]>
       (<[1%nat := MCTS.mkNode (Some 0%nat) [] 3 (1 # 3) 0 (1 # 2)]>
          {[ 0%nat := MCTS.mkNode None [(3, 1%nat); (4, 2%nat); (5, 3%nat)]
                        6 0 0 1 ]})).

(** The board object 7 beside the tree [toy_tree]. *)
Definition toy_tree_world (b : Board.t) : MCTS.World nat :=
  {| MCTS.boards := {[ 7%nat := b ]};
     MCTS.tree := toy_tree;
     MCTS.rng := 0%nat |}.

(** * Properties of the board *)

Section ListRemove.

Lemma list_remove_Some x l l' :
  list_remove x l = Some l' -> l ≡ₚ x :: l'.
Proof.
  revert l'. induction l as [|y l IH]; intros l' H; simpl in H.
  - discriminate.
  - case_bool_decide as Hxy.
    + inversion H; subst. reflexivity.
    + destruct (list_remove x l) as [l0|] eqn:E; simpl in H; [|discriminate].
      inversion H; subst. rewrite (IH l0 eq_refl). apply Permutation_swap.
Qed.

Lemma list_remove_None x l : list_remove x l = None <-> x ∉ l.
Proof.
  induction l as [|y l IH]; simpl.
  - split; [intros _; apply not_elem_of_nil | reflexivity].
  - case_bool_decide as Hxy.
    + split; [discriminate|]. intros H. exfalso. apply H. subst. left.
    + rewrite not_elem_of_cons. destruct (list_remove x l); simpl.
      * split; [discriminate|]. intros [_ H]. apply IH in H. discriminate.
      * split; [|reflexivity]. intros _. split; [exact Hxy|]. now apply IH.
Qed.

Lemma list_remove_elem x l : x ∈ l -> is_Some (list_remove x l).
Proof.
  intros H. destruct (list_remove x l) eqn:E; [eauto|].
  apply list_remove_None in E. contradiction.
Qed.

End ListRemove.

Section PlayUndo.

Import Board.

(** What a successful [play] leaves. *)
Lemma play_true_inv b m b' :
  play b m = (b', Ok true) ->
  (m ∉ moved b) /\
  (exists av, list_remove m (availables b) = Some av /\
    b' = {| width := width b; height := height b;
            numberToWin := numberToWin b;
            current_player := 1 - current_player b;
            availables := av; moved := moved b ++ [m];
            states := <[m := current_player b]> (states b);
            last_move := Some m |}).
Proof.
  unfold play. case_bool_decide as Hin; [intros H; inversion H|].
  simpl. destruct (list_remove m (availables b)) as [av|] eqn:E;
    intros H; inversion H; subst.
  split; [exact Hin|]. exists av. split; reflexivity.
Qed.

(** What a successful [undo] leaves. *)
Lemma undo_true_inv b b' :
  undo b = (b', Ok true) ->
  moved b <> [] /\
  exists lm, last_move b = Some lm /\ is_Some (states b !! lm) /\
    b' = {| width := width b; height := height b;
            numberToWin := numberToWin b;
            current_player := 1 - current_player b;
            availables := availables b ++ [lm];
            moved := removelast (moved b);
            states := delete lm (states b);
            last_move := last (removelast (moved b)) |}.
Proof.
  unfold undo. destruct (moved b) as [|x mv] eqn:Hm; [intros H; inversion H|].
  destruct (last_move b) as [lm|]; [|intros H; inversion H].
  destruct (states b !! lm) as [p|] eqn:Hs; [|intros H; inversion H].
  intros H; inversion H; subst. split; [discriminate|].
  exists lm. rewrite Hs. repeat split; eauto.
Qed.

Lemma undo_true_intro b lm :
  moved b <> [] -> last_move b = Some lm -> is_Some (states b !! lm) ->
  undo b =
    ({| width := width b; height := height b;
        numberToWin := numberToWin b;
        current_player := 1 - current_player b;
        availables := availables b ++ [lm];
        moved := removelast (moved b);
        states := delete lm (states b);
        last_move := last (removelast (moved b)) |}, Ok true).
Proof.
  intros Hne Hl [p Hs]. unfold undo.
  destruct (moved b) as [|x mv] eqn:Hm; [contradiction|].
  rewrite Hl, Hs. reflexivity.
Qed.

Lemma Board_inv_initBoard w h n sp b :
  0 < w -> 0 < h -> sp = None \/ sp = Some 0 \/ sp = Some 1 ->
  initBoard w h n sp = Ok b -> Board_inv b.
Proof.
  intros Hw Hh Hsp. unfold initBoard.
  destruct ((w <? n) || (h <? n)); [discriminate|].
  intros H; inversion H; subst; clear H.
  constructor; simpl; try assumption.
  - intros k Hk. apply elem_of_nil in Hk. contradiction.
  - apply NoDup_nil_2.
  - intros k. rewrite lookup_empty, elem_of_nil. split; [|tauto].
    intros [x Hx]. discriminate.
  - intros k p. rewrite lookup_empty. discriminate.
  - destruct Hsp as [->|[->| ->]]; simpl; unfold kPlayerBlack; lia.
  - reflexivity.
  - intros k. rewrite elem_of_seqZ, elem_of_nil. lia.
  - apply NoDup_seqZ.
Qed.

Lemma Board_inv_play b m b' :
  Board_inv b -> play b m = (b', Ok true) -> Board_inv b'.
Proof.
  intros I H. apply play_true_inv in H as (Hnin & av & Hav & ->).
  pose proof (list_remove_Some _ _ _ Hav) as Hperm.
  assert (Hmav : m ∈ availables b) by (rewrite Hperm; left).
  pose proof (proj1 (inv_avail b I m) Hmav) as [Hrange _].
  assert (Hnd : NoDup (m :: av)) by (rewrite <- Hperm; apply I).
  apply NoDup_cons in Hnd as [Hmnav Hndav].
  constructor; simpl.
  - apply I.
  - apply I.
  - intros k. rewrite elem_of_app, list_elem_of_singleton.
    intros [Hk| ->]; [now apply I | exact Hrange].
  - apply NoDup_app. split; [apply I|]. split; [|apply NoDup_singleton].
    intros x Hx. rewrite list_elem_of_singleton. intros ->. contradiction.
  - intros k. rewrite elem_of_app, list_elem_of_singleton.
    destruct (decide (m = k)) as [->|Hne].
    + rewrite lookup_insert_eq. split; eauto.
    + rewrite lookup_insert_ne by exact Hne. rewrite (inv_states_dom b I).
      split; [tauto|]. intros [Hk| ->]; [exact Hk | contradiction].
  - intros k p. destruct (decide (m = k)) as [->|Hne].
    + rewrite lookup_insert_eq. intros [= <-]. apply I.
    + rewrite lookup_insert_ne by exact Hne. apply I.
  - destruct (inv_current b I) as [-> | ->]; lia.
  - now rewrite last_snoc.
  - intros k. rewrite elem_of_app, list_elem_of_singleton.
    pose proof (inv_avail b I k) as Hk. rewrite Hperm, elem_of_cons in Hk.
    split.
    + intros Hkav. destruct Hk as [Hk _].
      destruct (Hk (or_intror Hkav)) as [Hr Hn]. split; [exact Hr|].
      intros [Hm| ->]; [contradiction | contradiction].
    + intros [Hr Hn]. destruct Hk as [_ Hk].
      destruct Hk as [->|Hkav]; [tauto | tauto | exact Hkav].
  - exact Hndav.
Qed.

Lemma Board_inv_undo b b' :
  Board_inv b -> undo b = (b', Ok true) -> Board_inv b'.
Proof.
  intros I H. apply undo_true_inv in H as (Hne & lm & Hl & Hs & ->).
  rewrite (inv_last b I) in Hl. apply last_Some in Hl as [mv Hmv].
  pose proof (inv_moved_nodup b I) as Hnd. rewrite Hmv in Hnd.
  apply NoDup_app in Hnd as (Hndmv & Hdisj & _).
  assert (Hlm : lm ∉ mv).
  { intros Hin. apply (Hdisj _ Hin). left. }
  assert (Hlmr : 0 <= lm < width b * height b).
  { apply I. rewrite Hmv, elem_of_app, list_elem_of_singleton. tauto. }
  constructor; simpl; rewrite ?Hmv, ?removelast_last.
  - apply I.
  - apply I.
  - intros k Hk. apply I. rewrite Hmv, elem_of_app. tauto.
  - exact Hndmv.
  - intros k. destruct (decide (lm = k)) as [->|Hnek].
    + rewrite lookup_delete_eq. split; [intros [x Hx]; discriminate|].
      intros Hk; contradiction.
    + rewrite lookup_delete_ne by exact Hnek. rewrite (inv_states_dom b I).
      rewrite Hmv, elem_of_app, list_elem_of_singleton.
      split; [intros [Hk| ->]; [exact Hk | congruence] | tauto].
  - intros k p. destruct (decide (lm = k)) as [->|Hnek].
    + rewrite lookup_delete_eq. discriminate.
    + rewrite lookup_delete_ne by exact Hnek. apply I.
  - destruct (inv_current b I) as [-> | ->]; lia.
  - reflexivity.
  - intros k. rewrite elem_of_app, list_elem_of_singleton.
    rewrite (inv_avail b I k), Hmv, elem_of_app, list_elem_of_singleton.
    split.
    + intros [[Hr Hn]| ->]; [split; [exact Hr | tauto] | tauto].
    + intros [Hr Hn]. destruct (decide (k = lm)) as [->|Hnek]; [tauto|].
      left. split; [exact Hr|]. intros [Hk|Hk]; [tauto | tauto].
  - apply NoDup_app. split; [apply I|]. split; [|apply NoDup_singleton].
    intros x Hx. rewrite list_elem_of_singleton. intros ->.
    apply (inv_avail b I) in Hx as [_ Hx]. apply Hx.
    rewrite Hmv, elem_of_app, list_elem_of_singleton. tauto.
Qed.

(** Every board a program can build satisfies the invariant. *)
Lemma reachable_inv b : reachable b -> Board_inv b.
Proof.
  induction 1 as [w h n sp b Hw Hh Hsp Hi | b m b' _ IH Hp | b b' _ IH Hu].
  - exact (Board_inv_initBoard w h n sp b Hw Hh Hsp Hi).
  - exact (Board_inv_play b m b' IH Hp).
  - exact (Board_inv_undo b b' IH Hu).
Qed.

End PlayUndo.

(** ** The cases of [pygomoku_test/Board_test.py] *)

Section BoardTests.

Import Board.

Example test_initBoard : initBoard 15 15 5 None = Ok board15.
Proof. reflexivity. Qed.

Example test_moveToLocation :
  moveToLocation board15 (PyInt 15) = Ok (Some (1, 0)) /\
  moveToLocation board15 (PyInt 0) = Ok (Some (0, 0)) /\
  moveToLocation board15 (PyInt 17) = Ok (Some (1, 2)).
Proof. repeat split. Qed.

Example test_locationToMove :
  locationToMove board15 (PyList [PyInt 1; PyInt 0]) = Ok (Some 15) /\
  locationToMove board15 (PyList [PyInt 0; PyInt 0]) = Ok (Some 0) /\
  locationToMove board15 (PyList [PyInt 1; PyInt 2]) = Ok (Some 17).
Proof. repeat split. Qed.

Example test_play_and_undo :
  snd (undo board15) = Ok false /\
  last_move (fst (play board15 17)) = Some 17 /\
  snd (play (fst (play board15 17)) 17) = Ok false /\
  last_move (fst (undo (fst (play board15 17)))) = None.
Proof. repeat split; vm_compute; reflexivity. Qed.

Example test_gameEnd :
  gameEnd board_win = Ok (true, Some kPlayerBlack) /\
  gameEnd (fst (play_all board15
                  [105; 120; 106; 121; 107; 122; 108; 123;
                   0; 45; 1; 46; 2; 3; 4])) = Ok (false, None).
Proof. split; vm_compute; reflexivity. Qed.

End BoardTests.

(** ** [play] on a move that cannot be played *)

Section PlayRejected.

Import Board.

(** C1, amended: on every board, [play] on a cell that already holds a
    stone returns [False], does not raise, and leaves the board (cells,
    available moves, history, player to move, last move) as it was. *)
Theorem play_refuses_occupied_cell (b : t) (m : Z) :
  m ∈ moved b -> play b m = (b, Ok false).
Proof.
  intros H. unfold play. now rewrite bool_decide_eq_true_2.
Qed.

Lemma play_refuses_occupied_cell_witness :
  4 ∈ moved board_win /\ play board_win 4 = (board_win, Ok false).
Proof.
  assert (H : 4 ∈ moved board_win).
  { apply list_elem_of_In. vm_compute. tauto. }
  split; [exact H|].
  exact (play_refuses_occupied_cell board_win 4 H).
Defined.

(** A move outside the board is not refused: the colour is written into
    [states] and then [availables.remove] raises. *)
Lemma play_out_of_range b m :
  Board_inv b -> m < 0 \/ m >= width b * height b ->
  play b m =
    ({| width := width b; height := height b; numberToWin := numberToWin b;
        current_player := current_player b;
        availables := availables b; moved := moved b;
        states := <[m := current_player b]> (states b);
        last_move := last_move b |}, Raise ValueError).
Proof.
  intros I Hr. unfold play.
  rewrite bool_decide_eq_false_2.
  - simpl. replace (list_remove m (availables b)) with (@None (list Z));
      [reflexivity|].
    symmetry. apply list_remove_None. intros Hin.
    apply (inv_avail b I) in Hin. lia.
  - intros Hin. apply (inv_moved_range b I) in Hin. lia.
Qed.

(** C1 as stated fails: on a fresh 15 x 15 board the move 225 lies outside
    the board, yet [play] does not return [False]; it raises [ValueError],
    and the cell 225, absent before, now holds the black stone in
    [states]. *)
Lemma play_out_of_range_raises_and_mutates :
  ~ (0 <= 225 < width board15 * height board15) /\
  snd (play board15 225) = Raise ValueError /\
  states board15 !! 225 = None /\
  states (fst (play board15 225)) !! 225 = Some kPlayerBlack /\
  fst (play board15 225) <> board15.
Proof.
  assert (I : Board_inv board15).
  { apply (Board_inv_initBoard 15 15 5 None); auto; lia. }
  rewrite (play_out_of_range board15 225 I) by (simpl; lia). simpl.
  split; [lia|]. split; [reflexivity|]. split; [apply lookup_empty|].
  split; [apply lookup_insert_eq|].
  intros H. apply (f_equal (fun x => states x !! 225)) in H. simpl in H.
  rewrite lookup_insert_eq, lookup_empty in H. discriminate.
Qed.

End PlayRejected.

(** ** Coordinate conversions and malformed arguments *)

Section Coordinates.

Import Board.

(** A move index outside the board has no location. *)
Lemma moveToLocation_out_of_range b m :
  m < 0 \/ m >= width b * height b ->
  moveToLocation b (PyInt m) = Ok None.
Proof.
  intros H. unfold moveToLocation. simpl.
  destruct (m <? 0) eqn:E1; [reflexivity|].
  destruct (m >=? width b * height b) eqn:E2; [reflexivity|]. lia.
Qed.

(** [locationToMove] judges a pair of integers by its linear index alone. *)
Lemma locationToMove_pair b h w :
  locationToMove b (PyList [PyInt h; PyInt w]) =
    if (h * width b + w <? 0) || (h * width b + w >=? width b * height b)
    then Ok None else Ok (Some (h * width b + w)).
Proof. reflexivity. Qed.

Lemma locationToMove_None_iff b h w :
  locationToMove b (PyList [PyInt h; PyInt w]) = Ok None <->
  h * width b + w < 0 \/ h * width b + w >= width b * height b.
Proof.
  rewrite locationToMove_pair.
  destruct (h * width b + w <? 0) eqn:E1; simpl.
  - split; [lia | reflexivity].
  - destruct (h * width b + w >=? width b * height b) eqn:E2.
    + split; [lia | reflexivity].
    + split; [discriminate | lia].
Qed.

(** What the guards do reject: a location whose linear index
    [row * width + col] lies outside the board, as is the case whenever the
    row is out of range and the column is in range, has no move, and a move
    index outside the board has no location. *)
Lemma index_out_of_range_rejected (b : t) (h w m : Z) :
  0 < width b ->
  (~ (0 <= h < height b) /\ 0 <= w < width b) \/
  (h * width b + w < 0 \/ h * width b + w >= width b * height b) ->
  m < 0 \/ m >= width b * height b ->
  locationToMove b (PyList [PyInt h; PyInt w]) = Ok None /\
  moveToLocation b (PyInt m) = Ok None.
Proof.
  intros Hw Hloc Hm. split; [|now apply moveToLocation_out_of_range].
  apply locationToMove_None_iff.
  destruct Hloc as [[Hh Hcol]|Hidx]; [|exact Hidx].
  destruct (Z_lt_ge_dec h 0) as [Hneg|Hpos]; [left; nia | right; nia].
Qed.

(** C4, at inputs where the code departs from it.  [locationToMove]
    guards the linear index [row * width + col] only, so a column outside
    the board passes when the index it gives is a cell of another row.  On
    the 15 x 15 board the location [0, 15] has its column out of range, yet
    the answer is the move 15, which [isValidMove] accepts and which is the
    cell of row 1 and column 0, the only location that [moveToLocation]
    gives for it; the location [1, -1] is taken for the cell of row 0 and
    column 14.  The guard does reject the row out of range: [15, 3] has no
    move, and neither has the move 225 a location. *)
Theorem locationToMove_accepts_column_out_of_range :
  ~ (0 <= 15 < width board15) /\
  locationToMove board15 (PyList [PyInt 0; PyInt 15]) = Ok (Some 15) /\
  isValidMove board15 (PyInt 15) = Ok true /\
  moveToLocation board15 (PyInt 15) = Ok (Some (1, 0)) /\
  locationToMove board15 (PyList [PyInt 1; PyInt 0]) = Ok (Some 15) /\
  ~ (0 <= -1 < width board15) /\
  locationToMove board15 (PyList [PyInt 1; PyInt (-1)]) = Ok (Some 14) /\
  moveToLocation board15 (PyInt 14) = Ok (Some (0, 14)) /\
  locationToMove board15 (PyList [PyInt 15; PyInt 3]) = Ok None /\
  moveToLocation board15 (PyInt 225) = Ok None.
Proof.
  split; [simpl; lia|]. split; [reflexivity|]. split; [reflexivity|].
  split; [reflexivity|]. split; [reflexivity|]. split; [simpl; lia|].
  split; [reflexivity|]. split; [reflexivity|]. split; reflexivity.
Qed.

(** C10: a value that is no [int] instance, [None] included, makes
    [isValidMove] return [False] without raising, and [moveToLocation]
    returns [None] on [None]. *)
Theorem queries_total_on_malformed_input (b : t) (v : PyVal) :
  isinstance_int v = false ->
  isValidMove b v = Ok false /\ moveToLocation b PyNone = Ok None.
Proof.
  intros H. split; [|reflexivity].
  unfold isValidMove. now rewrite H.
Qed.

Lemma queries_total_on_malformed_input_witness :
  isinstance_int (PyStr [104%nat; 105%nat]) = false /\
  isValidMove board15 (PyStr [104%nat; 105%nat]) = Ok false /\
  moveToLocation board15 PyNone = Ok None.
Proof.
  split; [reflexivity|].
  apply (queries_total_on_malformed_input board15 (PyStr [104%nat; 105%nat])).
  reflexivity.
Defined.

End Coordinates.

(** ** [undo] takes back [play] *)

Section UndoInverse.

Import Board.

Lemma board_equiv_refl b : board_equiv b b.
Proof. unfold board_equiv. repeat split; reflexivity. Qed.

Lemma board_equiv_trans b1 b2 b3 :
  board_equiv b1 b2 -> board_equiv b2 b3 -> board_equiv b1 b3.
Proof.
  unfold board_equiv.
  intros (?&?&?&?&?&?&?&Hp1) (?&?&?&?&?&?&?&Hp2).
  repeat split; try congruence. now rewrite Hp1.
Qed.

(** One [undo] after one successful [play]. *)
Lemma undo_play b m b1 :
  Board_inv b -> play b m = (b1, Ok true) ->
  exists b2, undo b1 = (b2, Ok true) /\ board_equiv b2 b.
Proof.
  intros I Hp. apply play_true_inv in Hp as (Hnin & av & Hav & ->).
  eexists. split.
  - apply (undo_true_intro _ m); simpl.
    + intros E. apply app_eq_nil in E as [_ E]. discriminate.
    + reflexivity.
    + rewrite lookup_insert_eq. eauto.
  - unfold board_equiv; simpl. rewrite removelast_last.
    repeat split.
    + lia.
    + apply delete_insert_id.
      destruct (states b !! m) eqn:E; [|reflexivity].
      exfalso. apply Hnin. apply (inv_states_dom b I). eauto.
    + symmetry. apply I.
    + apply list_remove_Some in Hav. rewrite Hav.
      symmetry. apply Permutation_cons_append.
Qed.

(** [undo] does not look at the order of [availables]. *)
Lemma undo_equiv b1 b2 b1' :
  board_equiv b1 b2 -> undo b1 = (b1', Ok true) ->
  exists b2', undo b2 = (b2', Ok true) /\ board_equiv b1' b2'.
Proof.
  intros (Hw & Hh & Hn & Hc & Hm & Hs & Hl & Hp) Hu.
  apply undo_true_inv in Hu as (Hne & lm & Hlm & Hsome & ->).
  eexists. split.
  - apply (undo_true_intro _ lm); congruence.
  - unfold board_equiv; simpl. rewrite Hw, Hh, Hn, Hc, Hm, Hs, Hp.
    repeat split; reflexivity.
Qed.

(** [n + 1] calls of [undo] are [n] calls and one more. *)
Lemma undo_n_S_last n b b1 :
  undo_n n b = (b1, Ok true) -> undo_n (S n) b = undo_n 1 b1.
Proof.
  revert b. induction n as [|n IH]; intros b H.
  - simpl in H. inversion H; subst. reflexivity.
  - change (undo_n (S (S n)) b)
      with (match undo b with
            | (b', Ok true) => undo_n (S n) b'
            | r => r
            end).
    simpl in H. destruct (undo b) as [b' [[|]| |]]; try discriminate.
    now apply IH.
Qed.

Lemma play_all_undo_n_equiv ms : forall b b',
  Board_inv b -> play_all b ms = (b', Ok true) ->
  exists b'', undo_n (length ms) b' = (b'', Ok true) /\ board_equiv b'' b.
Proof.
  induction ms as [|m ms IH]; intros b b' I H.
  - simpl in H. inversion H; subst. exists b'. split; [reflexivity|].
    apply board_equiv_refl.
  - simpl in H. destruct (play b m) as [b1 r] eqn:Hp.
    destruct r as [[|]| |]; try discriminate.
    pose proof (Board_inv_play _ _ _ I Hp) as I1.
    destruct (IH b1 b' I1 H) as (b1' & Hu & He).
    destruct (undo_play b m b1 I Hp) as (b0 & Hu0 & He0).
    assert (He' : board_equiv b1 b1').
    { destruct He as (?&?&?&?&?&?&?&Hperm).
      unfold board_equiv. repeat split; try congruence. now rewrite Hperm. }
    destruct (undo_equiv b1 b1' b0 He' Hu0) as (b0' & Hu0' & He0').
    exists b0'. split.
    + simpl length. rewrite (undo_n_S_last _ _ _ Hu). simpl.
      now rewrite Hu0'.
    + apply board_equiv_trans with b0; [|exact He0].
      destruct He0' as (?&?&?&?&?&?&?&Hperm).
      unfold board_equiv. repeat split; try congruence. now rewrite Hperm.
Qed.

(** C5: after any run of successful [play] calls on a board that satisfies
    the board invariant, one [undo] per [play] succeeds every time and leaves
    the cells, the history, the player to move and the last move as they
    were, and the same available moves (as a set: the list holds the same
    elements, possibly in another order). *)
Theorem undo_restores_board (b b' : t) (ms : list Z) :
  Board_inv b ->
  play_all b ms = (b', Ok true) ->
  exists b'', undo_n (length ms) b' = (b'', Ok true) /\
    states b'' = states b /\
    availables b'' ≡ₚ availables b /\
    (forall k, k ∈ availables b'' <-> k ∈ availables b) /\
    current_player b'' = current_player b /\
    last_move b'' = last_move b /\
    moved b'' = moved b.
Proof.
  intros I H.
  destruct (play_all_undo_n_equiv ms b b' I H)
    as (b'' & Hu & (_ & _ & _ & Hc & Hm & Hs & Hl & Hp)).
  exists b''. repeat split; try assumption.
  - intros Hk. now rewrite <- Hp.
  - intros Hk. now rewrite Hp.
Qed.

Lemma undo_restores_board_witness :
  exists b'',
    undo_n 3 (fst (play_all board15 [112; 0; 224])) = (b'', Ok true) /\
    states b'' = states board15 /\
    availables b'' ≡ₚ availables board15 /\
    (forall k, k ∈ availables b'' <-> k ∈ availables board15) /\
    current_player b'' = current_player board15 /\
    last_move b'' = last_move board15 /\
    moved b'' = moved board15.
Proof.
  apply (undo_restores_board board15
           (fst (play_all board15 [112; 0; 224])) [112; 0; 224]).
  - apply (Board_inv_initBoard 15 15 5 None); auto; lia.
  - vm_compute. reflexivity.
Defined.

End UndoInverse.

(** ** The scans of the win check terminate within their step budget *)

Section ScanTermination.

Import Board.

(** A loop whose guard never raises and whose body lowers a measure stops
    before a budget above the measure is used up. *)
Lemma while_loop_terminates {A : Type} (mu : A -> nat)
    (cond : A -> Res bool) (body : A -> A) :
  (forall x, exists c, cond x = Ok c) ->
  (forall x, cond x = Ok true -> (mu (body x) < mu x)%nat) ->
  forall fuel x, (mu x < fuel)%nat ->
  exists y, while_loop fuel cond body x = Ok y.
Proof.
  intros Htot Hdec. induction fuel as [|fuel IH]; intros x Hlt; [lia|].
  simpl. destruct (Htot x) as [c Hc]. rewrite Hc. simpl.
  destruct c; [|eauto].
  apply IH. specialize (Hdec x Hc). lia.
Qed.

Variable b : t.
Hypothesis I : Board_inv b.
Variable player : Z.
Hypothesis Hplayer : player = 0 \/ player = 1.

Let N := width b * height b.

Lemma cell_player_in_range k : cell b k = player -> 0 <= k < N.
Proof.
  unfold cell. destruct (states b !! k) as [p|] eqn:E; simpl.
  - intros _. apply (inv_moved_range b I). apply (inv_states_dom b I). eauto.
  - unfold kEmpty. lia.
Qed.

Lemma same_colour_within_row_total k x c :
  exists r, same_colour_within_row b player k x c = Ok r.
Proof.
  unfold same_colour_within_row, py_mod.
  pose proof (inv_width b I) as Hw.
  destruct (cell b k =? player); [|eauto].
  replace (width b =? 0) with false by (symmetry; apply Z.eqb_neq; lia).
  simpl. eauto.
Qed.

Lemma same_colour_within_row_true k x c :
  same_colour_within_row b player k x c = Ok true ->
  0 <= k < N /\ x mod width b <> c.
Proof.
  unfold same_colour_within_row, py_mod.
  pose proof (inv_width b I) as Hw.
  destruct (cell b k =? player) eqn:E; [|discriminate].
  replace (width b =? 0) with false by (symmetry; apply Z.eqb_neq; lia).
  simpl. intros [= H]. apply negb_true_iff, Z.eqb_neq in H.
  split; [|exact H]. apply cell_player_in_range. now apply Z.eqb_eq.
Qed.

Lemma N_pos : 0 < N.
Proof.
  unfold N. pose proof (inv_width b I). pose proof (inv_height b I). nia.
Qed.

Lemma horizontal_total start :
  0 <= start < N -> exists r, horizontal b start player = Ok r.
Proof.
  intros Hs. unfold horizontal, scan_fuel. fold N.
  destruct (while_loop_terminates (fun l => Z.to_nat l)
              (fun l => same_colour_within_row b player (l - 1) l 0)
              (fun l => l - 1)) with (fuel := S (Z.to_nat N)) (x := start)
    as [l Hl].
  - intros x. apply same_colour_within_row_total.
  - intros x Hx. apply same_colour_within_row_true in Hx. lia.
  - lia.
  - rewrite Hl. cbn [res_bind].
    destruct (while_loop_terminates (fun r => Z.to_nat (N - r))
                (fun r => same_colour_within_row b player r r 0)
                (fun r => r + 1)) with (fuel := S (Z.to_nat N))
                                       (x := start + 1)
      as [r Hr].
    + intros x. apply same_colour_within_row_total.
    + intros x Hx. apply same_colour_within_row_true in Hx. lia.
    + lia.
    + rewrite Hr. cbn [res_bind]. eauto.
Qed.

Lemma vertical_total start :
  0 <= start < N -> exists r, vertical b start player = Ok r.
Proof.
  intros Hs. unfold vertical, scan_fuel. fold N.
  pose proof (inv_width b I) as Hw.
  destruct (while_loop_terminates (fun lc : Z * Z => Z.to_nat (fst lc))
              (fun lc => Ok (cell b (fst lc - width b) =? player))
              (fun lc => (fst lc - width b, snd lc + 1)))
    with (fuel := S (Z.to_nat N)) (x := (start, 1))
    as [lc Hl].
  - intros x. eauto.
  - intros x [= Hx]. apply Z.eqb_eq, cell_player_in_range in Hx. simpl. lia.
  - simpl. lia.
  - rewrite Hl. cbn [res_bind].
    destruct (while_loop_terminates (fun rc : Z * Z => Z.to_nat (N - fst rc))
                (fun rc => Ok (cell b (fst rc) =? player))
                (fun rc => (fst rc + width b, snd rc + 1)))
      with (fuel := S (Z.to_nat N)) (x := (start + width b, snd lc))
      as [rc Hr].
    + intros x. eauto.
    + intros x [= Hx]. apply Z.eqb_eq, cell_player_in_range in Hx.
      simpl. lia.
    + simpl. lia.
    + rewrite Hr. cbn [res_bind]. eauto.
Qed.

Lemma main_diagonal_total start :
  0 <= start < N -> exists r, main_diagonal b start player = Ok r.
Proof.
  intros Hs. unfold main_diagonal, scan_fuel. fold N.
  pose proof (inv_width b I) as Hw.
  destruct (while_loop_terminates (fun lc : Z * Z => Z.to_nat (fst lc))
              (fun lc => same_colour_within_row b player
                           (fst lc - 1 - width b) (fst lc) 0)
              (fun lc => (fst lc - (width b + 1), snd lc + 1)))
    with (fuel := S (Z.to_nat N)) (x := (start, 1))
    as [lc Hl].
  - intros x. apply same_colour_within_row_total.
  - intros x Hx. apply same_colour_within_row_true in Hx. simpl. lia.
  - simpl. lia.
  - rewrite Hl. cbn [res_bind].
    destruct (while_loop_terminates (fun rc : Z * Z => Z.to_nat (N - fst rc))
                (fun rc => same_colour_within_row b player
                             (fst rc) (fst rc) 0)
                (fun rc => (fst rc + (width b + 1), snd rc + 1)))
      with (fuel := S (Z.to_nat N)) (x := (start + width b + 1, snd lc))
      as [rc Hr].
    + intros x. apply same_colour_within_row_total.
    + intros x Hx. apply same_colour_within_row_true in Hx. simpl. lia.
    + simpl. lia.
    + rewrite Hr. cbn [res_bind]. eauto.
Qed.

Lemma deputy_diagonal_total start :
  0 <= start < N -> exists r, deputy_diagonal b start player = Ok r.
Proof.
  intros Hs. unfold deputy_diagonal, scan_fuel. fold N.
  pose proof (inv_width b I) as Hw.
  assert (Hstep : forall x, x mod width b <> width b - 1 -> 1 < width b).
  { intros x Hx. destruct (decide (width b = 1)) as [E|E]; [|lia].
    rewrite E, Z.mod_1_r in Hx. lia. }
  destruct (while_loop_terminates (fun lc : Z * Z => Z.to_nat (fst lc))
              (fun lc => same_colour_within_row b player
                           (fst lc + 1 - width b) (fst lc) (width b - 1))
              (fun lc => (fst lc - (width b - 1), snd lc + 1)))
    with (fuel := S (Z.to_nat N)) (x := (start, 1))
    as [lc Hl].
  - intros x. apply same_colour_within_row_total.
  - intros x Hx. apply same_colour_within_row_true in Hx as [Hr Hm].
    apply Hstep in Hm. simpl. lia.
  - simpl. lia.
  - rewrite Hl. cbn [res_bind].
    destruct (while_loop_terminates (fun rc : Z * Z => Z.to_nat (N - fst rc))
                (fun rc => same_colour_within_row b player
                             (fst rc) (fst rc) (width b - 1))
                (fun rc => (fst rc + (width b - 1), snd rc + 1)))
      with (fuel := S (Z.to_nat N)) (x := (start + width b - 1, snd lc))
      as [rc Hr].
    + intros x. apply same_colour_within_row_total.
    + intros x Hx. apply same_colour_within_row_true in Hx as [Hr Hm].
      apply Hstep in Hm. simpl. lia.
    + simpl. lia.
    + rewrite Hr. cbn [res_bind]. eauto.
Qed.

Lemma lines_from_total start :
  0 <= start < N -> exists r, lines_from b start player = Ok r.
Proof.
  intros Hs. unfold lines_from.
  destruct (horizontal_total start Hs) as [h ->]. cbn [res_bind].
  destruct h; [eauto|].
  destruct (vertical_total start Hs) as [v ->]. cbn [res_bind].
  destruct v; [eauto|].
  destruct (main_diagonal_total start Hs) as [d ->]. cbn [res_bind].
  destruct d; [eauto|].
  apply deputy_diagonal_total, Hs.
Qed.

End ScanTermination.

(** ** The two win checks *)

Section WinChecks.

Import Board.

(** On a board that satisfies the invariant, a pass over moves of the
    history returns: no scan raises or runs out of budget. *)
Lemma scan_moves_total b start_of ms :
  Board_inv b ->
  (forall m, m ∈ ms -> m ∈ moved b) ->
  (forall m, m ∈ ms ->
     exists s, start_of m = Ok s /\ 0 <= s < width b * height b) ->
  exists r, scan_moves b start_of ms = Ok r.
Proof.
  intros I. induction ms as [|m ms IH]; intros Hin Hst; simpl; [eauto|].
  assert (Hm : m ∈ moved b) by (apply Hin; left).
  apply (inv_states_dom b I) in Hm as [p Hp]. rewrite Hp. cbn [res_bind].
  destruct (Hst m) as (s & -> & Hs); [left|]. cbn [res_bind].
  destruct (lines_from_total b I p (inv_states_players b I _ _ Hp) s Hs)
    as [won ->].
  cbn [res_bind]. destruct won; [eauto|].
  apply IH; intros m' Hm'; [apply Hin | apply Hst]; now right.
Qed.

(** [getWinner] returns on every board that satisfies the invariant. *)
Lemma getWinner_total b : Board_inv b -> exists r, getWinner b = Ok r.
Proof.
  intros I. unfold getWinner.
  destruct (Z.of_nat (length (moved b)) <? 2 * numberToWin b - 1); [eauto|].
  apply scan_moves_total; [exact I | |].
  - intros m Hm. exact (proj1 (elem_of_reverse _ _) Hm).
  - intros m Hm. exists m. split; [reflexivity|].
    apply (inv_moved_range b I). exact (proj1 (elem_of_reverse _ _) Hm).
Qed.

(** [fastGetWinner] returns on every board that satisfies the invariant. *)
Lemma fastGetWinner_total b :
  Board_inv b -> exists r, fastGetWinner b = Ok r.
Proof.
  intros I. unfold fastGetWinner.
  destruct (Z.of_nat (length (moved b)) <? 2 * numberToWin b - 1); [eauto|].
  assert (Hsub : forall m, m ∈ take 2 (reverse (moved b)) -> m ∈ moved b).
  { intros m Hm. apply elem_of_take in Hm as (i & Hi & _).
    apply list_elem_of_lookup_2 in Hi. exact (proj1 (elem_of_reverse _ _) Hi). }
  apply scan_moves_total; [exact I | exact Hsub |].
  intros m Hm. apply Hsub in Hm. unfold last_move_int.
  rewrite (inv_last b I).
  destruct (last (moved b)) as [lm|] eqn:E.
  - exists lm. split; [reflexivity|]. apply (inv_moved_range b I).
    apply last_Some in E as [l' ->]. apply elem_of_app. right. left.
  - apply last_None in E. rewrite E in Hm. now apply elem_of_nil in Hm.
Qed.

(** When the stones are too few, or when the scan around the last move
    finds its line, both checks stop at the same place. *)
Lemma fast_full_agree b :
  Board_inv b ->
  Z.of_nat (length (moved b)) < 2 * numberToWin b - 1 \/
  (exists lm p, last_move b = Some lm /\ states b !! lm = Some p /\
                lines_from b lm p = Ok true) ->
  fastGetWinner b = getWinner b.
Proof.
  intros I H. unfold fastGetWinner, getWinner.
  destruct (Z.of_nat (length (moved b)) <? 2 * numberToWin b - 1) eqn:E;
    [reflexivity|].
  destruct H as [H | (lm & p & Hl & Hp & Hw)]; [lia|].
  pose proof Hl as Hl'. rewrite (inv_last b I) in Hl'.
  apply last_Some in Hl' as [mv Hmv].
  rewrite Hmv, reverse_snoc. simpl.
  unfold last_move_int. rewrite Hp, Hl. cbn [res_bind].
  rewrite Hw. reflexivity.
Qed.

(** C2, at an input where the code departs from it.  After the game
    [game_win_then_one] (ten stones, so the guard of nine is passed) the
    candidates are the moves 100 and 4; the black stone 4 closes the row
    0..4, which the scan from the position 4 finds, and which the check
    worded by the specification and the full scan report.  The code starts
    both candidates' scans at the last move 100, and answers [None].  After
    [game_gap_filled] it answers Black although neither candidate lies on a
    line of five: the scan for the black candidate 200 starts at White's
    stone 2 and counts the black stones on both sides of it. *)
Theorem fastGetWinner_scans_from_last_move_only :
  play_all board15 game_win_then_one = (board_win_then_one, Ok true) /\
  take 2 (reverse (moved board_win_then_one)) = [100; 4] /\
  last_move board_win_then_one = Some 100 /\
  states board_win_then_one !! 4 = Some kPlayerBlack /\
  lines_from board_win_then_one 4 kPlayerBlack = Ok true /\
  fastGetWinner_spec board_win_then_one = Ok (Some kPlayerBlack) /\
  getWinner board_win_then_one = Ok (Some kPlayerBlack) /\
  fastGetWinner board_win_then_one = Ok None /\
  play_all board15 game_gap_filled = (board_gap_filled, Ok true) /\
  take 2 (reverse (moved board_gap_filled)) = [2; 200] /\
  lines_from board_gap_filled 2 kPlayerWhite = Ok false /\
  lines_from board_gap_filled 200 kPlayerBlack = Ok false /\
  fastGetWinner_spec board_gap_filled = Ok None /\
  fastGetWinner board_gap_filled = Ok (Some kPlayerBlack).
Proof.
  repeat split; vm_compute; reflexivity.
Qed.


End WinChecks.

(** * Properties of the search *)

(** ** The opening move *)

Section Opening.

Import Board.

(** With no stone on the board every cell is available. *)
Lemma empty_board_availables b :
  Board_inv b -> moved b = [] ->
  Z.of_nat (length (availables b)) = width b * height b.
Proof.
  intros I Hm.
  assert (Hperm : availables b ≡ₚ seqZ 0 (width b * height b)).
  { apply NoDup_Permutation; [apply I | apply NoDup_seqZ |].
    intros k. rewrite (inv_avail b I k), Hm, elem_of_seqZ, elem_of_nil. lia. }
  rewrite Hperm, length_seqZ.
  pose proof (inv_width b I). pose proof (inv_height b I). nia.
Qed.

Variable sqrt : Q -> Q.
Variable Rng : Type.

(** C9: on a board with no stone, [getMove] returns [(width * height) // 2]
    and leaves the whole world as it was: no board is copied, no node of the
    tree is touched and no random number is drawn. *)
Theorem getMove_empty_board_returns_center
    (e : MCTS.Engine Rng) (w : MCTS.World Rng) (state : nat) (b : t) :
  MCTS.boards Rng w !! state = Some b ->
  Board_inv b ->
  moved b = [] ->
  MCTS.getMove sqrt Rng e state w = (w, Ok (width b * height b / 2)).
Proof.
  intros Hb I Hm. unfold MCTS.getMove, st_bind, MCTS.board_at.
  rewrite Hb. unfold is_empty. rewrite Hm. unfold st_ret.
  now rewrite (empty_board_availables b I Hm).
Qed.

End Opening.

Lemma getMove_empty_board_returns_center_witness :
  MCTS.boards nat (toy_world board15) !! 7%nat = Some board15 /\
  Board.moved board15 = [] /\
  MCTS.getMove (fun q => q) nat toy_engine 7%nat (toy_world board15)
    = (toy_world board15, Ok 112).
Proof.
  split; [reflexivity|]. split; [reflexivity|].
  apply (getMove_empty_board_returns_center (fun q => q) nat toy_engine
           (toy_world board15) 7%nat board15).
  - reflexivity.
  - apply (Board_inv_initBoard 15 15 5 None); auto; lia.
  - reflexivity.
Defined.

(** ** The search never writes to the caller's board *)

Section Frame.

Variable sqrt : Q -> Q.
Variable Rng : Type.

#[local] Abbreviation World := (MCTS.World Rng).
#[local] Abbreviation boards := (MCTS.boards Rng).

Lemma keeps_ret {A : Type} l (a : A) : keeps_board l (@st_ret World A a).
Proof. intros w. reflexivity. Qed.

Lemma keeps_raise {A : Type} l e : keeps_board l (@st_raise World A e).
Proof. intros w. reflexivity. Qed.

Lemma keeps_lift {A : Type} l (r : Res A) :
  keeps_board l (@st_lift World A r).
Proof. intros w. reflexivity. Qed.

Lemma keeps_get l : keeps_board l (@st_get World).
Proof. intros w. reflexivity. Qed.

Lemma keeps_bind {A B : Type} l (c : St World A) (k : A -> St World B) :
  keeps_board l c -> (forall a, keeps_board l (k a)) ->
  keeps_board l (st_bind c k).
Proof.
  intros Hc Hk w. unfold st_bind. specialize (Hc w).
  destruct (c w) as [w1 [a|e|]]; simpl in *; try exact Hc.
  now rewrite (Hk a w1).
Qed.

Lemma keeps_on_tree {A : Type} l (c : St (gmap nat MCTS.Node) A) :
  keeps_board l (MCTS.on_tree Rng c).
Proof.
  intros w. unfold MCTS.on_tree. now destruct (c (MCTS.tree Rng w)).
Qed.

Lemma keeps_board_at l state : keeps_board l (MCTS.board_at Rng state).
Proof.
  intros w. unfold MCTS.board_at. now destruct (boards w !! state).
Qed.

(** A method call on the object [state] leaves every other object alone. *)
Lemma keeps_on_board {A : Type} l state
    (f : Board.t -> Board.t * Res A) :
  l <> state -> keeps_board l (MCTS.on_board Rng state f).
Proof.
  intros Hne w. unfold MCTS.on_board.
  destruct (boards w !! state) as [b|]; [|reflexivity].
  destruct (f b) as [b' r]. simpl. now rewrite lookup_insert_ne.
Qed.

Lemma keeps_call_rollout_policy l e state :
  keeps_board l (MCTS.call_rollout_policy Rng e state).
Proof.
  unfold MCTS.call_rollout_policy.
  apply keeps_bind; [apply keeps_board_at|].
  intros b w. simpl.
  now destruct (MCTS.rollout_policy Rng e (MCTS.rng Rng w) b).
Qed.

Create HintDb frame.

#[local] Hint Resolve keeps_ret keeps_raise keeps_lift keeps_get
  keeps_on_tree keeps_board_at keeps_on_board keeps_call_rollout_policy
  : frame.

Lemma keeps_rollout_loop l e state limit : forall winner_color,
  l <> state ->
  keeps_board l (MCTS.rollout_loop Rng e limit state winner_color).
Proof.
  induction limit as [|limit IH]; intros wc Hne; simpl.
  - apply keeps_ret.
  - apply keeps_bind; [apply keeps_board_at | intros b].
    apply keeps_bind; [apply keeps_lift | intros ended].
    destruct (fst ended); [apply keeps_ret|].
    apply keeps_bind; [apply keeps_call_rollout_policy | intros aps].
    destruct (py_max_by Qgtb aps) as [[a q]|]; [|apply keeps_raise].
    apply keeps_bind; [now apply keeps_on_board | intros _].
    now apply IH.
Qed.

Lemma keeps_evaluateRollout l e state limit :
  l <> state -> keeps_board l (MCTS.evaluateRollout Rng e state limit).
Proof.
  intros Hne. unfold MCTS.evaluateRollout.
  apply keeps_bind; [apply keeps_board_at | intros b].
  apply keeps_bind; [now apply keeps_rollout_loop | intros wc].
  destruct wc as [[win|]|]; auto with frame.
Qed.

Lemma keeps_descend l e state fuel : forall node,
  l <> state -> keeps_board l (MCTS.descend sqrt Rng e fuel node state).
Proof.
  induction fuel as [|fuel IH]; intros node Hne; simpl.
  - apply keeps_lift.
  - apply keeps_bind; [apply keeps_on_tree | intros nd].
    destruct (MCTS.is_leaf nd); [apply keeps_ret|].
    apply keeps_bind; [apply keeps_on_tree | intros item].
    apply keeps_bind; [now apply keeps_on_board | intros _].
    now apply IH.
Qed.

(** One playout on the object [state] leaves every other board alone. *)
Lemma keeps_playout l e state :
  l <> state -> keeps_board l (MCTS.playout sqrt Rng e state).
Proof.
  intros Hne. unfold MCTS.playout.
  apply keeps_bind; [apply keeps_get | intros w0].
  apply keeps_bind; [now apply keeps_descend | intros node].
  apply keeps_bind; [apply keeps_board_at | intros b].
  apply keeps_bind; [apply keeps_lift | intros ended].
  apply keeps_bind; [apply keeps_on_tree | intros nd].
  apply keeps_bind.
  - destruct (negb (fst ended) && (MCTS.vis_times nd >=? MCTS.expand_bound Rng e));
      auto with frame.
  - intros _. apply keeps_bind; [now apply keeps_evaluateRollout | intros v].
    apply keeps_on_tree.
Qed.

(** The copy is a new object: every board that exists keeps its contents. *)
Lemma deepcopy_fresh state w l :
  is_Some (boards w !! l) ->
  boards (fst (MCTS.deepcopy Rng state w)) !! l = boards w !! l /\
  forall c, snd (MCTS.deepcopy Rng state w) = Ok c -> l <> c.
Proof.
  intros Hl. unfold MCTS.deepcopy, st_bind, MCTS.board_at.
  destruct (boards w !! state) as [b|]; simpl; [|split; [reflexivity|]].
  - assert (Hne : l <> fresh (dom (boards w))).
    { intros E. apply (is_fresh (dom (boards w))). rewrite <- E.
      now apply elem_of_dom. }
    split; [now rewrite lookup_insert_ne | now intros c [= <-]].
  - intros c H. discriminate.
Qed.

(** Any number of playouts, each on its own copy. *)
Lemma playouts_keep_boards e state n : forall w l,
  is_Some (boards w !! l) ->
  boards (fst (MCTS.playouts sqrt Rng e n state w)) !! l = boards w !! l.
Proof.
  induction n as [|n IH]; intros w l Hl; simpl; [reflexivity|].
  unfold st_bind at 1.
  destruct (deepcopy_fresh state w l Hl) as [Hk Hfresh].
  destruct (MCTS.deepcopy Rng state w) as [w1 [c|e1|]]; simpl in *;
    try exact Hk.
  unfold st_bind at 1.
  pose proof (keeps_playout l e c (Hfresh c eq_refl) w1) as Hp.
  destruct (MCTS.playout sqrt Rng e c w1) as [w2 [[]|e2|]]; simpl in *;
    try (now rewrite Hp).
  rewrite IH; [now rewrite Hp, Hk|].
  rewrite Hp, Hk. exact Hl.
Qed.

(** C8: whatever [getMove] does on a board with stones on it (return a
    move, raise, or exhaust the budget of the model), the caller's board
    object holds the same cells, available moves, history, player to move
    and last move afterwards as before, and so does every other board
    object that existed: the playouts write to their copies only. *)
Theorem getMove_leaves_board_unchanged
    (e : MCTS.Engine Rng) (w : World) (state : nat) (b : Board.t) :
  boards w !! state = Some b ->
  Board.is_empty b = false ->
  boards (fst (MCTS.getMove sqrt Rng e state w)) !! state = Some b /\
  forall l b', boards w !! l = Some b' ->
               boards (fst (MCTS.getMove sqrt Rng e state w)) !! l = Some b'.
Proof.
  intros Hb Hne.
  assert (H : forall l b', boards w !! l = Some b' ->
            boards (fst (MCTS.getMove sqrt Rng e state w)) !! l = Some b').
  { intros l b' Hl. unfold MCTS.getMove.
    unfold st_bind at 1. unfold MCTS.board_at at 1. rewrite Hb, Hne.
    unfold st_bind at 1.
    pose proof (playouts_keep_boards e state
                  (Z.to_nat (MCTS.compute_budget Rng e)) w l) as Hp.
    rewrite Hl in Hp. specialize (Hp (ltac:(eauto))).
    destruct (MCTS.playouts sqrt Rng e _ state w) as [w1 [[]|e1|]];
      simpl in *; try exact Hp.
    rewrite <- Hp.
    match goal with
    | |- boards (fst (?c w1)) !! l = _ =>
        assert (Hk : keeps_board l c); [|apply Hk]
    end.
    apply keeps_bind; [apply keeps_on_tree | intros r].
    apply keeps_bind; [apply keeps_on_tree | intros items].
    destruct (py_max_by Z.gtb items) as [[a v]|]; auto with frame. }
  split; [now apply H | exact H].
Qed.

End Frame.

Lemma getMove_leaves_board_unchanged_witness :
  MCTS.boards nat (toy_world board_win_then_one) !! 7%nat
    = Some board_win_then_one /\
  Board.is_empty board_win_then_one = false /\
  MCTS.boards nat
    (fst (MCTS.getMove (fun q => q) nat toy_engine 7%nat
            (toy_world board_win_then_one))) !! 7%nat
    = Some board_win_then_one.
Proof.
  split; [reflexivity|]. split; [reflexivity|].
  apply (getMove_leaves_board_unchanged (fun q => q) nat toy_engine
           (toy_world board_win_then_one) 7%nat board_win_then_one);
    reflexivity.
Defined.

(** ** Backpropagation *)

Section Backpropagation.

Import MCTS.

(** [update] on a node whose new visit count is not zero: the node becomes
    its incremental mean and every other node stays. *)
Lemma update_spec (h : gmap nat Node) self nd v :
  h !! self = Some nd -> vis_times nd + 1 <> 0 ->
  update self v h = (<[self := incremental_mean nd v]> h, Ok tt).
Proof.
  intros Hn Hv. unfold update, st_bind, node_at, set_node. rewrite Hn.
  simpl. apply Z.eqb_neq in Hv. rewrite Hv. simpl.
  now rewrite insert_insert_eq.
Qed.

Lemma path_to_root_head_in h n rest :
  path_to_root h (n :: rest) -> is_Some (h !! n).
Proof. inversion 1; eauto. Qed.

Lemma path_to_root_in h path n :
  path_to_root h path -> n ∈ path -> is_Some (h !! n).
Proof.
  induction 1 as [m nd Hm Hp | m nd p rest Hm Hp _ IH]; intros Hin.
  - apply list_elem_of_singleton in Hin as ->. eauto.
  - apply elem_of_cons in Hin as [->|Hin]; eauto.
Qed.

(** The path of a node is determined by the node. *)
Lemma path_to_root_det h n l1 :
  path_to_root h (n :: l1) -> forall l2, path_to_root h (n :: l2) -> l1 = l2.
Proof.
  remember (n :: l1) as l eqn:El. intros H. revert n l1 El.
  induction H as [m nd Hm Hp | m nd p rest Hm Hp Hrest IH];
    intros n l1 [= -> <-] l2 H2.
  - inversion H2; subst; [reflexivity | congruence].
  - inversion H2 as [|m' nd' p' rest' Hm' Hp' Hrest']; subst; [congruence|].
    assert (p' = p) by congruence. subst p'.
    f_equal. exact (IH p rest eq_refl rest' Hrest').
Qed.

Lemma path_to_root_tail h x l :
  path_to_root h (x :: l) -> l <> [] -> path_to_root h l.
Proof. inversion 1; subst; [congruence | auto]. Qed.

Lemma path_to_root_suffix h l1 n l2 :
  path_to_root h (l1 ++ n :: l2) -> path_to_root h (n :: l2).
Proof.
  induction l1 as [|x l1 IH]; simpl; [auto|].
  intros H. apply IH. apply (path_to_root_tail h x); [exact H|].
  destruct l1; discriminate.
Qed.

(** No node lies twice on its path to the root. *)
Lemma path_to_root_NoDup h path : path_to_root h path -> NoDup path.
Proof.
  induction 1 as [m nd Hm Hp | m nd p rest Hm Hp Hrest IH].
  - apply NoDup_singleton.
  - apply NoDup_cons. split; [|exact IH].
    intros Hin. apply list_elem_of_split in Hin as (l1 & l2 & E).
    assert (H1 : path_to_root h (m :: l2)).
    { apply (path_to_root_suffix h l1). rewrite <- E. exact Hrest. }
    assert (H2 : path_to_root h (m :: p :: rest)).
    { eapply path_step; eauto. }
    pose proof (path_to_root_det h m l2 H1 (p :: rest) H2) as E2.
    apply (f_equal length) in E. rewrite E2 in E.
    rewrite length_app in E. simpl in E. lia.
Qed.

(** A node that is not on the path may change without breaking it, as long
    as the nodes on the path keep their parents. *)
Lemma path_to_root_insert h path n nd nd' :
  path_to_root h path -> h !! n = Some nd -> parent nd' = parent nd ->
  path_to_root (<[n := nd']> h) path.
Proof.
  intros H Hn Hp.
  induction H as [m md Hm Hpm | m md p rest Hm Hpm Hrest IH].
  - destruct (decide (n = m)) as [->|Hne].
    + apply (path_root _ m nd'); [apply lookup_insert_eq | congruence].
    + apply (path_root _ m md); [now rewrite lookup_insert_ne | exact Hpm].
  - destruct (decide (n = m)) as [->|Hne].
    + apply (path_step _ m nd' p); [apply lookup_insert_eq | congruence | exact IH].
    + apply (path_step _ m md p);
        [now rewrite lookup_insert_ne | exact Hpm | exact IH].
Qed.

(** More budget than the path is long is enough: each node on the path
    from [n] to the root becomes its incremental mean at the value negated
    once per level, and the other nodes stay. *)
Lemma backPropagation_fuel_path path : forall h fuel v n rest,
  path = n :: rest ->
  path_to_root h path ->
  (forall m md, m ∈ path -> h !! m = Some md -> vis_times md + 1 <> 0) ->
  (length path <= fuel)%nat ->
  exists h',
    backPropagation_fuel fuel n v h = (h', Ok tt) /\
    (forall i m md, path !! i = Some m -> h !! m = Some md ->
       h' !! m = Some (incremental_mean md (flipped i v))) /\
    (forall m, m ∉ path -> h' !! m = h !! m).
Proof.
  induction path as [|x path IH]; intros h fuel v n rest E Hpath Hvis Hfuel;
    [discriminate|].
  injection E as -> ->.
  pose proof (path_to_root_NoDup h _ Hpath) as Hnd.
  apply NoDup_cons in Hnd as [Hnin Hnd].
  destruct fuel as [|fuel]; [simpl in Hfuel; lia|].
  inversion Hpath as [m nd Hm Hp | m nd p rest' Hm Hp Hrest]; subst.
  - (* the root *)
    exists (<[n := incremental_mean nd v]> h). simpl. unfold st_bind.
    rewrite (update_spec h n nd v Hm) by (eapply Hvis; [left | exact Hm]).
    unfold node_at. rewrite lookup_insert_eq. simpl. rewrite Hp.
    split; [reflexivity|]. split.
    + intros [|i] m md Hi Hmd; simpl in Hi; [|discriminate].
      injection Hi as <-. rewrite lookup_insert_eq.
      rewrite Hm in Hmd. injection Hmd as <-. reflexivity.
    + intros m Hm'. apply not_elem_of_cons in Hm' as [Hne _].
      now rewrite lookup_insert_ne.
  - (* a node with a parent *)
    set (h1 := <[n := incremental_mean nd v]> h).
    assert (Hpath1 : path_to_root h1 (p :: rest')).
    { apply (path_to_root_insert h _ n nd); [exact Hrest | exact Hm |].
      reflexivity. }
    destruct (IH h1 fuel (- v)%Q p rest' eq_refl Hpath1) as (h' & Hrun & Hon & Hoff).
    + intros m md Hin Hmd. apply (Hvis m md); [now right|].
      unfold h1 in Hmd. rewrite lookup_insert_ne in Hmd; [exact Hmd|].
      intros ->. contradiction.
    + simpl in Hfuel. simpl. lia.
    + exists h'. simpl. unfold st_bind.
      rewrite (update_spec h n nd v Hm) by (eapply Hvis; [left | exact Hm]).
      unfold node_at. fold h1. unfold h1 at 1. rewrite lookup_insert_eq.
      simpl. rewrite Hp. fold h1.
      split; [exact Hrun|]. split.
      * intros [|i] m md Hi Hmd; simpl in Hi.
        -- injection Hi as <-. rewrite (Hoff n Hnin). unfold h1.
           rewrite lookup_insert_eq.
           rewrite Hm in Hmd. injection Hmd as <-. reflexivity.
        -- apply (Hon i m md Hi). unfold h1.
           rewrite lookup_insert_ne; [exact Hmd|].
           intros ->. apply Hnin. eapply list_elem_of_lookup_2; eauto.
      * intros m Hm'. apply not_elem_of_cons in Hm' as [Hne Hm'].
        rewrite (Hoff m Hm'). unfold h1. now rewrite lookup_insert_ne.
Qed.

(** A path without repetition through the store is no longer than the
    store has nodes. *)
Lemma path_length_le_size (h : gmap nat Node) path :
  path_to_root h path -> (length path <= size h)%nat.
Proof.
  intros Hpath.
  pose proof (path_to_root_NoDup h path Hpath) as Hnd.
  rewrite <- size_dom, <- (size_list_to_set (C := gset nat) path Hnd).
  apply subseteq_size. intros x Hx. apply elem_of_list_to_set in Hx.
  apply elem_of_dom. eapply path_to_root_in; eauto.
Qed.

(** C6: [backPropagation(value)] on a node returns, and on the way up to
    the root it gives every node of the path one more visit and moves its
    [Q] by [(x - Q) / visitCount], where [x] is the value for the node
    itself, its negation for the parent, and so on with one more negation
    per level; no other node is touched. *)
Theorem backPropagation_flips_sign_up_to_root
    (h : gmap nat Node) (n : nat) (rest : list nat) (v : Q) :
  path_to_root h (n :: rest) ->
  (forall m md, m ∈ n :: rest -> h !! m = Some md -> 0 <= vis_times md) ->
  exists h',
    backPropagation n v h = (h', Ok tt) /\
    (forall i m md, (n :: rest) !! i = Some m -> h !! m = Some md ->
       h' !! m = Some (incremental_mean md (flipped i v)) /\
       vis_times (incremental_mean md (flipped i v)) = vis_times md + 1 /\
       Q_value (incremental_mean md (flipped i v)) =
         (Q_value md + (flipped i v - Q_value md)
                       / inject_Z (vis_times md + 1))%Q) /\
    (forall i, flipped (S i) v = flipped i (- v)%Q) /\
    (forall m, m ∉ n :: rest -> h' !! m = h !! m).
Proof.
  intros Hpath Hvis.
  destruct (backPropagation_fuel_path (n :: rest) h (S (size h)) v n rest
              eq_refl Hpath) as (h' & Hrun & Hon & Hoff).
  - intros m md Hin Hmd. specialize (Hvis m md Hin Hmd). lia.
  - pose proof (path_length_le_size h _ Hpath). lia.
  - exists h'. split; [exact Hrun|]. split; [|split; [reflexivity | exact Hoff]].
    intros i m md Hi Hmd. split; [exact (Hon i m md Hi Hmd)|].
    split; reflexivity.
Qed.

End Backpropagation.

Lemma backPropagation_flips_sign_up_to_root_witness :
  exists h',
    MCTS.backPropagation 2%nat 1 toy_tree = (h', Ok tt) /\
    (forall i m md, [2%nat; 1%nat; 0%nat] !! i = Some m ->
       toy_tree !! m = Some md ->
       h' !! m = Some (MCTS.incremental_mean md (MCTS.flipped i 1)) /\
       MCTS.vis_times (MCTS.incremental_mean md (MCTS.flipped i 1))
         = MCTS.vis_times md + 1 /\
       MCTS.Q_value (MCTS.incremental_mean md (MCTS.flipped i 1)) =
         (MCTS.Q_value md + (MCTS.flipped i 1 - MCTS.Q_value md)
                            / inject_Z (MCTS.vis_times md + 1))%Q) /\
    (forall i, MCTS.flipped (S i) 1 = MCTS.flipped i (- 1)%Q) /\
    (forall m, m ∉ [2%nat; 1%nat; 0%nat] -> h' !! m = toy_tree !! m).
Proof.
  apply (backPropagation_flips_sign_up_to_root toy_tree 2%nat
           [1%nat; 0%nat] 1).
  - eapply MCTS.path_step; [reflexivity | reflexivity |].
    eapply MCTS.path_step; [reflexivity | reflexivity |].
    eapply MCTS.path_root; reflexivity.
  - intros m md Hin Hmd.
    apply elem_of_cons in Hin as [->|Hin];
      [vm_compute in Hmd; injection Hmd as <-; simpl; lia|].
    apply elem_of_cons in Hin as [->|Hin];
      [vm_compute in Hmd; injection Hmd as <-; simpl; lia|].
    apply list_elem_of_singleton in Hin as ->.
    vm_compute in Hmd; injection Hmd as <-; simpl; lia.
Defined.

(** ** The running mean stays between -1 and 1 *)

Section ValueBound.

Import MCTS.

Local Open Scope Q_scope.

(** One step of the incremental mean keeps the bound. *)
Lemma incremental_mean_bounded nd v :
  (0 <= vis_times nd)%Z ->
  -1 <= Q_value nd <= 1 -> -1 <= v <= 1 ->
  -1 <= Q_value (incremental_mean nd v) <= 1.
Proof.
  intros Hvis [Hq1 Hq2] [Hv1 Hv2]. simpl.
  set (q := Q_value nd) in *.
  set (n := inject_Z (vis_times nd + 1)).
  assert (Hn : 1 <= n).
  { unfold n. change (inject_Z 1 <= inject_Z (vis_times nd + 1)).
    rewrite <- Zle_Qle. lia. }
  assert (Hd : n * ((v - q) / n) == v - q).
  { apply Qmult_div_r. intros E. rewrite E in Hn. lra. }
  set (d := (v - q) / n) in *.
  split; nra.
Qed.

(** Any number of updates of a node whose count is not negative and whose
    value lies within the bound. *)
Lemma updates_bounded values : forall (h : gmap nat Node) self nd,
  h !! self = Some nd ->
  (0 <= vis_times nd)%Z ->
  -1 <= Q_value nd <= 1 ->
  Forall (fun v => -1 <= v <= 1) values ->
  exists h' nd',
    updates self values h = (h', Ok tt) /\
    h' !! self = Some nd' /\
    vis_times nd' = (vis_times nd + Z.of_nat (length values))%Z /\
    -1 <= Q_value nd' <= 1 /\
    (forall m, m <> self -> h' !! m = h !! m).
Proof.
  induction values as [|v values IH]; intros h self nd Hn Hvis Hq Hall.
  - exists h, nd. simpl. repeat split; try tauto; try lia.
  - apply Forall_cons in Hall as [Hv Hall].
    destruct (IH (<[self := incremental_mean nd v]> h) self
                 (incremental_mean nd v)) as (h' & nd' & Hrun & Hl & Hc & Hb & Ho).
    + apply lookup_insert_eq.
    + simpl. lia.
    + now apply incremental_mean_bounded.
    + exact Hall.
    + exists h', nd'. simpl updates. unfold st_bind.
      rewrite (update_spec h self nd v Hn) by lia.
      split; [exact Hrun|]. split; [exact Hl|]. split.
      * rewrite Hc. simpl. lia.
      * split; [exact Hb|]. intros m Hm. rewrite (Ho m Hm).
        now rewrite lookup_insert_ne.
Qed.

(** C7: a node created with [Q = 0] and no visit, updated any number of
    times with values between -1 and 1 (as -1, 0 and 1 are), ends with its
    [Q] between -1 and 1; every update returns, and the visit count is the
    number of updates.  The values are exact rationals here. *)
Theorem Q_value_stays_within_bounds
    (h : gmap nat Node) (self : nat) (parent : option nat) (prior : Q)
    (values : list Q) :
  h !! self = Some (new_node parent prior) ->
  Forall (fun v => -1 <= v <= 1) values ->
  exists h' nd',
    updates self values h = (h', Ok tt) /\
    h' !! self = Some nd' /\
    vis_times nd' = Z.of_nat (length values) /\
    -1 <= Q_value nd' <= 1.
Proof.
  intros Hn Hall.
  destruct (updates_bounded values h self (new_node parent prior) Hn)
    as (h' & nd' & Hrun & Hl & Hc & Hb & _).
  - simpl. lia.
  - simpl. split; lra.
  - exact Hall.
  - exists h', nd'. repeat split; try assumption; try apply Hb.
Qed.

End ValueBound.

Lemma Q_value_stays_within_bounds_witness :
  exists h' nd',
    MCTS.updates 5%nat [1; -1; 1; 0; 1]%Q {[5%nat := MCTS.new_node None 1]}
      = (h', Ok tt) /\
    h' !! 5%nat = Some nd' /\
    MCTS.vis_times nd' = 5 /\
    (-1 <= MCTS.Q_value nd' <= 1)%Q.
Proof.
  apply (Q_value_stays_within_bounds {[5%nat := MCTS.new_node None 1]}
           5%nat None 1 [1; -1; 1; 0; 1]%Q).
  - reflexivity.
  - repeat constructor; simpl; lra.
Defined.

(** * Further properties of the board *)

Section BoardMore.

Import Board.

Lemma range_check_false m n :
  0 <= m < n -> (m <? 0) || (m >=? n) = false.
Proof.
  intros H. apply orb_false_iff. split; [apply Z.ltb_ge; lia|].
  rewrite Z.geb_leb. apply Z.leb_gt. lia.
Qed.

(** X1: on a board of positive width every move index of the board has a
    location, the row and the column of that location lie on the board,
    and [locationToMove] maps the location back to the index. *)
Theorem move_location_round_trip (b : t) (m : Z) :
  0 < width b ->
  0 <= m < width b * height b ->
  exists h w,
    moveToLocation b (PyInt m) = Ok (Some (h, w)) /\
    0 <= h < height b /\ 0 <= w < width b /\
    locationToMove b (PyList [PyInt h; PyInt w]) = Ok (Some m).
Proof.
  intros Hw Hm. exists (m / width b), (m mod width b).
  assert (Hmod : 0 <= m mod width b < width b) by (apply Z.mod_pos_bound; lia).
  assert (Hdm : m = width b * (m / width b) + m mod width b)
    by (apply Z.div_mod; lia).
  assert (Hdiv : 0 <= m / width b < height b).
  { split; [apply Z.div_pos; lia|]. apply Z.div_lt_upper_bound; lia. }
  split.
  - unfold moveToLocation, py_mod. simpl.
    rewrite (range_check_false m) by lia.
    replace (width b =? 0) with false by (symmetry; apply Z.eqb_neq; lia).
    reflexivity.
  - split; [exact Hdiv|]. split; [exact Hmod|].
    rewrite locationToMove_pair.
    replace (m / width b * width b + m mod width b) with m by lia.
    rewrite (range_check_false m) by lia.
    reflexivity.
Qed.

Lemma move_location_round_trip_witness :
  exists h w,
    moveToLocation board15 (PyInt 17) = Ok (Some (h, w)) /\
    0 <= h < height board15 /\ 0 <= w < width board15 /\
    locationToMove board15 (PyList [PyInt h; PyInt w]) = Ok (Some 17).
Proof.
  apply (move_location_round_trip board15 17); simpl; lia.
Defined.

(** X2: a location whose row and column lie on the board has the move
    index [row * width + col], and [moveToLocation] maps that index back to
    the same row and column; so distinct cells have distinct indices. *)
Theorem location_move_round_trip (b : t) (h w : Z) :
  0 <= h < height b -> 0 <= w < width b ->
  locationToMove b (PyList [PyInt h; PyInt w]) = Ok (Some (h * width b + w))
  /\ moveToLocation b (PyInt (h * width b + w)) = Ok (Some (h, w)).
Proof.
  intros Hh Hw.
  assert (Hr : 0 <= h * width b + w < width b * height b) by nia.
  split.
  - rewrite locationToMove_pair.
    rewrite (range_check_false (h * width b + w)) by lia.
    reflexivity.
  - unfold moveToLocation, py_mod. simpl.
    rewrite (range_check_false (h * width b + w)) by lia.
    replace (width b =? 0) with false by (symmetry; apply Z.eqb_neq; lia).
    simpl. do 3 f_equal.
    + rewrite Z.div_add_l by lia. rewrite Z.div_small by lia. lia.
    + rewrite Z.add_comm, Z.mod_add by lia. apply Z.mod_small. lia.
Qed.

Lemma location_move_round_trip_witness :
  locationToMove board15 (PyList [PyInt 7; PyInt 14]) = Ok (Some (7 * 15 + 14))
  /\ moveToLocation board15 (PyInt (7 * 15 + 14)) = Ok (Some (7, 14)).
Proof.
  apply (location_move_round_trip board15 7 14); simpl; lia.
Defined.

(** The stones counted: history and available moves together are the
    cells of the board. *)
Lemma Board_inv_counts b :
  Board_inv b ->
  Z.of_nat (length (moved b)) + Z.of_nat (length (availables b))
    = width b * height b /\
  size (states b) = length (moved b).
Proof.
  intros I. split.
  - assert (Hperm : moved b ++ availables b ≡ₚ seqZ 0 (width b * height b)).
    { apply NoDup_Permutation; [|apply NoDup_seqZ|].
      - apply NoDup_app. split; [apply I|]. split; [|apply I].
        intros x Hx Hx'. apply (inv_avail b I) in Hx'. tauto.
      - intros k. rewrite elem_of_app, (inv_avail b I k), elem_of_seqZ.
        pose proof (inv_moved_range b I k).
        destruct (decide (k ∈ moved b)); [|tauto].
        split; [intros _; specialize (H e); lia | tauto]. }
    apply Permutation_length in Hperm.
    rewrite length_app, length_seqZ in Hperm.
    pose proof (inv_width b I). pose proof (inv_height b I). nia.
  - rewrite <- size_dom.
    rewrite <- (size_list_to_set (C := gset Z) (moved b)) by apply I.
    f_equal. apply set_eq. intros k.
    rewrite elem_of_dom, elem_of_list_to_set. apply I.
Qed.

(** X3: every board built by [initBoard] (positive dimensions, a proper
    starting colour) and successful [play] and [undo] calls satisfies the
    data-model invariant: the history and the available moves together
    count the cells of the board, [states] has one entry per move of the
    history, the available moves are the cells of the board without a
    stone, and the last move is the end of the history. *)
Theorem reachable_board_is_consistent (b : t) :
  reachable b ->
  Z.of_nat (length (moved b)) + Z.of_nat (length (availables b))
    = width b * height b /\
  size (states b) = length (moved b) /\
  (forall k, k ∈ availables b <->
             0 <= k < width b * height b /\ states b !! k = None) /\
  last_move b = last (moved b).
Proof.
  intros Hr. pose proof (reachable_inv b Hr) as I.
  destruct (Board_inv_counts b I) as [H1 H2].
  split; [exact H1|]. split; [exact H2|]. split; [|apply I].
  intros k. rewrite (inv_avail b I k).
  rewrite <- (inv_states_dom b I k), <- eq_None_not_Some. reflexivity.
Qed.

Lemma reachable_board_is_consistent_witness :
  Z.of_nat (length (moved board_win)) + Z.of_nat (length (availables board_win))
    = width board_win * height board_win /\
  size (states board_win) = length (moved board_win) /\
  (forall k, k ∈ availables board_win <->
             0 <= k < width board_win * height board_win /\
             states board_win !! k = None) /\
  last_move board_win = last (moved board_win).
Proof.
  apply (reachable_board_is_consistent board_win).
  assert (H : forall ms b0 b1, reachable b0 ->
            play_all b0 ms = (b1, Ok true) -> reachable b1).
  { induction ms as [|m ms IH]; intros b0 b1 H0 Hp; simpl in Hp.
    - now inversion Hp; subst.
    - destruct (play b0 m) as [b' r] eqn:E.
      destruct r as [[|]| |]; try discriminate.
      apply (IH b' b1); [|exact Hp]. eapply reach_play; eauto. }
  apply (H game_win board15).
  - apply (reach_init 15 15 5 None); [lia | lia | auto | reflexivity].
  - vm_compute. reflexivity.
Defined.

(** X4: on a board that satisfies the invariant, [isValidMove] accepts an
    integer exactly when it is one of the available moves, and exactly then
    [play] returns [True]. *)
Theorem isValidMove_iff_play_succeeds (b : t) (m : Z) :
  Board_inv b ->
  (isValidMove b (PyInt m) = Ok true <-> m ∈ availables b) /\
  (isValidMove b (PyInt m) = Ok true <-> snd (play b m) = Ok true).
Proof.
  intros I.
  assert (Hv : isValidMove b (PyInt m) = Ok true <-> m ∈ availables b).
  { rewrite (inv_avail b I m). unfold isValidMove. simpl.
    destruct ((m <? 0) || (m >=? width b * height b)) eqn:E.
    - split; [discriminate|]. intros [Hr _].
      rewrite (range_check_false m) in E by lia. discriminate.
    - apply orb_false_iff in E as [E1 E2].
      apply Z.ltb_ge in E1. rewrite Z.geb_leb in E2. apply Z.leb_gt in E2.
      case_bool_decide as Hin.
      + split; [discriminate | tauto].
      + split; [intros _; split; [lia | exact Hin] | reflexivity]. }
  split; [exact Hv|]. rewrite Hv. unfold play.
  case_bool_decide as Hin.
  - simpl. split; [|discriminate].
    intros Hav. apply (inv_avail b I) in Hav. tauto.
  - simpl. destruct (list_remove m (availables b)) as [av|] eqn:E; simpl.
    + split; [reflexivity|]. intros _.
      apply list_remove_Some in E. rewrite E. left.
    + split; [|discriminate]. intros Hav.
      apply list_remove_None in E. contradiction.
Qed.

Lemma isValidMove_iff_play_succeeds_witness :
  (isValidMove board_win (PyInt 5) = Ok true <-> 5 ∈ availables board_win) /\
  (isValidMove board_win (PyInt 5) = Ok true <->
   snd (play board_win 5) = Ok true).
Proof.
  apply (isValidMove_iff_play_succeeds board_win 5).
  assert (H : forall ms b0 b1, Board_inv b0 ->
            play_all b0 ms = (b1, Ok true) -> Board_inv b1).
  { induction ms as [|m ms IH]; intros b0 b1 H0 Hp; simpl in Hp.
    - now inversion Hp; subst.
    - destruct (play b0 m) as [b' r] eqn:E.
      destruct r as [[|]| |]; try discriminate.
      apply (IH b' b1); [|exact Hp]. eapply Board_inv_play; eauto. }
  apply (H game_win board15).
  - apply (Board_inv_initBoard 15 15 5 None); auto; lia.
  - vm_compute. reflexivity.
Defined.

(** X5: a successful [play] puts the stone of the player to move on the
    cell, makes it the last move and the end of the history, and hands the
    turn to the opponent: the player to move is never the same before and
    after. *)
Theorem play_places_stone_and_passes_turn (b b' : t) (m : Z) :
  play b m = (b', Ok true) ->
  states b' !! m = Some (current_player b) /\
  last_move b' = Some m /\
  moved b' = moved b ++ [m] /\
  current_player b' = opponent (current_player b) /\
  current_player b' <> current_player b /\
  (forall k, k <> m -> states b' !! k = states b !! k).
Proof.
  intros H. apply play_true_inv in H as (_ & av & _ & ->). simpl.
  split; [apply lookup_insert_eq|]. split; [reflexivity|].
  split; [reflexivity|]. split; [reflexivity|]. split; [lia|].
  intros k Hk. now rewrite lookup_insert_ne.
Qed.

Lemma play_places_stone_and_passes_turn_witness :
  states (fst (play board15 112)) !! 112 = Some (current_player board15) /\
  last_move (fst (play board15 112)) = Some 112 /\
  moved (fst (play board15 112)) = moved board15 ++ [112] /\
  current_player (fst (play board15 112))
    = opponent (current_player board15) /\
  current_player (fst (play board15 112)) <> current_player board15 /\
  (forall k, k <> 112 ->
     states (fst (play board15 112)) !! k = states board15 !! k).
Proof.
  apply (play_places_stone_and_passes_turn board15
           (fst (play board15 112)) 112).
  vm_compute. reflexivity.
Defined.

(** X6: on a board that satisfies the invariant [undo] never raises: with
    an empty history it returns [False] and changes nothing; otherwise it
    returns [True], removes the last move from the history and from
    [states], makes it available again, hands the turn back, and the board
    it leaves satisfies the invariant. *)
Theorem undo_total_on_consistent_board (b : t) :
  Board_inv b ->
  (moved b = [] /\ undo b = (b, Ok false)) \/
  (exists lm b',
     last (moved b) = Some lm /\
     undo b = (b', Ok true) /\
     moved b' = removelast (moved b) /\
     states b' = delete lm (states b) /\
     lm ∈ availables b' /\
     current_player b' = opponent (current_player b) /\
     Board_inv b').
Proof.
  intros I. destruct (moved b) as [|x mv] eqn:Hm.
  - left. split; [reflexivity|]. unfold undo. now rewrite Hm.
  - right. destruct (last (x :: mv)) as [lm|] eqn:Hl.
    2:{ apply last_None in Hl. discriminate. }
    assert (H1 : moved b <> []) by (rewrite Hm; discriminate).
    assert (H2 : last_move b = Some lm)
      by (rewrite (inv_last b I), Hm; exact Hl).
    assert (H3 : is_Some (states b !! lm)).
    { apply (inv_states_dom b I). rewrite Hm. now apply last_Some_elem_of. }
    pose proof (undo_true_intro b lm H1 H2 H3) as Hu.
    exists lm. eexists. split; [reflexivity|]. rewrite <- Hm.
    split; [exact Hu|]. simpl.
    split; [reflexivity|]. split; [reflexivity|].
    split; [apply elem_of_app; right; left|].
    split; [reflexivity|].
    exact (Board_inv_undo b _ I Hu).
Qed.

(** X7: on a board that satisfies the invariant the win checks and
    [gameEnd] return: no scan raises or outruns its step budget.  [gameEnd]
    reports the winner of [fastGetWinner] if there is one, a finished game
    without winner exactly when no move is available and, in that case,
    every cell of the board holds a stone. *)
Theorem win_checks_return (b : t) :
  Board_inv b ->
  exists full fast,
    getWinner b = Ok full /\
    fastGetWinner b = Ok fast /\
    gameEnd b =
      Ok (match fast with
          | Some _ => true
          | None => bool_decide (availables b = [])
          end, fast) /\
    (gameEnd b = Ok (true, None) ->
     Z.of_nat (length (moved b)) = width b * height b).
Proof.
  intros I.
  destruct (getWinner_total b I) as [full Hfull].
  destruct (fastGetWinner_total b I) as [fast Hfast].
  exists full, fast. split; [exact Hfull|]. split; [exact Hfast|].
  assert (Hg : gameEnd b =
            Ok (match fast with
                | Some _ => true
                | None => bool_decide (availables b = [])
                end, fast)).
  { unfold gameEnd. rewrite Hfast. cbn [res_bind].
    destruct fast as [p|]; [reflexivity|].
    destruct (availables b); [reflexivity|].
    now rewrite bool_decide_eq_false_2. }
  split; [exact Hg|]. rewrite Hg. intros [= Hb ->].
  apply bool_decide_eq_true_1 in Hb.
  destruct (Board_inv_counts b I) as [Hc _]. rewrite Hb in Hc.
  simpl in Hc. lia.
Qed.

End BoardMore.

(** * The win check finds the lines of stones *)

Section LoopShape.

(** A loop that returns has run its body some [n] times, with a true guard
    before each run and a false guard at the end. *)
Lemma while_loop_iter {A : Type} (cond : A -> Res bool) (body : A -> A) :
  forall fuel x y,
  while_loop fuel cond body x = Ok y ->
  exists n : nat,
    y = Nat.iter n body x /\
    (forall i, (i < n)%nat -> cond (Nat.iter i body x) = Ok true) /\
    cond y = Ok false.
Proof.
  induction fuel as [|fuel IH]; intros x y H; simpl in H; [discriminate|].
  destruct (cond x) as [[|]| |] eqn:E; simpl in H; try discriminate.
  - destruct (IH (body x) y H) as (n & Hy & Ht & Hf).
    exists (S n). split; [now rewrite Nat.iter_succ_r|]. split; [|exact Hf].
    intros [|i] Hi; [exact E|]. rewrite Nat.iter_succ_r. apply Ht. lia.
  - inversion H; subst. exists 0%nat. split; [reflexivity|].
    split; [intros i Hi; lia | exact E].
Qed.

Lemma iter_pred (i : nat) (x : Z) :
  Nat.iter i (fun l => l - 1) x = x - Z.of_nat i.
Proof. induction i as [|i IH]; simpl; [lia|]. rewrite IH. lia. Qed.

Lemma iter_succ (i : nat) (x : Z) :
  Nat.iter i (fun r => r + 1) x = x + Z.of_nat i.
Proof. induction i as [|i IH]; simpl; [lia|]. rewrite IH. lia. Qed.

Lemma iter_sub (i : nat) (d x c : Z) :
  Nat.iter i (fun lc : Z * Z => (fst lc - d, snd lc + 1)) (x, c)
    = (x - Z.of_nat i * d, c + Z.of_nat i).
Proof.
  induction i as [|i IH]; [simpl; f_equal; lia|].
  rewrite Nat.iter_succ, IH. simpl fst. simpl snd. f_equal; lia.
Qed.

Lemma iter_add (i : nat) (d x c : Z) :
  Nat.iter i (fun rc : Z * Z => (fst rc + d, snd rc + 1)) (x, c)
    = (x + Z.of_nat i * d, c + Z.of_nat i).
Proof.
  induction i as [|i IH]; [simpl; f_equal; lia|].
  rewrite Nat.iter_succ, IH. simpl fst. simpl snd. f_equal; lia.
Qed.

(** A guard that is true exactly when the next cell is good stops at the
    first cell that is not. *)
Lemma run_extent (G V : nat -> Prop) (cnd : nat -> Res bool) (n : nat) :
  (forall j, G j -> V j) ->
  (forall j, V j -> (cnd j = Ok true <-> G (S j))) ->
  V 0%nat ->
  (forall i, (i < n)%nat -> cnd i = Ok true) ->
  cnd n = Ok false ->
  (forall j, (1 <= j <= n)%nat -> G j) /\ ~ G (S n).
Proof.
  intros HGV Hc HV0 Ht Hf.
  assert (Hall : forall j, (j <= n)%nat -> V j /\ ((1 <= j)%nat -> G j)).
  { induction j as [|j IH]; intros Hj.
    - split; [exact HV0 | lia].
    - destruct IH as [HVj _]; [lia|].
      assert (HG : G (S j)) by (apply (Hc j HVj), Ht; lia).
      split; [now apply HGV | intros _; exact HG]. }
  split.
  - intros j [H1 Hn]. now apply (Hall j Hn).
  - intros HG. destruct (Hall n (le_n n)) as [HVn _].
    apply (Hc n HVn) in HG. congruence.
Qed.

End LoopShape.

Section ScanExtent.

Import Board.

Variable b : t.
Hypothesis I : Board_inv b.
Variable player : Z.
Hypothesis Hplayer : player = 0 \/ player = 1.
Variable start : Z.
Hypothesis Hstart : 0 <= start < width b * height b.

Lemma cell_eq_iff k : cell b k = player <-> states b !! k = Some player.
Proof.
  unfold cell. destruct (states b !! k) as [q|]; simpl.
  - split; [now intros -> | now intros [= ->]].
  - unfold kEmpty. split; [lia | discriminate].
Qed.

Lemma same_colour_within_row_true_iff key x c :
  same_colour_within_row b player key x c = Ok true <->
  states b !! key = Some player /\ x mod width b <> c.
Proof.
  unfold same_colour_within_row, py_mod.
  pose proof (inv_width b I) as Hw. rewrite <- cell_eq_iff.
  destruct (cell b key =? player) eqn:E.
  - apply Z.eqb_eq in E.
    replace (width b =? 0) with false by (symmetry; apply Z.eqb_neq; lia).
    cbn [res_bind]. split.
    + intros [= H]. apply negb_true_iff, Z.eqb_neq in H. tauto.
    + intros [_ H]. do 2 f_equal. now apply negb_true_iff, Z.eqb_neq.
  - apply Z.eqb_neq in E. split; [discriminate | tauto].
Qed.

(** The column of the cell [i] steps from the start, while it is on the
    board. *)
Lemma mod_at dr dc i :
  0 <= start mod width b + i * dc < width b ->
  (start + i * (dr * width b + dc)) mod width b = start mod width b + i * dc.
Proof.
  intros Hc. pose proof (inv_width b I) as Hw.
  replace (start + i * (dr * width b + dc))
    with (start mod width b + i * dc + (start / width b + i * dr) * width b).
  - rewrite Z.mod_add by lia. apply Z.mod_small. exact Hc.
  - pose proof (Z.div_mod start (width b)). lia.
Qed.

Lemma col_start : 0 <= start mod width b < width b.
Proof. apply Z.mod_pos_bound. apply I. Qed.

(** The guard of a loop that walks towards lower columns or stays in its
    column: with the current cell [i] steps from the start in a column of
    the board, it is true exactly when the cell one step further is good. *)
Lemma guard_iff dr dc (i i' : Z) (key x c : Z) :
  0 <= start mod width b + i * dc < width b ->
  key = start + i' * (dr * width b + dc) ->
  (x mod width b <> c <-> 0 <= start mod width b + i' * dc < width b) ->
  same_colour_within_row b player key x c = Ok true <->
  good b player start dr dc i'.
Proof.
  intros Hc -> Hx. rewrite same_colour_within_row_true_iff. unfold good.
  tauto.
Qed.

(** The two loops of one direction, seen from their guards: when each guard
    is true exactly if the next cell is good, the loops stop at the ends of
    the run of good cells around the start. *)
Lemma extent_from_loops dr dc s (condL condR : Z -> Res bool) (nL nR : nat) :
  (forall j : nat,
     0 <= start mod width b + (- Z.of_nat j) * dc < width b ->
     (condL (start - Z.of_nat j * s) = Ok true <->
      good b player start dr dc (- Z.of_nat (S j)))) ->
  (forall j : nat,
     0 <= start mod width b + Z.of_nat j * dc < width b ->
     (condR (start + (Z.of_nat j + 1) * s) = Ok true <->
      good b player start dr dc (Z.of_nat (S j)))) ->
  (forall i, (i < nL)%nat -> condL (start - Z.of_nat i * s) = Ok true) ->
  condL (start - Z.of_nat nL * s) = Ok false ->
  (forall i, (i < nR)%nat -> condR (start + (Z.of_nat i + 1) * s) = Ok true) ->
  condR (start + (Z.of_nat nR + 1) * s) = Ok false ->
  extent (good b player start dr dc) nL nR.
Proof.
  intros HL HR HtL HfL HtR HfR. pose proof col_start as HC.
  destruct (run_extent
              (fun j => good b player start dr dc (- Z.of_nat j))
              (fun j => 0 <= start mod width b + (- Z.of_nat j) * dc < width b)
              (fun j => condL (start - Z.of_nat j * s))
              nL) as [HgL HnL]; try assumption.
  { intros j [Hc _]. exact Hc. }
  { simpl. lia. }
  destruct (run_extent
              (fun j => good b player start dr dc (Z.of_nat j))
              (fun j => 0 <= start mod width b + Z.of_nat j * dc < width b)
              (fun j => condR (start + (Z.of_nat j + 1) * s))
              nR) as [HgR HnR]; try assumption.
  { intros j [Hc _]. exact Hc. }
  { simpl. lia. }
  split; [|split].
  - intros i Hi Hne. destruct (Z_lt_ge_dec i 0) as [Hneg|Hpos].
    + replace i with (- Z.of_nat (Z.to_nat (- i))) by lia. apply HgL. lia.
    + replace i with (Z.of_nat (Z.to_nat i)) by lia. apply HgR. lia.
  - replace (- (Z.of_nat nL + 1)) with (- Z.of_nat (S nL)) by lia. exact HnL.
  - replace (Z.of_nat nR + 1) with (Z.of_nat (S nR)) by lia. exact HnR.
Qed.

(** **** Along the row *)

Lemma horizontal_extent :
  exists nL nR,
    horizontal b start player
      = Ok (Z.of_nat nL + Z.of_nat nR + 1 >=? numberToWin b) /\
    extent (good b player start 0 1) nL nR.
Proof.
  pose proof (inv_width b I) as Hw. pose proof col_start as HC.
  destruct (horizontal_total b I player Hplayer start Hstart) as [res Hres].
  unfold horizontal in *.
  destruct (while_loop (scan_fuel b)
              (fun l => same_colour_within_row b player (l - 1) l 0)
              (fun l => l - 1) start) as [l| |] eqn:EL; try discriminate.
  cbn [res_bind] in *.
  destruct (while_loop (scan_fuel b)
              (fun r => same_colour_within_row b player r r 0)
              (fun r => r + 1) (start + 1)) as [r| |] eqn:ER; try discriminate.
  cbn [res_bind] in *.
  apply while_loop_iter in EL as (nL & Hl & HtL & HfL).
  apply while_loop_iter in ER as (nR & Hr & HtR & HfR).
  rewrite iter_pred in Hl. rewrite iter_succ in Hr. subst l r.
  exists nL, nR. split; [do 2 f_equal; lia|].
  apply (extent_from_loops 0 1 1
           (fun x => same_colour_within_row b player (x - 1) x 0)
           (fun x => same_colour_within_row b player x x 0)).
  - intros j Hv.
    apply (guard_iff 0 1 (- Z.of_nat j)); [exact Hv | lia |].
    replace (start - Z.of_nat j * 1)
      with (start + (- Z.of_nat j) * (0 * width b + 1)) by lia.
    rewrite (mod_at 0 1) by exact Hv. lia.
  - intros j Hv.
    apply (guard_iff 0 1 (Z.of_nat j)); [exact Hv | lia |].
    replace (start + (Z.of_nat j + 1) * 1)
      with (start mod width b + Z.of_nat j + 1
            + (start / width b) * width b)
      by (pose proof (Z.div_mod start (width b)); lia).
    rewrite Z.mod_add by lia.
    destruct (decide (start mod width b + Z.of_nat j + 1 = width b)) as [E|E].
    + rewrite E, Z.mod_same by lia. lia.
    + rewrite Z.mod_small by lia. lia.
  - intros i Hi. specialize (HtL i Hi). rewrite iter_pred in HtL.
    now replace (start - Z.of_nat i * 1) with (start - Z.of_nat i) by lia.
  - now replace (start - Z.of_nat nL * 1) with (start - Z.of_nat nL) by lia.
  - intros i Hi. specialize (HtR i Hi). rewrite iter_succ in HtR.
    now replace (start + (Z.of_nat i + 1) * 1)
      with (start + 1 + Z.of_nat i) by lia.
  - now replace (start + (Z.of_nat nR + 1) * 1)
      with (start + 1 + Z.of_nat nR) by lia.
Qed.

(** **** Down the column *)

Lemma vertical_extent :
  exists nL nR,
    vertical b start player
      = Ok (Z.of_nat nL + Z.of_nat nR + 1 >=? numberToWin b) /\
    extent (good b player start 1 0) nL nR.
Proof.
  pose proof (inv_width b I) as Hw. pose proof col_start as HC.
  destruct (vertical_total b I player Hplayer start Hstart) as [res Hres].
  unfold vertical in *.
  destruct (while_loop (scan_fuel b)
              (fun lc : Z * Z => Ok (cell b (fst lc - width b) =? player))
              (fun lc => (fst lc - width b, snd lc + 1)) (start, 1))
    as [lc| |] eqn:EL; try discriminate.
  cbn [res_bind] in *.
  destruct (while_loop (scan_fuel b)
              (fun rc : Z * Z => Ok (cell b (fst rc) =? player))
              (fun rc => (fst rc + width b, snd rc + 1))
              (start + width b, snd lc))
    as [rc| |] eqn:ER; try discriminate.
  cbn [res_bind] in *.
  apply while_loop_iter in EL as (nL & Hl & HtL & HfL).
  apply while_loop_iter in ER as (nR & Hr & HtR & HfR).
  rewrite iter_sub in Hl. subst lc. simpl snd in *. simpl fst in *.
  rewrite iter_add in Hr. subst rc. simpl snd in *. simpl fst in *.
  exists nL, nR. split; [do 2 f_equal; lia|].
  assert (Hcell : forall k i,
            k = start + i * (1 * width b + 0) ->
            (@Ok bool (cell b k =? player) = Ok true <->
             good b player start 1 0 i)).
  { intros k i ->. unfold good. rewrite <- cell_eq_iff.
    split.
    - intros [= H]. apply Z.eqb_eq in H. split; [lia | exact H].
    - intros [_ H]. f_equal. now apply Z.eqb_eq. }
  apply (extent_from_loops 1 0 (width b)
           (fun x => Ok (cell b (x - width b) =? player))
           (fun x => Ok (cell b x =? player))).
  - intros j _. apply Hcell. lia.
  - intros j _. apply Hcell. lia.
  - intros i Hi. specialize (HtL i Hi). rewrite iter_sub in HtL. exact HtL.
  - exact HfL.
  - intros i Hi. specialize (HtR i Hi). rewrite iter_add in HtR.
    simpl fst in HtR.
    now replace (start + (Z.of_nat i + 1) * width b)
      with (start + width b + Z.of_nat i * width b) by lia.
  - now replace (start + (Z.of_nat nR + 1) * width b)
      with (start + width b + Z.of_nat nR * width b) by lia.
Qed.

(** **** Down the main diagonal *)

Lemma main_diagonal_extent :
  exists nL nR,
    main_diagonal b start player
      = Ok (Z.of_nat nL + Z.of_nat nR + 1 >=? numberToWin b) /\
    extent (good b player start 1 1) nL nR.
Proof.
  pose proof (inv_width b I) as Hw. pose proof col_start as HC.
  destruct (main_diagonal_total b I player Hplayer start Hstart)
    as [res Hres].
  unfold main_diagonal in *.
  destruct (while_loop (scan_fuel b)
              (fun lc : Z * Z =>
                 same_colour_within_row b player
                   (fst lc - 1 - width b) (fst lc) 0)
              (fun lc => (fst lc - (width b + 1), snd lc + 1)) (start, 1))
    as [lc| |] eqn:EL; try discriminate.
  cbn [res_bind] in *.
  destruct (while_loop (scan_fuel b)
              (fun rc : Z * Z =>
                 same_colour_within_row b player (fst rc) (fst rc) 0)
              (fun rc => (fst rc + (width b + 1), snd rc + 1))
              (start + width b + 1, snd lc))
    as [rc| |] eqn:ER; try discriminate.
  cbn [res_bind] in *.
  apply while_loop_iter in EL as (nL & Hl & HtL & HfL).
  apply while_loop_iter in ER as (nR & Hr & HtR & HfR).
  rewrite iter_sub in Hl. subst lc. simpl snd in *. simpl fst in *.
  rewrite iter_add in Hr. subst rc. simpl snd in *. simpl fst in *.
  exists nL, nR. split; [do 2 f_equal; lia|].
  apply (extent_from_loops 1 1 (width b + 1)
           (fun x => same_colour_within_row b player (x - 1 - width b) x 0)
           (fun x => same_colour_within_row b player x x 0)).
  - intros j Hv.
    apply (guard_iff 1 1 (- Z.of_nat j)); [exact Hv | lia |].
    replace (start - Z.of_nat j * (width b + 1))
      with (start + (- Z.of_nat j) * (1 * width b + 1)) by lia.
    rewrite (mod_at 1 1) by exact Hv. lia.
  - intros j Hv.
    apply (guard_iff 1 1 (Z.of_nat j)); [exact Hv | lia |].
    replace (start + (Z.of_nat j + 1) * (width b + 1))
      with (start mod width b + Z.of_nat j + 1
            + (start / width b + Z.of_nat j + 1) * width b)
      by (pose proof (Z.div_mod start (width b)); lia).
    rewrite Z.mod_add by lia.
    destruct (decide (start mod width b + Z.of_nat j + 1 = width b)) as [E|E].
    + rewrite E, Z.mod_same by lia. lia.
    + rewrite Z.mod_small by lia. lia.
  - intros i Hi. specialize (HtL i Hi). rewrite iter_sub in HtL. exact HtL.
  - exact HfL.
  - intros i Hi. specialize (HtR i Hi). rewrite iter_add in HtR.
    simpl fst in HtR.
    now replace (start + (Z.of_nat i + 1) * (width b + 1))
      with (start + width b + 1 + Z.of_nat i * (width b + 1)) by lia.
  - now replace (start + (Z.of_nat nR + 1) * (width b + 1))
      with (start + width b + 1 + Z.of_nat nR * (width b + 1)) by lia.
Qed.

(** **** Down the other diagonal *)

Lemma deputy_diagonal_extent :
  exists nL nR,
    deputy_diagonal b start player
      = Ok (Z.of_nat nL + Z.of_nat nR + 1 >=? numberToWin b) /\
    extent (good b player start 1 (-1)) nL nR.
Proof.
  pose proof (inv_width b I) as Hw. pose proof col_start as HC.
  destruct (deputy_diagonal_total b I player Hplayer start Hstart)
    as [res Hres].
  unfold deputy_diagonal in *.
  destruct (while_loop (scan_fuel b)
              (fun lc : Z * Z =>
                 same_colour_within_row b player
                   (fst lc + 1 - width b) (fst lc) (width b - 1))
              (fun lc => (fst lc - (width b - 1), snd lc + 1)) (start, 1))
    as [lc| |] eqn:EL; try discriminate.
  cbn [res_bind] in *.
  destruct (while_loop (scan_fuel b)
              (fun rc : Z * Z =>
                 same_colour_within_row b player (fst rc) (fst rc)
                   (width b - 1))
              (fun rc => (fst rc + (width b - 1), snd rc + 1))
              (start + width b - 1, snd lc))
    as [rc| |] eqn:ER; try discriminate.
  cbn [res_bind] in *.
  apply while_loop_iter in EL as (nL & Hl & HtL & HfL).
  apply while_loop_iter in ER as (nR & Hr & HtR & HfR).
  rewrite iter_sub in Hl. subst lc. simpl snd in *. simpl fst in *.
  rewrite iter_add in Hr. subst rc. simpl snd in *. simpl fst in *.
  exists nL, nR. split; [do 2 f_equal; lia|].
  apply (extent_from_loops 1 (-1) (width b - 1)
           (fun x => same_colour_within_row b player
                       (x + 1 - width b) x (width b - 1))
           (fun x => same_colour_within_row b player x x (width b - 1))).
  - intros j Hv.
    apply (guard_iff 1 (-1) (- Z.of_nat j)); [exact Hv | lia |].
    replace (start - Z.of_nat j * (width b - 1))
      with (start + (- Z.of_nat j) * (1 * width b + -1)) by lia.
    rewrite (mod_at 1 (-1)) by exact Hv. lia.
  - intros j Hv.
    apply (guard_iff 1 (-1) (Z.of_nat j)); [exact Hv | lia |].
    replace (start + (Z.of_nat j + 1) * (width b - 1))
      with (start mod width b - Z.of_nat j - 1
            + (start / width b + Z.of_nat j + 1) * width b)
      by (pose proof (Z.div_mod start (width b)); lia).
    rewrite Z.mod_add by lia.
    destruct (decide (start mod width b - Z.of_nat j - 1 = -1)) as [E|E].
    + rewrite E. replace (-1) with (width b - 1 + (-1) * width b) at 1 by lia.
      rewrite Z.mod_add by lia. rewrite Z.mod_small by lia. lia.
    + rewrite Z.mod_small by lia. lia.
  - intros i Hi. specialize (HtL i Hi). rewrite iter_sub in HtL. exact HtL.
  - exact HfL.
  - intros i Hi. specialize (HtR i Hi). rewrite iter_add in HtR.
    simpl fst in HtR.
    now replace (start + (Z.of_nat i + 1) * (width b - 1))
      with (start + width b - 1 + Z.of_nat i * (width b - 1)) by lia.
  - now replace (start + (Z.of_nat nR + 1) * (width b - 1))
      with (start + width b - 1 + Z.of_nat nR * (width b - 1)) by lia.
Qed.

End ScanExtent.

Section LinesFound.

Import Board.

Variable b : t.
Hypothesis I : Board_inv b.

(** The index of the cell [i] steps from a start cell, in rows and
    columns. *)
Lemma index_at start dr dc i :
  start + i * (dr * width b + dc)
    = (start / width b + i * dr) * width b + (start mod width b + i * dc).
Proof.
  pose proof (inv_width b I). pose proof (Z.div_mod start (width b)). lia.
Qed.

(** A good cell is a cell of the board with a stone of the player. *)
Lemma good_cell player start dr dc i :
  good b player start dr dc i ->
  on_board b (start / width b + i * dr) (start mod width b + i * dc) /\
  stone b (start / width b + i * dr) (start mod width b + i * dc)
    = Some player.
Proof.
  intros [Hc Hs]. rewrite index_at in Hs. unfold stone. split; [|exact Hs].
  split; [|exact Hc].
  assert (Hr : 0 <= (start / width b + i * dr) * width b
                    + (start mod width b + i * dc)
               < width b * height b).
  { apply (inv_moved_range b I), (inv_states_dom b I). eauto. }
  pose proof (inv_width b I). nia.
Qed.

Lemma cell_good player start dr dc i :
  0 <= start mod width b + i * dc < width b ->
  stone b (start / width b + i * dr) (start mod width b + i * dc)
    = Some player ->
  good b player start dr dc i.
Proof.
  intros Hc Hs. split; [exact Hc|]. rewrite index_at. exact Hs.
Qed.

(** The row and the column of a cell of the board, from its index. *)
Lemma index_row_col r c :
  0 <= c < width b ->
  (r * width b + c) / width b = r /\ (r * width b + c) mod width b = c.
Proof.
  intros Hc. pose proof (inv_width b I) as Hw. split.
  - rewrite Z.add_comm, Z.div_add by lia. rewrite Z.div_small by lia. lia.
  - rewrite Z.add_comm, Z.mod_add by lia. now apply Z.mod_small.
Qed.

(** One direction: when the two loops stop at the ends of the run of good
    cells, the scan answers [True] exactly when a line of the player in
    that direction passes through the start. *)
Lemma scan_true_iff_line player start dr dc (scan : Res bool) :
  1 <= numberToWin b ->
  states b !! start = Some player ->
  (exists nL nR,
     scan = Ok (Z.of_nat nL + Z.of_nat nR + 1 >=? numberToWin b) /\
     extent (good b player start dr dc) nL nR) ->
  scan = Ok true <->
  exists r c j,
    line_at b player r c dr dc /\ 0 <= j < numberToWin b /\
    start = (r + j * dr) * width b + (c + j * dc).
Proof.
  intros Hk Hstart (nL & nR & Hscan & Hall & HnL & HnR).
  pose proof (inv_width b I) as Hw.
  assert (HC : 0 <= start mod width b < width b)
    by (apply Z.mod_pos_bound; lia).
  assert (Hg0 : good b player start dr dc 0).
  { split; [lia|]. now replace (start + 0 * (dr * width b + dc)) with start
      by lia. }
  assert (Hrun : forall i, - Z.of_nat nL <= i <= Z.of_nat nR ->
                 good b player start dr dc i).
  { intros i Hi. destruct (decide (i = 0)) as [->|Hne]; [exact Hg0|].
    now apply Hall. }
  rewrite Hscan. split.
  - intros [= Hge]. rewrite Z.geb_leb in Hge. apply Z.leb_le in Hge.
    set (j := Z.min (Z.of_nat nL) (numberToWin b - 1)).
    exists (start / width b - j * dr), (start mod width b - j * dc), j.
    split; [|split; [lia|]].
    + intros i Hi.
      replace (start / width b - j * dr + i * dr)
        with (start / width b + (i - j) * dr) by lia.
      replace (start mod width b - j * dc + i * dc)
        with (start mod width b + (i - j) * dc) by lia.
      apply good_cell, Hrun. lia.
    + pose proof (Z.div_mod start (width b)). lia.
  - intros (r & c & j & Hline & Hj & Hs).
    destruct (Hline j Hj) as [[Hr Hc] _].
    destruct (index_row_col (r + j * dr) (c + j * dc) Hc) as [HR HCm].
    rewrite <- Hs in HR, HCm.
    assert (Hgood : forall i, 0 <= i < numberToWin b ->
                    good b player start dr dc (i - j)).
    { intros i Hi. destruct (Hline i Hi) as [[_ Hci] Hsi].
      apply cell_good.
      - rewrite HCm. replace (c + j * dc + (i - j) * dc) with (c + i * dc)
          by lia. exact Hci.
      - rewrite HR, HCm.
        replace (r + j * dr + (i - j) * dr) with (r + i * dr) by lia.
        replace (c + j * dc + (i - j) * dc) with (c + i * dc) by lia.
        exact Hsi. }
    assert (HL : j <= Z.of_nat nL).
    { destruct (Z_le_gt_dec j (Z.of_nat nL)) as [H|H]; [exact H|].
      exfalso. apply HnL.
      replace (- (Z.of_nat nL + 1)) with ((j - Z.of_nat nL - 1) - j) by lia.
      apply Hgood. lia. }
    assert (HR' : numberToWin b - 1 - j <= Z.of_nat nR).
    { destruct (Z_le_gt_dec (numberToWin b - 1 - j) (Z.of_nat nR))
        as [H|H]; [exact H|].
      exfalso. apply HnR.
      replace (Z.of_nat nR + 1) with ((Z.of_nat nR + 1 + j) - j) by lia.
      apply Hgood. lia. }
    do 2 f_equal. rewrite Z.geb_leb. apply Z.leb_le. lia.
Qed.

(** The four scans together. *)
Lemma lines_from_true_iff player start :
  player = 0 \/ player = 1 ->
  0 <= start < width b * height b ->
  lines_from b start player = Ok true <->
  horizontal b start player = Ok true \/
  vertical b start player = Ok true \/
  main_diagonal b start player = Ok true \/
  deputy_diagonal b start player = Ok true.
Proof.
  intros Hp Hs. unfold lines_from.
  destruct (horizontal_total b I player Hp start Hs) as [h ->].
  destruct (vertical_total b I player Hp start Hs) as [v ->].
  destruct (main_diagonal_total b I player Hp start Hs) as [d ->].
  destruct (deputy_diagonal_total b I player Hp start Hs) as [a ->].
  cbn [res_bind].
  destruct h, v, d, a; simpl; split; intros H;
    try reflexivity; try discriminate; try tauto;
    repeat (destruct H as [H|H]; try discriminate).
Qed.

Lemma lines_from_line_through player m :
  1 <= numberToWin b ->
  states b !! m = Some player ->
  lines_from b m player = Ok true <-> line_through b player m.
Proof.
  intros Hk Hm.
  pose proof (inv_states_players b I m player Hm) as Hp.
  assert (Hr : 0 <= m < width b * height b).
  { apply (inv_moved_range b I), (inv_states_dom b I). eauto. }
  rewrite (lines_from_true_iff player m Hp Hr).
  rewrite (scan_true_iff_line player m 0 1 _ Hk Hm
             (horizontal_extent b I player Hp m Hr)).
  rewrite (scan_true_iff_line player m 1 0 _ Hk Hm
             (vertical_extent b I player Hp m Hr)).
  rewrite (scan_true_iff_line player m 1 1 _ Hk Hm
             (main_diagonal_extent b I player Hp m Hr)).
  rewrite (scan_true_iff_line player m 1 (-1) _ Hk Hm
             (deputy_diagonal_extent b I player Hp m Hr)).
  unfold line_through, directions. split.
  - intros [H|[H|[H|H]]]; destruct H as (r & c & j & Hl & Hj & Hs).
    + exists r, c, 0, 1, j.
      split; [repeat constructor | split; [exact Hl | split; [exact Hj | exact Hs]]].
    + exists r, c, 1, 0, j.
      split; [repeat constructor | split; [exact Hl | split; [exact Hj | exact Hs]]].
    + exists r, c, 1, 1, j.
      split; [repeat constructor | split; [exact Hl | split; [exact Hj | exact Hs]]].
    + exists r, c, 1, (-1), j.
      split; [repeat constructor | split; [exact Hl | split; [exact Hj | exact Hs]]].
  - intros (r & c & dr & dc & j & Hd & Hl & Hj & Hs).
    repeat (apply elem_of_cons in Hd as [Hd|Hd];
            [injection Hd as -> ->; eauto 10|]).
    now apply elem_of_nil in Hd.
Qed.

(** What a pass over moves that scans each move from itself returns. *)
Lemma scan_moves_Some ms q :
  scan_moves b Ok ms = Ok (Some q) ->
  exists m, m ∈ ms /\ states b !! m = Some q /\ lines_from b m q = Ok true.
Proof.
  induction ms as [|m ms IH]; simpl; [discriminate|].
  destruct (states b !! m) as [p|] eqn:Hm; [|discriminate].
  cbn [res_bind]. destruct (lines_from b m p) as [[|]| |] eqn:E;
    cbn [res_bind]; try discriminate.
  - intros [= <-]. exists m. split; [left | tauto].
  - intros H. destruct (IH H) as (m' & Hin & Hs & Hl).
    exists m'. split; [now right | tauto].
Qed.

Lemma scan_moves_None ms :
  scan_moves b Ok ms = Ok None ->
  forall m, m ∈ ms ->
  exists p, states b !! m = Some p /\ lines_from b m p = Ok false.
Proof.
  induction ms as [|m ms IH]; simpl; intros H m' Hin.
  - now apply elem_of_nil in Hin.
  - destruct (states b !! m) as [p|] eqn:Hm; [|discriminate].
    cbn [res_bind] in H. destruct (lines_from b m p) as [[|]| |] eqn:E;
      cbn [res_bind] in H; try discriminate.
    apply elem_of_cons in Hin as [->|Hin]; [eauto | now apply IH].
Qed.

End LinesFound.

Section WinCheckCorrect.

Import Board.

(** X8: on a board that satisfies the invariant, with [numberToWin] at least
    one, the four scans of the win check around a stone answer [True]
    exactly when a line of [numberToWin] stones of its colour (along a row,
    a column or a diagonal, all on the board, no wrap from one row to the
    next) passes through that stone. *)
Theorem scans_find_the_lines_through_a_stone (b : t) (m player : Z) :
  Board_inv b ->
  1 <= numberToWin b ->
  states b !! m = Some player ->
  lines_from b m player = Ok true <-> line_through b player m.
Proof.
  intros I Hk Hm. now apply lines_from_line_through.
Qed.

(** X9: on a board that satisfies the invariant, with [numberToWin] at least
    one, the player that [getWinner] returns has a line of [numberToWin]
    stones on the board; and once [2 * numberToWin - 1] stones are on the
    board, [getWinner] returns [None] exactly when no player has such a
    line. *)
Theorem getWinner_finds_exactly_the_lines (b : t) :
  Board_inv b ->
  1 <= numberToWin b ->
  (forall p, getWinner b = Ok (Some p) -> has_line b p) /\
  (2 * numberToWin b - 1 <= Z.of_nat (length (moved b)) ->
   (getWinner b = Ok None <-> forall p, ~ has_line b p)).
Proof.
  intros I Hk.
  assert (Hsound : forall p, getWinner b = Ok (Some p) -> has_line b p).
  { intros p H. unfold getWinner in H.
    destruct (Z.of_nat (length (moved b)) <? 2 * numberToWin b - 1);
      [discriminate|].
    apply scan_moves_Some in H as (m & _ & Hm & Hl).
    apply (lines_from_line_through b I p m Hk Hm) in Hl
      as (r & c & dr & dc & j & Hd & Hline & _).
    exists r, c, dr, dc. tauto. }
  split; [exact Hsound|]. intros Hguard. split.
  - intros Hnone p (r & c & dr & dc & Hd & Hline).
    unfold getWinner in Hnone.
    replace (Z.of_nat (length (moved b)) <? 2 * numberToWin b - 1)
      with false in Hnone by (symmetry; apply Z.ltb_ge; lia).
    destruct (Hline 0 ltac:(lia)) as [_ Hs]. unfold stone in Hs.
    assert (Hin : (r + 0 * dr) * width b + (c + 0 * dc) ∈ moved b).
    { apply (inv_states_dom b I). eauto. }
    destruct (scan_moves_None b _ Hnone _
                (elem_of_reverse_2 _ _ Hin)) as (q & Hq & Hfalse).
    assert (q = p) by congruence. subst q.
    assert (Htrue : lines_from b ((r + 0 * dr) * width b + (c + 0 * dc)) p
                    = Ok true).
    { apply (lines_from_line_through b I p _ Hk Hs).
      exists r, c, dr, dc, 0. repeat split; try assumption; try lia.
      all: apply Hline; assumption. }
    congruence.
  - intros Hno. destruct (getWinner_total b I) as [[p|] Hr]; [|exact Hr].
    exfalso. exact (Hno p (Hsound p Hr)).
Qed.

(** X10: on a board that satisfies the invariant, with [numberToWin] at
    least one and at least [2 * numberToWin - 1] stones, a line of
    [numberToWin] stones of the last mover through the last move is always
    reported: [fastGetWinner] returns that player and [gameEnd] reports the
    game finished with that winner. *)
Theorem fastGetWinner_reports_line_through_last_move
    (b : t) (lm player : Z) :
  Board_inv b ->
  1 <= numberToWin b ->
  2 * numberToWin b - 1 <= Z.of_nat (length (moved b)) ->
  last_move b = Some lm ->
  states b !! lm = Some player ->
  line_through b player lm ->
  fastGetWinner b = Ok (Some player) /\
  getWinner b = Ok (Some player) /\
  gameEnd b = Ok (true, Some player).
Proof.
  intros I Hk Hguard Hl Hs Hline.
  apply (lines_from_line_through b I player lm Hk Hs) in Hline.
  assert (Hfast : fastGetWinner b = Ok (Some player)).
  { unfold fastGetWinner.
    replace (Z.of_nat (length (moved b)) <? 2 * numberToWin b - 1)
      with false by (symmetry; apply Z.ltb_ge; lia).
    pose proof Hl as Hl'. rewrite (inv_last b I) in Hl'.
    apply last_Some in Hl' as [mv Hmv]. rewrite Hmv, reverse_snoc. simpl.
    unfold last_move_int. rewrite Hs, Hl. cbn [res_bind].
    now rewrite Hline. }
  split; [exact Hfast|]. split.
  - rewrite <- Hfast. symmetry. apply fast_full_agree; [exact I|].
    right. eauto.
  - unfold gameEnd. now rewrite Hfast.
Qed.

End WinCheckCorrect.

Section WinCheckWitnesses.

Import Board.

Lemma play_all_inv ms : forall b0 b1,
  Board_inv b0 -> play_all b0 ms = (b1, Ok true) -> Board_inv b1.
Proof.
  induction ms as [|m ms IH]; intros b0 b1 H0 Hp; simpl in Hp.
  - now inversion Hp; subst.
  - destruct (play b0 m) as [b' r] eqn:E.
    destruct r as [[|]| |]; try discriminate.
    apply (IH b' b1); [|exact Hp]. eapply Board_inv_play; eauto.
Qed.

Lemma board_win_inv : Board_inv board_win.
Proof.
  apply (play_all_inv game_win board15).
  - apply (Board_inv_initBoard 15 15 5 None); auto; lia.
  - vm_compute. reflexivity.
Qed.

(** Black's row 0..4 on [board_win], as a line through the last move. *)
Lemma board_win_line : line_through board_win kPlayerBlack 4.
Proof.
  exists 0, 0, 0, 1, 4. split; [repeat constructor|]. split.
  - intros i Hi. simpl in Hi.
    assert (Hi' : i = 0 \/ i = 1 \/ i = 2 \/ i = 3 \/ i = 4) by lia.
    destruct Hi' as [->|[->|[->|[->| ->]]]];
      (split; [split; simpl; lia | vm_compute; reflexivity]).
  - split; [simpl; lia | reflexivity].
Qed.

End WinCheckWitnesses.

(** ** The incremental check against the full scan *)

Section FastAndFull.

Import Board.

Variable b : t.
Hypothesis I : Board_inv b.







End FastAndFull.



Lemma scans_find_the_lines_through_a_stone_witness :
  Board.lines_from board_win 4 Board.kPlayerBlack = Ok true <->
  line_through board_win Board.kPlayerBlack 4.
Proof.
  apply (scans_find_the_lines_through_a_stone board_win 4 Board.kPlayerBlack).
  - exact board_win_inv.
  - simpl. lia.
  - vm_compute. reflexivity.
Defined.

Lemma getWinner_finds_exactly_the_lines_witness :
  (forall p, Board.getWinner board_win = Ok (Some p) -> has_line board_win p)
  /\
  (2 * Board.numberToWin board_win - 1
     <= Z.of_nat (length (Board.moved board_win)) ->
   (Board.getWinner board_win = Ok None <->
    forall p, ~ has_line board_win p)).
Proof.
  apply (getWinner_finds_exactly_the_lines board_win).
  - exact board_win_inv.
  - simpl. lia.
Defined.

Lemma fastGetWinner_reports_line_through_last_move_witness :
  Board.fastGetWinner board_win = Ok (Some Board.kPlayerBlack) /\
  Board.getWinner board_win = Ok (Some Board.kPlayerBlack) /\
  Board.gameEnd board_win = Ok (true, Some Board.kPlayerBlack).
Proof.
  apply (fastGetWinner_reports_line_through_last_move board_win 4
           Board.kPlayerBlack).
  - exact board_win_inv.
  - simpl. lia.
  - simpl. lia.
  - reflexivity.
  - vm_compute. reflexivity.
  - exact board_win_line.
Defined.

(** * Further properties of the search *)

Section ExpandPolicy.

Import Board.

Local Open Scope Q_scope.

(** X11: the expansion policy of the pure engine pairs every available move
    of the board, in order, with the same prior [1 / n], where [n] is the
    number of available moves, and the score it returns is zero.  The prior
    is the rational [1 / n]; the code stores the double nearest to it. *)
Theorem expand_policy_is_uniform (b : t) :
  (MCTS.MCTS_expand_policy_fn b).1.*1 = availables b /\
  length (MCTS.MCTS_expand_policy_fn b).1 = length (availables b) /\
  (forall a q, (a, q) ∈ (MCTS.MCTS_expand_policy_fn b).1 ->
     a ∈ availables b /\
     q = 1 / inject_Z (Z.of_nat (length (availables b)))) /\
  (MCTS.MCTS_expand_policy_fn b).2 = 0.
Proof.
  unfold MCTS.MCTS_expand_policy_fn. simpl.
  set (n := length (availables b)).
  assert (Hlen : length (replicate n (1 / inject_Z (Z.of_nat n)))
                 = length (availables b)) by apply length_replicate.
  split; [apply fst_zip; lia|].
  split; [rewrite length_zip; lia|]. split; [|reflexivity].
  intros a q Hin. split.
  - apply (elem_of_zip_l _ _ _ _ Hin).
  - apply elem_of_zip_r in Hin. now apply elem_of_replicate in Hin.
Qed.

End ExpandPolicy.

Section Expand.

Import MCTS.

(** With every action already among the children, [expand] does nothing. *)
Lemma expand_noop priors : forall (h : gmap nat Node) self nd,
  h !! self = Some nd ->
  (forall a, a ∈ priors.*1 -> a ∈ (children nd).*1) ->
  expand self priors h = (h, Ok tt).
Proof.
  induction priors as [|[a q] priors IH]; intros h self nd Hn Hall;
    [reflexivity|].
  simpl. unfold st_bind at 1. unfold node_at at 1. rewrite Hn.
  rewrite bool_decide_eq_true_2 by (apply Hall; left).
  unfold st_bind at 1. simpl.
  apply (IH h self nd Hn). intros a' Ha'. apply Hall. now right.
Qed.

Lemma expand_spec priors : forall (h : gmap nat Node) self nd,
  h !! self = Some nd ->
  exists h' nd' new,
    expand self priors h = (h', Ok tt) /\
    h' !! self = Some nd' /\
    children nd' = children nd ++ new /\
    parent nd' = parent nd /\ vis_times nd' = vis_times nd /\
    Q_value nd' = Q_value nd /\ P_value nd' = P_value nd /\
    (forall a, a ∈ (children nd').*1 <->
               a ∈ (children nd).*1 \/ a ∈ priors.*1) /\
    (NoDup (children nd).*1 -> NoDup (children nd').*1) /\
    (forall a c, (a, c) ∈ new ->
       h !! c = None /\ (a ∉ (children nd).*1) /\
       exists q, (a, q) ∈ priors /\
                 h' !! c = Some (new_node (Some self) q)) /\
    (forall m, m <> self -> is_Some (h !! m) -> h' !! m = h !! m).
Proof.
  induction priors as [|[a q] priors IH]; intros h self nd Hn.
  - exists h, nd, []. simpl. rewrite app_nil_r.
    repeat split; try reflexivity; try assumption; try tauto.
    + intros [H|H]; [exact H | now apply elem_of_nil in H].
    + now apply elem_of_nil in H.
    + now apply elem_of_nil in H.
    + now apply elem_of_nil in H.
  - simpl expand. unfold st_bind at 1. unfold node_at at 1. rewrite Hn.
    case_bool_decide as Hin.
    + unfold st_bind at 1. simpl.
      destruct (IH h self nd Hn)
        as (h' & nd' & new & Hrun & Hs & Hch & Hp & Hv & HQ & HP & Hk & Hnd
            & Hnew & Hoth).
      exists h', nd', new. split; [exact Hrun|]. split; [exact Hs|].
      split; [exact Hch|]. repeat (split; [assumption|]).
      split; [|split; [exact Hnd|split; [|exact Hoth]]].
      * intros a'. rewrite (Hk a'). simpl. rewrite elem_of_cons.
        split; [tauto|]. intros [H|[->|H]]; tauto.
      * intros a' c Hc. destruct (Hnew a' c Hc) as (H1 & H2 & q' & Hq & H3).
        split; [exact H1|]. split; [exact H2|]. exists q'.
        split; [now right | exact H3].
    + unfold st_bind at 1. unfold st_bind at 1. unfold st_get at 1.
      unfold st_bind at 1. unfold set_node at 1. unfold set_node at 1.
      set (child := fresh (dom h)).
      assert (Hfresh : h !! child = None).
      { apply not_elem_of_dom. apply is_fresh. }
      assert (Hne : child <> self) by congruence.
      set (nd1 := {| parent := parent nd;
                     children := children nd ++ [(a, child)];
                     vis_times := vis_times nd; Q_value := Q_value nd;
                     U_value := U_value nd; P_value := P_value nd |}).
      set (h1 := <[self := nd1]> (<[child := new_node (Some self) q]> h)).
      assert (Hn1 : h1 !! self = Some nd1) by apply lookup_insert_eq.
      destruct (IH h1 self nd1 Hn1)
        as (h' & nd' & new & Hrun & Hs & Hch & Hp & Hv & HQ & HP & Hk & Hnd
            & Hnew & Hoth).
      exists h', nd', ((a, child) :: new).
      split; [exact Hrun|]. split; [exact Hs|].
      split; [rewrite Hch; simpl; now rewrite <- app_assoc|].
      repeat (split; [assumption|]).
      split; [|split; [|split]].
      * intros a'. rewrite (Hk a'). simpl.
        rewrite fmap_app, elem_of_app. simpl.
        rewrite list_elem_of_singleton, elem_of_cons. tauto.
      * intros Hnodup. apply Hnd. simpl. rewrite fmap_app.
        apply NoDup_app. split; [exact Hnodup|]. split.
        -- intros x Hx. simpl. rewrite list_elem_of_singleton.
           intros ->. contradiction.
        -- apply NoDup_singleton.
      * intros a' c Hc. apply elem_of_cons in Hc as [[= -> ->]|Hc].
        -- split; [exact Hfresh|]. split; [exact Hin|]. exists q.
           split; [left|]. rewrite (Hoth child Hne).
           ++ unfold h1. rewrite lookup_insert_ne by congruence.
              apply lookup_insert_eq.
           ++ unfold h1. rewrite lookup_insert_ne by congruence.
              rewrite lookup_insert_eq. eauto.
        -- destruct (Hnew a' c Hc) as (H1 & H2 & q' & Hq & H3).
           assert (Hc1 : c <> self /\ c <> child).
           { split; intros ->.
             - rewrite Hn1 in H1. discriminate.
             - unfold h1 in H1. rewrite lookup_insert_ne in H1 by congruence.
               rewrite lookup_insert_eq in H1. discriminate. }
           split.
           ++ unfold h1 in H1.
              rewrite !lookup_insert_ne in H1 by (intros E; symmetry in E; tauto).
              exact H1.
           ++ split.
              ** intros Ha. apply H2. simpl. rewrite fmap_app, elem_of_app.
                 now left.
              ** exists q'. split; [now right | exact H3].
      * intros m Hm Hsome. rewrite (Hoth m Hm).
        -- unfold h1. rewrite lookup_insert_ne by congruence.
           apply lookup_insert_ne. intros ->. rewrite Hfresh in Hsome.
           now destruct Hsome.
        -- unfold h1. rewrite lookup_insert_ne by congruence.
           rewrite lookup_insert_ne; [exact Hsome|].
           intros ->. rewrite Hfresh in Hsome. now destruct Hsome.
Qed.

(** X12: [expand] on a node of the store returns and keeps the children
    the node has, in their order; it appends one child for each action of
    the priors that is not yet a child, so that afterwards the actions of
    the children are the old ones and those of the priors, without
    repetition if there was none.  Each appended child is a new object of
    the store: a leaf without visits, with [Q = 0], the node as parent and
    one of the priors given for its action.  The node keeps its parent and
    statistics, the other nodes are untouched, and a second [expand] with
    the same priors changes nothing. *)
Theorem expand_adds_missing_children
    (h : gmap nat Node) (self : nat) (nd : Node) (priors : list (Z * Q)) :
  h !! self = Some nd ->
  exists h' nd' new,
    expand self priors h = (h', Ok tt) /\
    h' !! self = Some nd' /\
    children nd' = children nd ++ new /\
    parent nd' = parent nd /\ vis_times nd' = vis_times nd /\
    Q_value nd' = Q_value nd /\ P_value nd' = P_value nd /\
    (forall a, a ∈ (children nd').*1 <->
               a ∈ (children nd).*1 \/ a ∈ priors.*1) /\
    (NoDup (children nd).*1 -> NoDup (children nd').*1) /\
    (forall a c, (a, c) ∈ new ->
       h !! c = None /\ (a ∉ (children nd).*1) /\
       exists q, (a, q) ∈ priors /\
                 h' !! c = Some (new_node (Some self) q)) /\
    (forall m, m <> self -> is_Some (h !! m) -> h' !! m = h !! m) /\
    expand self priors h' = (h', Ok tt).
Proof.
  intros Hn.
  destruct (expand_spec priors h self nd Hn)
    as (h' & nd' & new & Hrun & Hs & Hch & Hp & Hv & HQ & HP & Hk & Hnd
        & Hnew & Hoth).
  exists h', nd', new. repeat (split; [assumption|]).
  apply (expand_noop priors h' self nd' Hs).
  intros a Ha. apply Hk. now right.
Qed.

End Expand.

Lemma expand_adds_missing_children_witness :
  exists h' nd' new,
    MCTS.expand 1%nat [(113, (1 # 3)%Q); (114, (1 # 3)%Q); (114, (2 # 3)%Q)] toy_tree
      = (h', Ok tt) /\
    h' !! 1%nat = Some nd' /\
    MCTS.children nd' = [(113, 2%nat)] ++ new.
Proof.
  destruct (expand_adds_missing_children toy_tree 1%nat
              (MCTS.mkNode (Some 0%nat) [(113, 2%nat)] 2 (-1 # 2) 0 (1 # 2))
              [(113, (1 # 3)%Q); (114, (1 # 3)%Q); (114, (2 # 3)%Q)] eq_refl)
    as (h' & nd' & new & H1 & H2 & H3 & _).
  exists h', nd', new. split; [exact H1|]. split; [exact H2 | exact H3].
Defined.

Section PyMax.

(** [max(..., key=...)] returns an item of the sequence whose key no other
    key exceeds. *)
Lemma py_max_from_spec {A K : Type} (gt : K -> K -> bool)
    (le : K -> K -> Prop) :
  (forall a b, gt a b = false -> le a b) ->
  (forall a b, gt a b = true -> le b a) ->
  (forall a, le a a) ->
  (forall a b c, le a b -> le b c -> le a c) ->
  forall (l : list (A * K)) best,
    (py_max_from gt best l = best \/ py_max_from gt best l ∈ l) /\
    le (snd best) (snd (py_max_from gt best l)) /\
    (forall y, y ∈ l -> le (snd y) (snd (py_max_from gt best l))).
Proof.
  intros Hf Ht Hrefl Htrans.
  induction l as [|x l IH]; intros best; simpl.
  - split; [now left|]. split; [apply Hrefl|].
    intros y Hy. now apply elem_of_nil in Hy.
  - destruct (IH (if gt (snd x) (snd best) then x else best))
      as (Hin & Hle & Hall).
    destruct (gt (snd x) (snd best)) eqn:E.
    + split; [right; destruct Hin as [-> | Hin]; [left | now right]|].
      split; [apply (Htrans _ (snd x)); [now apply Ht | exact Hle]|].
      intros y Hy. apply elem_of_cons in Hy as [->|Hy]; [exact Hle|].
      now apply Hall.
    + split; [destruct Hin as [-> | Hin]; [now left | right; now right]|].
      split; [exact Hle|].
      intros y Hy. apply elem_of_cons in Hy as [->|Hy]; [|now apply Hall].
      apply (Htrans _ (snd best)); [now apply Hf | exact Hle].
Qed.

Lemma py_max_by_spec {A K : Type} (gt : K -> K -> bool)
    (le : K -> K -> Prop) (l : list (A * K)) (r : A * K) :
  (forall a b, gt a b = false -> le a b) ->
  (forall a b, gt a b = true -> le b a) ->
  (forall a, le a a) ->
  (forall a b c, le a b -> le b c -> le a c) ->
  py_max_by gt l = Some r ->
  r ∈ l /\ forall y, y ∈ l -> le (snd y) (snd r).
Proof.
  intros Hf Ht Hrefl Htrans. destruct l as [|x l]; simpl; [discriminate|].
  intros [= <-].
  destruct (py_max_from_spec gt le Hf Ht Hrefl Htrans l x)
    as (Hin & Hle & Hall).
  split.
  - destruct Hin as [-> | Hin]; [left | now right].
  - intros y Hy. apply elem_of_cons in Hy as [->|Hy]; [exact Hle|].
    now apply Hall.
Qed.

Lemma py_max_by_Z {A : Type} (l : list (A * Z)) (r : A * Z) :
  py_max_by Z.gtb l = Some r ->
  r ∈ l /\ forall y, y ∈ l -> snd y <= snd r.
Proof.
  apply (py_max_by_spec Z.gtb Z.le).
  - intros a b H. rewrite Z.gtb_ltb in H. apply Z.ltb_ge in H. lia.
  - intros a b H. rewrite Z.gtb_ltb in H. apply Z.ltb_lt in H. lia.
  - intros a. lia.
  - intros a b c. lia.
Qed.

Lemma py_max_by_Q {A : Type} (l : list (A * Q)) (r : A * Q) :
  py_max_by Qgtb l = Some r ->
  r ∈ l /\ forall y, y ∈ l -> (snd y <= snd r)%Q.
Proof.
  apply (py_max_by_spec Qgtb Qle).
  - intros a b H. unfold Qgtb in H. apply negb_false_iff in H.
    now apply Qle_bool_iff.
  - intros a b H. unfold Qgtb in H. apply negb_true_iff in H.
    destruct (Qlt_le_dec b a) as [Hlt|Hle]; [now apply Qlt_le_weak|].
    apply Qle_bool_iff in Hle. congruence.
  - intros a. apply Qle_refl.
  - intros a b c. apply Qle_trans.
Qed.

End PyMax.

Section MostVisited.

Variable sqrt : Q -> Q.
Variable Rng : Type.

(** X13: when [getMove] returns a move for a board with stones on it, the
    move is the action of a child of the root, and no child of the root
    has more visits than that child has when the search ends. *)
Theorem getMove_returns_most_visited_child
    (e : MCTS.Engine Rng) (w w' : MCTS.World Rng) (state : nat)
    (b : Board.t) (a : Z) :
  MCTS.boards Rng w !! state = Some b ->
  Board.is_empty b = false ->
  MCTS.getMove sqrt Rng e state w = (w', Ok a) ->
  exists r c nd,
    MCTS.tree Rng w' !! MCTS.root Rng e = Some r /\
    (a, c) ∈ MCTS.children r /\
    MCTS.tree Rng w' !! c = Some nd /\
    forall a' c' nd',
      (a', c') ∈ MCTS.children r ->
      MCTS.tree Rng w' !! c' = Some nd' ->
      MCTS.vis_times nd' <= MCTS.vis_times nd.
Proof.
  intros Hb Hne. unfold MCTS.getMove.
  unfold st_bind at 1. unfold MCTS.board_at at 1. rewrite Hb, Hne.
  unfold st_bind at 1.
  destruct (MCTS.playouts sqrt Rng e _ state w) as [w1 [[]|e1|]];
    try discriminate.
  unfold st_bind at 1. unfold MCTS.on_tree at 1. unfold MCTS.node_at.
  destruct (MCTS.tree Rng w1 !! MCTS.root Rng e) as [r|] eqn:Hr;
    [|discriminate].
  unfold st_bind at 1. unfold MCTS.on_tree at 1. simpl.
  set (items := omap _ (MCTS.children r)).
  destruct (py_max_by Z.gtb items) as [[a0 v]|] eqn:Hmax;
    [|discriminate].
  unfold st_ret. intros [= <- <-]. simpl.
  apply py_max_by_Z in Hmax as [Hin Hall]. unfold items in Hin.
  apply list_elem_of_omap in Hin as ([a1 c] & Hc & Heq). simpl in Heq.
  destruct (MCTS.tree Rng w1 !! c) as [nd|] eqn:Hnd; [|discriminate].
  injection Heq as -> <-.
  exists r, c, nd. split; [exact Hr|]. split; [exact Hc|].
  split; [exact Hnd|].
  intros a' c' nd' Hc' Hnd'.
  apply (Hall (a', MCTS.vis_times nd')). unfold items.
  apply list_elem_of_omap. exists (a', c'). split; [exact Hc'|].
  simpl. now rewrite Hnd'.
Qed.

End MostVisited.

(** ** Every node keeps its value within the bound during a search *)

Section Keeps.

Context {S : Type}.
Variable Inv : S -> Prop.

Lemma st_keeps_ret {A : Type} (Post : A -> Prop) (a : A) :
  Post a -> st_keeps Inv Post (st_ret a).
Proof. intros Ha s Hs. simpl. split; [exact Hs|]. now intros a' [= <-]. Qed.

Lemma st_keeps_raise {A : Type} (Post : A -> Prop) e :
  st_keeps Inv Post (@st_raise S A e).
Proof. intros s Hs. simpl. split; [exact Hs | discriminate]. Qed.

Lemma st_keeps_lift {A : Type} (Post : A -> Prop) (r : Res A) :
  (forall a, r = Ok a -> Post a) -> st_keeps Inv Post (st_lift r).
Proof. intros Hr s Hs. simpl. split; [exact Hs | exact Hr]. Qed.

Lemma st_keeps_get : st_keeps Inv Inv st_get.
Proof. intros s Hs. simpl. split; [exact Hs|]. now intros a [= <-]. Qed.

Lemma st_keeps_bind {A B : Type} (P : A -> Prop) (Q : B -> Prop)
    (c : St S A) (k : A -> St S B) :
  st_keeps Inv P c -> (forall a, P a -> st_keeps Inv Q (k a)) ->
  st_keeps Inv Q (st_bind c k).
Proof.
  intros Hc Hk s Hs. unfold st_bind. destruct (Hc s Hs) as [Hi Hp].
  destruct (c s) as [s1 [a|e|]]; simpl in *.
  - exact (Hk a (Hp a eq_refl) s1 Hi).
  - split; [exact Hi | discriminate].
  - split; [exact Hi | discriminate].
Qed.

Lemma st_keeps_weaken {A : Type} (P Q : A -> Prop) (c : St S A) :
  (forall a, P a -> Q a) -> st_keeps Inv P c -> st_keeps Inv Q c.
Proof.
  intros HPQ Hc s Hs. destruct (Hc s Hs) as [Hi Hp].
  split; [exact Hi|]. intros a Ha. now apply HPQ, Hp.
Qed.

End Keeps.

Section TreeBounded.

Import MCTS.

Local Open Scope Q_scope.

Lemma keeps_node_at self : st_keeps tree_bounded node_bounded (node_at self).
Proof.
  intros h Hh. unfold node_at. destruct (h !! self) as [nd|] eqn:E; simpl.
  - split; [exact Hh|]. intros a [= <-]. exact (Hh self nd E).
  - split; [exact Hh | discriminate].
Qed.

Lemma keeps_set_node self nd :
  node_bounded nd -> st_keeps tree_bounded (fun _ => True) (set_node self nd).
Proof.
  intros Hnd h Hh. unfold set_node. simpl. split; [|tauto].
  intros n nd'. destruct (decide (self = n)) as [->|Hne].
  - rewrite lookup_insert_eq. now intros [= <-].
  - rewrite lookup_insert_ne by exact Hne. apply Hh.
Qed.

Lemma keeps_update self v :
  -1 <= v <= 1 -> st_keeps tree_bounded (fun _ => True) (update self v).
Proof.
  intros Hv. unfold update.
  apply (st_keeps_bind _ node_bounded); [apply keeps_node_at|].
  intros nd [Hvis HQ].
  apply (st_keeps_bind _ (fun _ => True)).
  - apply keeps_set_node. split; simpl; [lia | exact HQ].
  - intros _ _. simpl.
    destruct (vis_times nd + 1 =? 0)%Z; [apply st_keeps_raise|].
    apply keeps_set_node. split; simpl; [lia|].
    exact (incremental_mean_bounded nd v Hvis HQ Hv).
Qed.

Lemma keeps_backPropagation_fuel fuel : forall self v,
  -1 <= v <= 1 ->
  st_keeps tree_bounded (fun _ => True) (backPropagation_fuel fuel self v).
Proof.
  induction fuel as [|fuel IH]; intros self v Hv; simpl.
  - now apply st_keeps_lift.
  - apply (st_keeps_bind _ (fun _ => True)); [now apply keeps_update|].
    intros _ _.
    apply (st_keeps_bind _ node_bounded); [apply keeps_node_at|].
    intros nd _. destruct (parent nd) as [p|].
    + apply IH. split; lra.
    + now apply st_keeps_ret.
Qed.

Lemma keeps_backPropagation self v :
  -1 <= v <= 1 ->
  st_keeps tree_bounded (fun _ => True) (backPropagation self v).
Proof.
  intros Hv h Hh. unfold backPropagation.
  exact (keeps_backPropagation_fuel _ self v Hv h Hh).
Qed.

Lemma keeps_expand self priors :
  st_keeps tree_bounded (fun _ => True) (expand self priors).
Proof.
  induction priors as [|[a q] priors IH]; simpl.
  - now apply st_keeps_ret.
  - apply (st_keeps_bind _ node_bounded); [apply keeps_node_at|].
    intros nd Hnd.
    apply (st_keeps_bind _ (fun _ => True)); [|intros _ _; exact IH].
    case_bool_decide; [now apply st_keeps_ret|].
    apply (st_keeps_bind _ tree_bounded); [apply st_keeps_get|].
    intros h _.
    apply (st_keeps_bind _ (fun _ => True)).
    + apply keeps_set_node. split; simpl; [lia | lra].
    + intros _ _. apply keeps_set_node. exact Hnd.
Qed.

Variable sqrt : Q -> Q.

Lemma keeps_evaluate self c :
  st_keeps tree_bounded (fun _ => True) (evaluate sqrt self c).
Proof.
  unfold evaluate.
  apply (st_keeps_bind _ node_bounded); [apply keeps_node_at|].
  intros nd Hnd. destruct (parent nd) as [p|]; [|apply st_keeps_raise].
  apply (st_keeps_bind _ node_bounded); [apply keeps_node_at|].
  intros pn _.
  apply (st_keeps_bind _ (fun _ => True)).
  - apply keeps_set_node. exact Hnd.
  - intros _ _. now apply st_keeps_ret.
Qed.

Lemma keeps_evaluate_items items c :
  st_keeps tree_bounded (fun _ => True) (evaluate_items sqrt items c).
Proof.
  induction items as [|[a ch] items IH]; simpl.
  - now apply st_keeps_ret.
  - apply (st_keeps_bind _ (fun _ => True)); [apply keeps_evaluate|].
    intros score _.
    apply (st_keeps_bind _ (fun _ => True)); [exact IH|].
    intros scored _. now apply st_keeps_ret.
Qed.

Lemma keeps_select self c :
  st_keeps tree_bounded (fun _ => True) (select sqrt self c).
Proof.
  unfold select.
  apply (st_keeps_bind _ node_bounded); [apply keeps_node_at|].
  intros nd _.
  apply (st_keeps_bind _ (fun _ => True)); [apply keeps_evaluate_items|].
  intros scored _.
  destruct (py_max_by Qgtb scored) as [[item s]|];
    [now apply st_keeps_ret | apply st_keeps_raise].
Qed.

Variable Rng : Type.

Lemma keeps_on_tree_bounded {A : Type} (P : A -> Prop) (c : St Tree A) :
  st_keeps tree_bounded P c -> st_keeps world_bounded P (on_tree Rng c).
Proof.
  intros Hc w Hw. unfold on_tree. destruct (Hc (tree Rng w) Hw) as [Hi Hp].
  destruct (c (tree Rng w)) as [h r]. simpl in *. split; assumption.
Qed.

Lemma keeps_board_at_bounded state :
  st_keeps world_bounded (fun _ => True) (board_at Rng state).
Proof.
  intros w Hw. unfold board_at.
  destruct (boards Rng w !! state); simpl; split; auto; discriminate.
Qed.

Lemma keeps_on_board_bounded {A : Type} state
    (f : Board.t -> Board.t * Res A) :
  st_keeps world_bounded (fun _ => True) (on_board Rng state f).
Proof.
  intros w Hw. unfold on_board.
  destruct (boards Rng w !! state) as [b|]; simpl; [|split; auto].
  destruct (f b) as [b' r]. simpl. split; auto.
Qed.

Lemma keeps_deepcopy_bounded state :
  st_keeps world_bounded (fun _ => True) (deepcopy Rng state).
Proof.
  unfold deepcopy.
  apply (st_keeps_bind _ (fun _ => True)); [apply keeps_board_at_bounded|].
  intros b _ w Hw. simpl. split; auto.
Qed.

Lemma keeps_call_rollout_policy_bounded e state :
  st_keeps world_bounded (fun _ => True) (call_rollout_policy Rng e state).
Proof.
  unfold call_rollout_policy.
  apply (st_keeps_bind _ (fun _ => True)); [apply keeps_board_at_bounded|].
  intros b _ w Hw. simpl.
  destruct (rollout_policy Rng e (rng Rng w) b). simpl. split; auto.
Qed.

Lemma keeps_rollout_loop_bounded e state limit : forall wc,
  st_keeps world_bounded (fun _ => True) (rollout_loop Rng e limit state wc).
Proof.
  induction limit as [|limit IH]; intros wc; simpl.
  - now apply st_keeps_ret.
  - apply (st_keeps_bind _ (fun _ => True)); [apply keeps_board_at_bounded|].
    intros b _.
    apply (st_keeps_bind _ (fun _ => True)); [now apply st_keeps_lift|].
    intros ended _. destruct (fst ended); [now apply st_keeps_ret|].
    apply (st_keeps_bind _ (fun _ => True));
      [apply keeps_call_rollout_policy_bounded|].
    intros aps _.
    destruct (py_max_by Qgtb aps) as [[a q]|]; [|apply st_keeps_raise].
    apply (st_keeps_bind _ (fun _ => True)); [apply keeps_on_board_bounded|].
    intros _ _. apply IH.
Qed.

(** The rollout returns 1, 0 or -1. *)
Lemma keeps_evaluateRollout_bounded e state limit :
  st_keeps world_bounded (fun v => v = 1 \/ v = 0 \/ v = -1)%Z
    (evaluateRollout Rng e state limit).
Proof.
  unfold evaluateRollout.
  apply (st_keeps_bind _ (fun _ => True)); [apply keeps_board_at_bounded|].
  intros b _.
  apply (st_keeps_bind _ (fun _ => True)); [apply keeps_rollout_loop_bounded|].
  intros wc _. destruct wc as [[win|]|].
  - apply st_keeps_ret. destruct (win =? Board.current_player b)%Z; tauto.
  - apply st_keeps_ret. tauto.
  - apply st_keeps_raise.
Qed.

Lemma keeps_descend_bounded e state fuel : forall node,
  st_keeps world_bounded (fun _ => True) (descend sqrt Rng e fuel node state).
Proof.
  induction fuel as [|fuel IH]; intros node; simpl.
  - now apply st_keeps_lift.
  - apply (st_keeps_bind _ node_bounded);
      [apply keeps_on_tree_bounded, keeps_node_at|].
    intros nd _. destruct (is_leaf nd); [now apply st_keeps_ret|].
    apply (st_keeps_bind _ (fun _ => True));
      [apply keeps_on_tree_bounded, keeps_select|].
    intros item _.
    apply (st_keeps_bind _ (fun _ => True)); [apply keeps_on_board_bounded|].
    intros _ _. apply IH.
Qed.

Lemma keeps_playout_bounded e state :
  st_keeps world_bounded (fun _ => True) (playout sqrt Rng e state).
Proof.
  unfold playout.
  apply (st_keeps_bind _ world_bounded); [apply st_keeps_get|].
  intros w0 _.
  apply (st_keeps_bind _ (fun _ => True)); [apply keeps_descend_bounded|].
  intros node _.
  apply (st_keeps_bind _ (fun _ => True)); [apply keeps_board_at_bounded|].
  intros b _.
  apply (st_keeps_bind _ (fun _ => True)); [now apply st_keeps_lift|].
  intros ended _.
  apply (st_keeps_bind _ node_bounded);
    [apply keeps_on_tree_bounded, keeps_node_at|].
  intros nd _.
  apply (st_keeps_bind _ (fun _ => True)).
  - destruct (negb (fst ended) && (vis_times nd >=? expand_bound Rng e)%Z).
    + apply keeps_on_tree_bounded, keeps_expand.
    + now apply st_keeps_ret.
  - intros _ _.
    apply (st_keeps_bind _ (fun v => v = 1 \/ v = 0 \/ v = -1)%Z);
      [apply keeps_evaluateRollout_bounded|].
    intros v Hv. apply keeps_on_tree_bounded, keeps_backPropagation.
    destruct Hv as [->|[->| ->]]; split; unfold Qle; simpl; lia.
Qed.

Lemma keeps_playouts_bounded e state n :
  st_keeps world_bounded (fun _ => True) (playouts sqrt Rng e n state).
Proof.
  induction n as [|n IH]; simpl.
  - now apply st_keeps_ret.
  - apply (st_keeps_bind _ (fun _ => True)); [apply keeps_deepcopy_bounded|].
    intros c _.
    apply (st_keeps_bind _ (fun _ => True)); [apply keeps_playout_bounded|].
    intros _ _. exact IH.
Qed.

(** X14: if every node of the tree has a visit count that is not negative
    and a value between -1 and 1 before a playout or before [getMove], it
    is so afterwards, whether the call returns or raises: the rollout yields
    1, 0 or -1, and backpropagation and expansion keep the bound.  A tree
    that consists of a new root satisfies the condition. *)
Theorem search_keeps_values_bounded
    (e : Engine Rng) (state : nat) (w : World Rng) :
  tree_bounded (tree Rng w) ->
  tree_bounded (tree Rng (fst (playout sqrt Rng e state w))) /\
  tree_bounded (tree Rng (fst (getMove sqrt Rng e state w))) /\
  (forall root parent prior,
     tree_bounded {[ root := new_node parent prior ]}).
Proof.
  intros Hw. split; [|split].
  - exact (proj1 (keeps_playout_bounded e state w Hw)).
  - assert (Hk : st_keeps world_bounded (fun _ => True)
                   (getMove sqrt Rng e state)); [|exact (proj1 (Hk w Hw))].
    unfold getMove.
    apply (st_keeps_bind _ (fun _ => True)); [apply keeps_board_at_bounded|].
    intros b _. destruct (Board.is_empty b); [now apply st_keeps_ret|].
    apply (st_keeps_bind _ (fun _ => True)); [apply keeps_playouts_bounded|].
    intros _ _.
    apply (st_keeps_bind _ node_bounded);
      [apply keeps_on_tree_bounded, keeps_node_at|].
    intros r _.
    apply (st_keeps_bind _ (fun _ => True)).
    + intros w1 Hw1. simpl. split; auto.
    + intros items _.
      destruct (py_max_by Z.gtb items) as [[a v]|];
        [now apply st_keeps_ret | apply st_keeps_raise].
  - intros root parent prior n nd Hn.
    apply lookup_singleton_Some in Hn as [_ <-]. split; simpl; [lia | lra].
Qed.

End TreeBounded.

Lemma getMove_returns_most_visited_child_witness :
  exists r c nd,
    MCTS.tree nat
      (fst (MCTS.getMove (fun q => q) nat small_engine 7%nat
              (toy_world board3_one))) !! MCTS.root nat small_engine
      = Some r /\
    (0, c) ∈ MCTS.children r /\
    MCTS.tree nat
      (fst (MCTS.getMove (fun q => q) nat small_engine 7%nat
              (toy_world board3_one))) !! c = Some nd /\
    forall a' c' nd',
      (a', c') ∈ MCTS.children r ->
      MCTS.tree nat
        (fst (MCTS.getMove (fun q => q) nat small_engine 7%nat
                (toy_world board3_one))) !! c' = Some nd' ->
      MCTS.vis_times nd' <= MCTS.vis_times nd.
Proof.
  assert (H : MCTS.getMove (fun q => q) nat small_engine 7%nat
                (toy_world board3_one)
              = (fst (MCTS.getMove (fun q => q) nat small_engine 7%nat
                        (toy_world board3_one)), Ok 0)).
  { vm_compute. reflexivity. }
  exact (getMove_returns_most_visited_child (fun q => q) nat small_engine
           (toy_world board3_one) _ 7%nat board3_one 0
           eq_refl eq_refl H).
Defined.

Lemma search_keeps_values_bounded_witness :
  tree_bounded
    (MCTS.tree nat
       (fst (MCTS.getMove (fun q => q) nat toy_engine 7%nat
               (toy_world board_win_then_one)))).
Proof.
  assert (H : tree_bounded (MCTS.tree nat (toy_world board_win_then_one))).
  { intros n nd Hn. unfold toy_world in Hn. simpl in Hn.
    apply lookup_singleton_Some in Hn as [_ <-].
    split; simpl; [lia | lra]. }
  exact (proj1 (proj2 (search_keeps_values_bounded (fun q => q) nat
                         toy_engine 7%nat (toy_world board_win_then_one) H))).
Defined.

(** ** The selection rule *)

Section Select.

Import MCTS.

Variable sqrt : Q -> Q.

Lemma core_eq_refl nd : core_eq nd nd.
Proof. unfold core_eq. tauto. Qed.

Lemma same_but_U_refl h : same_but_U h h.
Proof. intros n. destruct (h !! n); [apply core_eq_refl | exact I]. Qed.

Lemma same_but_U_trans h1 h2 h3 :
  same_but_U h1 h2 -> same_but_U h2 h3 -> same_but_U h1 h3.
Proof.
  intros H12 H23 n. specialize (H12 n). specialize (H23 n).
  destruct (h1 !! n), (h2 !! n), (h3 !! n); try tauto.
  unfold core_eq in *. intuition congruence.
Qed.

Lemma uct_score_same h h' c child :
  same_but_U h h' -> uct_score sqrt h' c child = uct_score sqrt h c child.
Proof.
  intros H. unfold uct_score. pose proof (H child) as Hc.
  destruct (h !! child) as [nd|], (h' !! child) as [nd'|]; try tauto.
  destruct Hc as (Hp & _ & Hv & HQ & HP). rewrite Hp.
  destruct (parent nd) as [p|]; [|reflexivity].
  pose proof (H p) as Hpn.
  destruct (h !! p) as [pn|], (h' !! p) as [pn'|]; try tauto.
  destruct Hpn as (_ & _ & Hpv & _). now rewrite Hv, HQ, HP, Hpv.
Qed.

(** [evaluate] computes the score and stores nothing but [_U]. *)
Lemma evaluate_spec self c h :
  same_but_U h (fst (evaluate sqrt self c h)) /\
  (forall s, snd (evaluate sqrt self c h) = Ok s <->
             uct_score sqrt h c self = Some s).
Proof.
  unfold evaluate, uct_score, st_bind, node_at, set_node, st_raise, st_ret.
  destruct (h !! self) as [nd|] eqn:Hn; simpl.
  2:{ split; [apply same_but_U_refl|]. intros s. split; discriminate. }
  destruct (parent nd) as [p|] eqn:Hp; simpl.
  2:{ split; [apply same_but_U_refl|]. intros s. split; discriminate. }
  destruct (h !! p) as [pn|] eqn:Hpn; simpl.
  2:{ split; [apply same_but_U_refl|]. intros s. split; discriminate. }
  split.
  - intros n. destruct (decide (self = n)) as [<-|Hne].
    + rewrite Hn, lookup_insert_eq. unfold core_eq. simpl.
      repeat split; congruence.
    + rewrite lookup_insert_ne by exact Hne.
      destruct (h !! n); [apply core_eq_refl | exact I].
  - intros s. split; intros [= <-]; reflexivity.
Qed.

Lemma evaluate_items_spec items c : forall h h' scored,
  evaluate_items sqrt items c h = (h', Ok scored) ->
  same_but_U h h' /\
  scored.*1 = items /\
  (forall item s, (item, s) ∈ scored ->
     uct_score sqrt h c (snd item) = Some s).
Proof.
  induction items as [|[a ch] items IH]; intros h h' scored; simpl.
  - unfold st_ret. intros [= <- <-]. split; [apply same_but_U_refl|].
    split; [reflexivity|]. intros item s H. now apply elem_of_nil in H.
  - unfold st_bind at 1.
    destruct (evaluate_spec ch c h) as [Hsame Hscore].
    destruct (evaluate sqrt ch c h) as [h1 [s1| |]]; simpl in *;
      try discriminate.
    unfold st_bind at 1.
    destruct (evaluate_items sqrt items c h1) as [h2 [sc| |]] eqn:E;
      try discriminate.
    unfold st_ret. intros [= <- <-].
    destruct (IH h1 h2 sc E) as (Hsame2 & Hfst & Hall).
    split; [now apply (same_but_U_trans h h1 h2)|].
    split; [rewrite fmap_cons; simpl fst; now f_equal|].
    intros item s Hin. apply elem_of_cons in Hin as [[= -> ->]|Hin].
    + simpl. now apply Hscore.
    + rewrite <- (uct_score_same h h1 c (snd item) Hsame). now apply Hall.
Qed.

Lemma evaluate_items_total items c : forall h,
  (forall a ch, (a, ch) ∈ items -> is_Some (uct_score sqrt h c ch)) ->
  exists h' scored, evaluate_items sqrt items c h = (h', Ok scored).
Proof.
  induction items as [|[a ch] items IH]; intros h Hall; simpl.
  - eexists _, _. reflexivity.
  - unfold st_bind at 1.
    destruct (evaluate_spec ch c h) as [Hsame Hscore].
    destruct (Hall a ch ltac:(left)) as [s Hs].
    apply Hscore in Hs.
    destruct (evaluate sqrt ch c h) as [h1 r1]. simpl in *. subst r1.
    unfold st_bind at 1.
    destruct (IH h1) as (h2 & sc & E).
    + intros a' ch' Hin. rewrite (uct_score_same h h1 c ch' Hsame).
      apply (Hall a' ch'). now right.
    + rewrite E. eexists _, _. reflexivity.
Qed.

(** X15: when [select] on a node returns, it returns one of the children
    of the node, and the score [Q + c * P * sqrt(N_parent) / (1 + N)] of
    that child is not exceeded by the score of any child; the call changes
    nothing in the tree but the stored [_U] of the children.  It does return
    when the node has a child and every child is a node of the tree whose
    parent is one. *)
Theorem select_maximises_score
    (h : gmap nat Node) (self : nat) (nd : Node) (c : Q) :
  h !! self = Some nd ->
  (forall h' a ch,
     select sqrt self c h = (h', Ok (a, ch)) ->
     (a, ch) ∈ children nd /\
     same_but_U h h' /\
     exists s, uct_score sqrt h c ch = Some s /\
       forall a' ch' s',
         (a', ch') ∈ children nd ->
         uct_score sqrt h c ch' = Some s' -> (s' <= s)%Q) /\
  (children nd <> [] ->
   (forall a ch, (a, ch) ∈ children nd ->
      is_Some (uct_score sqrt h c ch)) ->
   exists h' item, select sqrt self c h = (h', Ok item)).
Proof.
  intros Hn. split.
  - intros h' a ch. unfold select. unfold st_bind at 1. unfold node_at at 1.
    rewrite Hn. unfold st_bind at 1.
    destruct (evaluate_items sqrt (children nd) c h) as [h1 [sc| |]] eqn:E;
      try discriminate.
    destruct (evaluate_items_spec _ c h h1 sc E) as (Hsame & Hfst & Hall).
    destruct (py_max_by Qgtb sc) as [[item s]|] eqn:Hmax; [|discriminate].
    unfold st_ret. intros [= <- ->].
    apply py_max_by_Q in Hmax as [Hin Hle].
    split.
    + rewrite <- Hfst. apply list_elem_of_fmap. exists ((a, ch), s).
      split; [reflexivity | exact Hin].
    + split; [exact Hsame|]. exists s.
      split; [exact (Hall (a, ch) s Hin)|].
      intros a' ch' s' Hin' Hs'.
      rewrite <- Hfst in Hin'. apply list_elem_of_fmap in Hin'
        as ([item' s0] & Heq & Hin0). simpl in Heq. subst item'.
      pose proof (Hall (a', ch') s0 Hin0) as Hs0. simpl in Hs0.
      assert (s0 = s') by congruence. subst s0.
      exact (Hle ((a', ch'), s') Hin0).
  - intros Hne Hsc. unfold select. unfold st_bind at 1. unfold node_at at 1.
    rewrite Hn. unfold st_bind at 1.
    destruct (evaluate_items_total (children nd) c h Hsc) as (h1 & sc & E).
    rewrite E.
    destruct (evaluate_items_spec _ c h h1 sc E) as (_ & Hfst & _).
    destruct sc as [|[item s] sc].
    + simpl in Hfst. congruence.
    + simpl. destruct (py_max_from Qgtb (item, s) sc) as [item' s'].
      eexists _, _. reflexivity.
Qed.

End Select.


(** ** Following the game in the tree *)

Section TreeReuse.

Import MCTS.

Variable Rng : Type.

Lemma dict_get_Some key items c :
  dict_get key items = Some c -> (key, c) ∈ items.
Proof.
  induction items as [|[k v] items IH]; simpl; [discriminate|].
  case_bool_decide as E.
  - intros [= <-]. subst. left.
  - intros H. right. now apply IH.
Qed.

Lemma dict_get_None key items :
  dict_get key items = None <-> key ∉ items.*1.
Proof.
  induction items as [|[k v] items IH]; simpl.
  - split; [intros _; apply not_elem_of_nil | reflexivity].
  - rewrite not_elem_of_cons. case_bool_decide as E.
    + split; [discriminate | intros [H _]; congruence].
    + rewrite IH. split; [intros H; split; [congruence | exact H] | tauto].
Qed.

(** X16: [updateWithMove] and [reset] on a tree whose root exists return.
    When the move is the action of a child of the root, that child becomes
    the root with its parent link cleared and its children and statistics
    as they were, and no other node changes, so the subtree under it is
    kept; when it is not (or is [None]), and for [reset], the root becomes
    a new object without parent, children or visits, and no existing node
    changes. *)
Theorem updateWithMove_keeps_the_subtree
    (e : Engine Rng) (h : gmap nat Node) (r : Node) (last_move : option Z) :
  h !! root Rng e = Some r ->
  (forall m c cn,
     last_move = Some m -> dict_get m (children r) = Some c ->
     h !! c = Some cn ->
     exists h',
       updateWithMove Rng e last_move h = (h', Ok (set_root Rng e c)) /\
       (m, c) ∈ children r /\
       (exists cn', h' !! c = Some cn' /\ parent cn' = None /\
                    children cn' = children cn /\
                    vis_times cn' = vis_times cn /\
                    Q_value cn' = Q_value cn /\ P_value cn' = P_value cn) /\
       (forall n, n <> c -> h' !! n = h !! n)) /\
  ((last_move = None \/
    exists m, last_move = Some m /\ m ∉ (children r).*1) ->
   exists h' r',
     updateWithMove Rng e last_move h = (h', Ok (set_root Rng e r')) /\
     h !! r' = None /\ h' !! r' = Some (new_node None 1) /\
     (forall n, n <> r' -> h' !! n = h !! n)) /\
  (exists h' r',
     reset Rng e h = (h', Ok (set_root Rng e r')) /\
     h !! r' = None /\ h' !! r' = Some (new_node None 1) /\
     (forall n, n <> r' -> h' !! n = h !! n)).
Proof.
  intros Hr.
  assert (Hfresh : exists h' r',
            fresh_root Rng e h = (h', Ok (set_root Rng e r')) /\
            h !! r' = None /\ h' !! r' = Some (new_node None 1) /\
            (forall n, n <> r' -> h' !! n = h !! n)).
  { eexists _, (fresh (dom h)). split; [reflexivity|].
    split; [apply not_elem_of_dom, is_fresh|].
    split; [apply lookup_insert_eq|].
    intros n Hn. now rewrite lookup_insert_ne. }
  split; [|split; [|exact Hfresh]].
  - intros m c cn -> Hget Hc. unfold updateWithMove.
    unfold st_bind at 1. unfold node_at at 1. rewrite Hr, Hget.
    unfold st_bind at 1. unfold node_at at 1. rewrite Hc.
    unfold st_bind, set_node, st_ret. simpl.
    eexists. split; [reflexivity|].
    split; [now apply dict_get_Some|]. split.
    + eexists. split; [apply lookup_insert_eq|]. simpl. tauto.
    + intros n Hn. now rewrite lookup_insert_ne.
  - intros Hcase. unfold updateWithMove.
    unfold st_bind at 1. unfold node_at at 1. rewrite Hr.
    destruct Hcase as [-> | (m & -> & Hm)]; [exact Hfresh|].
    apply dict_get_None in Hm. rewrite Hm. exact Hfresh.
Qed.

End TreeReuse.

Lemma updateWithMove_keeps_the_subtree_witness :
  exists h',
    MCTS.updateWithMove nat toy_engine (Some 112) toy_tree
      = (h', Ok (MCTS.set_root nat toy_engine 1%nat)) /\
    (112, 1%nat) ∈ [(112, 1%nat)] /\
    (exists cn', h' !! 1%nat = Some cn' /\ MCTS.parent cn' = None /\
                 MCTS.children cn' = [(113, 2%nat)] /\
                 MCTS.vis_times cn' = 2 /\
                 MCTS.Q_value cn' = (-1 # 2)%Q /\
                 MCTS.P_value cn' = (1 # 2)%Q) /\
    (forall n, n <> 1%nat -> h' !! n = toy_tree !! n).
Proof.
  destruct (updateWithMove_keeps_the_subtree nat toy_engine toy_tree
              (MCTS.mkNode None [(112, 1%nat)] 3 (1 # 3) 0 1) (Some 112)
              eq_refl) as [H _].
  exact (H 112 1%nat
           (MCTS.mkNode (Some 0%nat) [(113, 2%nat)] 2 (-1 # 2) 0 (1 # 2))
           eq_refl eq_refl eq_refl).
Defined.

(** ** The rollout plays the game to its end *)

Section Rollout.

Import MCTS.

Variable Rng : Type.
Variable rand : Rng -> nat -> list Q * Rng.
Hypothesis rand_length : forall g n, length (rand g n).1 = n.

Lemma play_available b m :
  Board_inv b -> m ∈ Board.availables b ->
  exists b',
    Board.play b m = (b', Ok true) /\ Board_inv b' /\
    S (length (Board.availables b')) = length (Board.availables b) /\
    Board.moved b' = Board.moved b ++ [m].
Proof.
  intros I Hin.
  assert (Hnin : m ∉ Board.moved b)
    by (apply (inv_avail b I) in Hin; tauto).
  destruct (list_remove m (Board.availables b)) as [av|] eqn:E.
  2:{ apply list_remove_None in E. contradiction. }
  assert (Hp : exists b', Board.play b m = (b', Ok true) /\
                 Board.availables b' = av /\
                 Board.moved b' = Board.moved b ++ [m]).
  { unfold Board.play. rewrite bool_decide_eq_false_2 by exact Hnin.
    simpl. rewrite E. eexists. repeat split. }
  destruct Hp as (b' & Hp & Hav & Hmv). exists b'.
  split; [exact Hp|]. split; [exact (Board_inv_play b m b' I Hp)|].
  split; [|exact Hmv]. rewrite Hav.
  apply list_remove_Some, Permutation_length in E. simpl in E. lia.
Qed.

Lemma gameEnd_total b :
  Board_inv b ->
  exists ended winner,
    Board.gameEnd b = Ok (ended, winner) /\
    (ended = false -> Board.availables b <> []).
Proof.
  intros I. destruct (fastGetWinner_total b I) as [fast Hfast].
  unfold Board.gameEnd. rewrite Hfast. cbn [res_bind].
  destruct fast as [p|]; [eexists _, _; split; [reflexivity | discriminate]|].
  destruct (Board.availables b) eqn:E.
  - eexists _, _. split; [reflexivity | discriminate].
  - eexists _, _. split; [reflexivity | intros _; discriminate].
Qed.

(** The move the rollout picks is one of the available moves. *)
Lemma rollout_choice g b :
  Board.availables b <> [] ->
  exists a q,
    py_max_by Qgtb (rollout_policy_fn Rng rand g b).1 = Some (a, q) /\
    a ∈ Board.availables b.
Proof.
  intros Hne. unfold rollout_policy_fn.
  pose proof (rand_length g (length (Board.availables b))) as Hlen.
  destruct (rand g (length (Board.availables b))) as [ps g']. simpl in *.
  destruct (Board.availables b) as [|x av] eqn:E; [contradiction|].
  destruct ps as [|p ps]; [discriminate|]. simpl.
  destruct (py_max_from Qgtb (x, p) (zip av ps)) as [a q] eqn:Hmax.
  exists a, q. split; [reflexivity|].
  assert (Hin : (a, q) ∈ zip (x :: av) (p :: ps)).
  { apply (py_max_by_Q (zip (x :: av) (p :: ps)) (a, q)).
    simpl. now rewrite Hmax. }
  exact (elem_of_zip_l _ _ _ _ Hin).
Qed.

Variable e : Engine Rng.
Hypothesis e_rollout : rollout_policy Rng e = rollout_policy_fn Rng rand.

Lemma rollout_loop_ends limit : forall (w : World Rng) state b wc,
  boards Rng w !! state = Some b ->
  Board_inv b ->
  (length (Board.availables b) < limit)%nat ->
  exists w' b' winner,
    rollout_loop Rng e limit state wc w = (w', Ok (Some winner)) /\
    boards Rng w' !! state = Some b' /\
    Board_inv b' /\
    Board.gameEnd b' = Ok (true, winner) /\
    Board.moved b `prefix_of` Board.moved b' /\
    tree Rng w' = tree Rng w /\
    (forall l, l <> state -> boards Rng w' !! l = boards Rng w !! l).
Proof.
  induction limit as [|limit IH]; intros w state b wc Hb I Hlen; [lia|].
  simpl. unfold st_bind at 1. unfold board_at at 1. rewrite Hb.
  destruct (gameEnd_total b I) as (ended & winner & Hg & Hav).
  unfold st_bind at 1. unfold st_lift at 1. rewrite Hg. simpl fst.
  destruct ended.
  - exists w, b, winner. unfold st_ret. simpl.
    split; [reflexivity|]. split; [exact Hb|]. split; [exact I|].
    split; [exact Hg|]. split; [reflexivity|]. split; reflexivity.
  - specialize (Hav eq_refl). cbn [fst snd].
    unfold st_bind at 1. unfold call_rollout_policy.
    unfold st_bind at 1. unfold board_at at 1. rewrite Hb.
    rewrite e_rollout.
    destruct (rollout_choice (rng Rng w) b Hav) as (a & q & Hmax & Hin).
    destruct (rollout_policy_fn Rng rand (rng Rng w) b) as [aps g'] eqn:Hpol.
    simpl in Hmax. rewrite Hmax.
    destruct (play_available b a I Hin) as (b1 & Hplay & I1 & Hl1 & Hm1).
    unfold st_bind at 1. unfold on_board at 1. simpl boards.
    rewrite Hb, Hplay.
    set (w1 := {| boards := <[state := b1]> (boards Rng w);
                  tree := tree Rng w; rng := g' |}).
    destruct (IH w1 state b1 (Some (snd (false, winner))))
      as (w' & b' & winner' & Hrun & Hb' & I' & Hg' & Hpre & Ht & Hfr).
    + unfold w1. simpl. apply lookup_insert_eq.
    + exact I1.
    + lia.
    + exists w', b', winner'. split; [exact Hrun|].
      split; [exact Hb'|]. split; [exact I'|]. split; [exact Hg'|].
      split; [|split].
      * transitivity (Board.moved b1); [|exact Hpre].
        rewrite Hm1. now apply prefix_app_r.
      * rewrite Ht. reflexivity.
      * intros l Hl. rewrite (Hfr l Hl). unfold w1. simpl.
        now rewrite lookup_insert_ne.
Qed.

(** X17: with the rollout policy of the pure engine, a random generator
    that hands out as many numbers as it is asked for, and a consistent
    board with fewer available moves than the limit (1000 in the engine),
    [_evaluateRollout] returns, after playing the board to the end of the
    game with legal moves only: the board it leaves is consistent, extends
    the history it found, and [gameEnd] reports it finished.  The value is
    0 for a game without winner, 1 if the winner is the player who was to
    move when the rollout began and -1 otherwise; the tree and the other
    boards are untouched. *)
Theorem rollout_plays_to_the_end
    (w : World Rng) (state : nat) (b : Board.t) (limit : nat) :
  boards Rng w !! state = Some b ->
  Board_inv b ->
  (length (Board.availables b) < limit)%nat ->
  exists w' b' winner,
    evaluateRollout Rng e state limit w
      = (w', Ok (match winner with
                 | None => 0
                 | Some p => if p =? Board.current_player b then 1 else -1
                 end)) /\
    boards Rng w' !! state = Some b' /\
    Board_inv b' /\
    Board.gameEnd b' = Ok (true, winner) /\
    Board.moved b `prefix_of` Board.moved b' /\
    tree Rng w' = tree Rng w /\
    (forall l, l <> state -> boards Rng w' !! l = boards Rng w !! l).
Proof.
  intros Hb I Hlen. unfold evaluateRollout.
  unfold st_bind at 1. unfold board_at at 1. rewrite Hb.
  destruct (rollout_loop_ends limit w state b None Hb I Hlen)
    as (w' & b' & winner & Hrun & Hb' & I' & Hg & Hpre & Ht & Hfr).
  unfold st_bind at 1. rewrite Hrun.
  exists w', b', winner. split.
  - destruct winner as [p|]; reflexivity.
  - tauto.
Qed.

End Rollout.

Lemma toy_rand_length (g n : nat) : length (toy_rand g n).1 = n.
Proof. unfold toy_rand. simpl. now rewrite length_map, length_seq. Qed.

Lemma rollout_plays_to_the_end_witness :
  exists w' b' winner,
    MCTS.evaluateRollout nat toy_engine 7%nat 1000 (toy_world board15)
      = (w', Ok (match winner with
                 | None => 0
                 | Some p => if p =? Board.current_player board15
                             then 1 else -1
                 end)) /\
    MCTS.boards nat w' !! 7%nat = Some b' /\
    Board_inv b' /\
    Board.gameEnd b' = Ok (true, winner) /\
    Board.moved board15 `prefix_of` Board.moved b' /\
    MCTS.tree nat w' = MCTS.tree nat (toy_world board15) /\
    (forall l, l <> 7%nat ->
       MCTS.boards nat w' !! l = MCTS.boards nat (toy_world board15) !! l).
Proof.
  apply (rollout_plays_to_the_end nat toy_rand toy_rand_length toy_engine
           eq_refl (toy_world board15) 7%nat board15 1000).
  - reflexivity.
  - apply (Board_inv_initBoard 15 15 5 None); auto; lia.
  - vm_compute. lia.
Defined.

(** ** One playout, from the root to a leaf and back *)

Section Playout.

Import MCTS.

Variable sqrt : Q -> Q.
Variable Rng : Type.
Variable rand : Rng -> nat -> list Q * Rng.
Hypothesis rand_length : forall g n, length (rand g n).1 = n.
Variable e : Engine Rng.
Hypothesis e_rollout : rollout_policy Rng e = rollout_policy_fn Rng rand.
Hypothesis e_expand : expand_policy Rng e = MCTS_expand_policy_fn.

Lemma st_bind_ok {S A B : Type} (c : St S A) (k : A -> St S B) s s' a :
  c s = (s', Ok a) -> st_bind c k s = k a s'.
Proof. intros H. unfold st_bind. now rewrite H. Qed.

Lemma on_tree_ok {A : Type} (c : St (gmap nat Node) A) (w : World Rng) h a :
  c (tree Rng w) = (h, Ok a) ->
  on_tree Rng c w
    = ({| boards := boards Rng w; tree := h; rng := rng Rng w |}, Ok a).
Proof. intros H. unfold on_tree. now rewrite H. Qed.

(** A move inside the board never makes [play] raise on a consistent
    board: it is refused or it is played. *)
Lemma play_in_range b m :
  Board_inv b -> 0 <= m < Board.width b * Board.height b ->
  exists b' r,
    Board.play b m = (b', Ok r) /\ Board_inv b' /\
    Board.width b' = Board.width b /\ Board.height b' = Board.height b /\
    (length (Board.availables b') <= length (Board.availables b))%nat.
Proof.
  intros I Hr. destruct (decide (m ∈ Board.moved b)) as [Hin|Hnin].
  - exists b, false. unfold Board.play.
    rewrite bool_decide_eq_true_2 by exact Hin. auto.
  - assert (Hav : m ∈ Board.availables b) by (apply (inv_avail b I); tauto).
    destruct (play_available b m I Hav) as (b' & Hp & I' & Hl & _).
    exists b', true. split; [exact Hp|]. split; [exact I'|].
    apply play_true_inv in Hp as (_ & av & _ & ->). simpl in *.
    repeat split; lia.
Qed.

(** A path stays a path when its nodes keep their parents. *)
Lemma path_to_root_ext (h h' : gmap nat Node) path :
  (forall n nd, n ∈ path -> h !! n = Some nd ->
     exists nd', h' !! n = Some nd' /\ parent nd' = parent nd) ->
  path_to_root h path -> path_to_root h' path.
Proof.
  intros H Hp.
  induction Hp as [m md Hm Hpm | m md p rest Hm Hpm Hrest IH].
  - destruct (H m md) as (md' & Hm' & Hp'); [left | exact Hm |].
    apply (path_root _ m md'); [exact Hm' | congruence].
  - destruct (H m md) as (md' & Hm' & Hp'); [left | exact Hm |].
    apply (path_step _ m md' p); [exact Hm' | congruence |].
    apply IH. intros n nd Hin. apply H. now right.
Qed.

Lemma same_but_U_lookup h h' n nd :
  same_but_U h h' -> h !! n = Some nd ->
  exists nd', h' !! n = Some nd' /\ core_eq nd nd'.
Proof.
  intros H Hn. specialize (H n). rewrite Hn in H.
  destruct (h' !! n) as [nd'|]; [eauto | contradiction].
Qed.

Lemma same_but_U_lookup_inv h h' n nd' :
  same_but_U h h' -> h' !! n = Some nd' ->
  exists nd, h !! n = Some nd /\ core_eq nd nd'.
Proof.
  intros H Hn. specialize (H n). rewrite Hn in H.
  destruct (h !! n) as [nd|]; [eauto | contradiction].
Qed.

Lemma same_but_U_size (h h' : gmap nat Node) :
  same_but_U h h' -> size h' = size h.
Proof.
  intros H. rewrite <- !size_dom. f_equal. apply set_eq. intros n.
  rewrite !elem_of_dom. specialize (H n).
  destruct (h !! n), (h' !! n); try contradiction;
    split; intros [x Hx]; try discriminate; eauto.
Qed.

Lemma tree_wf_same_but_U h h' r cells :
  same_but_U h h' -> tree_wf h r cells -> tree_wf h' r cells.
Proof.
  intros H [Hroot Hch Hvis]. constructor.
  - destruct Hroot as (rn & Hrn & Hp).
    destruct (same_but_U_lookup h h' r rn H Hrn) as (rn' & Hrn' & Hc).
    exists rn'. split; [exact Hrn'|]. destruct Hc as (-> & _). exact Hp.
  - intros n nd' a c Hn Hin.
    destruct (same_but_U_lookup_inv h h' n nd' H Hn) as (nd & Hnd & Hc).
    destruct Hc as (_ & Hcc & _). rewrite Hcc in Hin.
    destruct (Hch n nd a c Hnd Hin) as (Ha & cn & Hcn & Hcp).
    split; [exact Ha|].
    destruct (same_but_U_lookup h h' c cn H Hcn) as (cn' & Hcn' & Hc').
    exists cn'. split; [exact Hcn'|]. destruct Hc' as (-> & _). exact Hcp.
  - intros n nd' Hn.
    destruct (same_but_U_lookup_inv h h' n nd' H Hn) as (nd & Hnd & Hc).
    destruct Hc as (_ & _ & -> & _). exact (Hvis n nd Hnd).
Qed.

Lemma path_to_root_same_but_U h h' path :
  same_but_U h h' -> path_to_root h path -> path_to_root h' path.
Proof.
  intros H. apply path_to_root_ext. intros n nd _ Hn.
  destruct (same_but_U_lookup h h' n nd H Hn) as (nd' & Hn' & Hc).
  exists nd'. split; [exact Hn' | apply Hc].
Qed.

(** On a node with children that are nodes naming it as parent, [select]
    returns one of them and stores nothing but [_U]. *)
Lemma select_returns (h : gmap nat Node) n nd c :
  h !! n = Some nd -> children nd <> [] ->
  (forall a ch, (a, ch) ∈ children nd ->
     exists cn, h !! ch = Some cn /\ parent cn = Some n) ->
  exists h' a ch,
    select sqrt n c h = (h', Ok (a, ch)) /\
    (a, ch) ∈ children nd /\ same_but_U h h'.
Proof.
  intros Hn Hne Hch. unfold select.
  unfold st_bind at 1. unfold node_at at 1. rewrite Hn.
  destruct (evaluate_items_total sqrt (children nd) c h) as (h1 & sc & E).
  { intros a ch Hin. destruct (Hch a ch Hin) as (cn & Hcn & Hp).
    unfold uct_score. rewrite Hcn, Hp, Hn. eauto. }
  unfold st_bind at 1. rewrite E.
  destruct (evaluate_items_spec sqrt _ c h h1 sc E) as (Hsame & Hfst & _).
  destruct (py_max_by Qgtb sc) as [[[a ch] s]|] eqn:Hmax.
  - exists h1, a, ch. split; [reflexivity|]. split; [|exact Hsame].
    apply py_max_by_Q in Hmax as [Hin _].
    rewrite <- Hfst. apply list_elem_of_fmap. exists ((a, ch), s).
    split; [reflexivity | exact Hin].
  - destruct sc as [|x sc]; [|discriminate].
    simpl in Hfst. congruence.
Qed.

(** The descent ends at a leaf of the tree, on a board that is still
    consistent; only the stored [_U] of nodes has changed on the way. *)
Lemma descend_returns cells state fuel :
  forall (w : World Rng) node rest b,
  tree_wf (tree Rng w) (root Rng e) cells ->
  path_to_root (tree Rng w) (node :: rest) ->
  boards Rng w !! state = Some b -> Board_inv b ->
  Board.width b * Board.height b = cells ->
  (size (tree Rng w) < fuel + length (node :: rest))%nat ->
  exists w' leaf rest' ld b',
    descend sqrt Rng e fuel node state w = (w', Ok leaf) /\
    same_but_U (tree Rng w) (tree Rng w') /\
    path_to_root (tree Rng w') (leaf :: rest') /\
    last (leaf :: rest') = last (node :: rest) /\
    tree Rng w' !! leaf = Some ld /\ children ld = [] /\
    boards Rng w' !! state = Some b' /\ Board_inv b' /\
    Board.width b' * Board.height b' = cells /\
    (length (Board.availables b') <= length (Board.availables b))%nat /\
    (forall l, l <> state -> boards Rng w' !! l = boards Rng w !! l) /\
    (forall nd, tree Rng w !! node = Some nd -> children nd = [] ->
       leaf = node /\ rest' = rest /\ b' = b).
Proof.
  induction fuel as [|fuel IH]; intros w node rest b Hwf Hpath Hb I Hdim Hfuel.
  { pose proof (path_length_le_size _ _ Hpath). simpl in *. lia. }
  destruct (path_to_root_head_in _ _ _ Hpath) as [nd Hnd].
  simpl descend.
  rewrite (st_bind_ok _ _ w w nd)
    by (unfold on_tree, node_at; now rewrite Hnd; destruct w).
  destruct (is_leaf nd) eqn:Hleaf.
  - exists w, node, rest, nd, b. unfold st_ret.
    split; [reflexivity|]. split; [apply same_but_U_refl|].
    split; [exact Hpath|]. split; [reflexivity|]. split; [exact Hnd|].
    split; [unfold is_leaf in Hleaf; now destruct (children nd)|].
    split; [exact Hb|]. split; [exact I|]. split; [exact Hdim|].
    split; [lia|]. split; [reflexivity|]. intros; auto.
  - assert (Hne : children nd <> [])
      by (unfold is_leaf in Hleaf; now destruct (children nd)).
    destruct (select_returns (tree Rng w) node nd (weight_c Rng e) Hnd Hne)
      as (h1 & a & ch & Hsel & Hin & Hsame).
    { intros a ch Hin. exact (proj2 (wf_children _ _ _ Hwf node nd a ch Hnd Hin)). }
    rewrite (st_bind_ok _ _ _ _ _ (on_tree_ok _ w h1 (a, ch) Hsel)).
    destruct (wf_children _ _ _ Hwf node nd a ch Hnd Hin)
      as (Ha & cn & Hcn & Hcp).
    destruct (play_in_range b a I ltac:(rewrite Hdim; exact Ha))
      as (b1 & r & Hplay & I1 & Hw1 & Hh1 & Hl1).
    set (w1 := {| boards := <[state := b1]> (boards Rng w);
                  tree := h1; rng := rng Rng w |}).
    rewrite (st_bind_ok _ _ _ w1 r)
      by (unfold on_board; simpl; now rewrite Hb, Hplay).
    simpl snd.
    destruct (same_but_U_lookup _ _ ch cn Hsame Hcn) as (cn' & Hcn' & Hcc).
    destruct (IH w1 ch (node :: rest) b1)
      as (w' & leaf & rest' & ld & b' & Hrun & Hs' & Hp' & Hlast & Hld & Hlc
          & Hb' & I' & Hdim' & Hl' & Hfr & _).
    + simpl. exact (tree_wf_same_but_U _ _ _ _ Hsame Hwf).
    + simpl. apply (path_step _ ch cn' node);
        [exact Hcn' | destruct Hcc as (-> & _); exact Hcp |].
      exact (path_to_root_same_but_U _ _ _ Hsame Hpath).
    + simpl. apply lookup_insert_eq.
    + exact I1.
    + rewrite Hw1, Hh1. exact Hdim.
    + simpl. rewrite (same_but_U_size _ _ Hsame). simpl in Hfuel. lia.
    + exists w', leaf, rest', ld, b'. split; [exact Hrun|].
      split; [exact (same_but_U_trans _ _ _ Hsame Hs')|].
      split; [exact Hp'|]. split; [rewrite Hlast; reflexivity|].
      split; [exact Hld|]. split; [exact Hlc|]. split; [exact Hb'|].
      split; [exact I'|]. split; [exact Hdim'|]. split; [lia|].
      split.
      * intros l Hl. rewrite (Hfr l Hl). simpl.
        now rewrite lookup_insert_ne.
      * intros nd0 Hnd0 Hc0. congruence.
Qed.

(** A well-formed tree stays so when its nodes keep their parents and
    children, lose no visit, and no node appears. *)
Lemma tree_wf_shape (h h' : gmap nat Node) r cells :
  (forall n nd, h !! n = Some nd ->
     exists nd', h' !! n = Some nd' /\ parent nd' = parent nd /\
                 children nd' = children nd /\
                 vis_times nd <= vis_times nd') ->
  (forall n, h !! n = None -> h' !! n = None) ->
  tree_wf h r cells -> tree_wf h' r cells.
Proof.
  intros Hold Hnew [Hroot Hch Hvis].
  assert (Hback : forall n nd', h' !! n = Some nd' ->
            exists nd, h !! n = Some nd /\ parent nd' = parent nd /\
                       children nd' = children nd /\
                       vis_times nd <= vis_times nd').
  { intros n nd' Hn'. destruct (h !! n) as [nd|] eqn:Hn.
    - destruct (Hold n nd Hn) as (nd'' & Hn'' & H). exists nd.
      split; [reflexivity|]. congruence.
    - rewrite (Hnew n Hn) in Hn'. discriminate. }
  constructor.
  - destruct Hroot as (rn & Hrn & Hp).
    destruct (Hold r rn Hrn) as (rn' & Hrn' & Hp' & _).
    exists rn'. split; [exact Hrn' | congruence].
  - intros n nd' a c Hn Hin.
    destruct (Hback n nd' Hn) as (nd & Hnd & _ & Hcc & _).
    rewrite Hcc in Hin.
    destruct (Hch n nd a c Hnd Hin) as (Ha & cn & Hcn & Hcp).
    split; [exact Ha|].
    destruct (Hold c cn Hcn) as (cn' & Hcn' & Hp' & _).
    exists cn'. split; [exact Hcn' | congruence].
  - intros n nd' Hn.
    destruct (Hback n nd' Hn) as (nd & Hnd & _ & _ & Hle).
    pose proof (Hvis n nd Hnd). lia.
Qed.

(** Every node that [expand] adds is a new child of the node expanded. *)
Lemma expand_new_nodes priors : forall (h : gmap nat Node) self nd m md,
  h !! self = Some nd -> h !! m = None ->
  (expand self priors h).1 !! m = Some md ->
  exists q, md = new_node (Some self) q.
Proof.
  induction priors as [|[a q] priors IH]; intros h self nd m md Hn Hm.
  - simpl. unfold st_ret. simpl. congruence.
  - simpl expand. unfold st_bind at 1. unfold node_at at 1. rewrite Hn.
    case_bool_decide as Hin.
    + unfold st_bind at 1. simpl. exact (IH h self nd m md Hn Hm).
    + unfold st_bind at 1. unfold st_bind at 1. unfold st_get at 1.
      unfold st_bind at 1. unfold set_node at 1. unfold set_node at 1.
      set (child := fresh (dom h)).
      assert (Hfresh : h !! child = None).
      { apply not_elem_of_dom. apply is_fresh. }
      assert (Hne : child <> self) by congruence.
      set (nd1 := {| parent := parent nd;
                     children := children nd ++ [(a, child)];
                     vis_times := vis_times nd; Q_value := Q_value nd;
                     U_value := U_value nd; P_value := P_value nd |}).
      set (h1 := <[self := nd1]> (<[child := new_node (Some self) q]> h)).
      assert (Hn1 : h1 !! self = Some nd1) by apply lookup_insert_eq.
      destruct (decide (m = child)) as [->|Hmc].
      * destruct (expand_spec priors h1 self nd1 Hn1)
          as (h' & nd' & new & Hrun & _ & _ & _ & _ & _ & _ & _ & _ & _
              & Hoth).
        rewrite Hrun. simpl. rewrite (Hoth child Hne).
        -- unfold h1. rewrite lookup_insert_ne by congruence.
           rewrite lookup_insert_eq. intros [= <-]. eauto.
        -- unfold h1. rewrite lookup_insert_ne by congruence.
           rewrite lookup_insert_eq. eauto.
      * apply (IH h1 self nd1 m md Hn1).
        unfold h1. rewrite lookup_insert_ne by congruence.
        now rewrite lookup_insert_ne by congruence.
Qed.

(** Expanding a leaf of a well-formed tree with moves of the board gives a
    well-formed tree: the leaf gets a child for each move, the nodes there
    keep parent and visits, and the new nodes are unvisited leaves. *)
Lemma expand_keeps_wf (h : gmap nat Node) leaf ld priors r cells :
  tree_wf h r cells -> h !! leaf = Some ld -> children ld = [] ->
  (forall a, a ∈ priors.*1 -> 0 <= a < cells) ->
  exists h2 ld2,
    expand leaf priors h = (h2, Ok tt) /\
    tree_wf h2 r cells /\
    h2 !! leaf = Some ld2 /\
    (forall a, a ∈ (children ld2).*1 <-> a ∈ priors.*1) /\
    (forall n nd, h !! n = Some nd ->
       exists nd', h2 !! n = Some nd' /\ parent nd' = parent nd /\
         vis_times nd' = vis_times nd /\
         (children nd <> [] -> children nd' = children nd)) /\
    (forall n nd', h !! n = None -> h2 !! n = Some nd' ->
       vis_times nd' = 0 /\ children nd' = []).
Proof.
  intros [Hroot Hch Hvis] Hl Hleaf Hpri.
  destruct (expand_spec priors h leaf ld Hl)
    as (h2 & ld2 & new & Hrun & Hs & Hcc & Hp & Hv & _ & _ & Hk & _
        & Hnew & Hoth).
  rewrite Hleaf in Hcc. simpl in Hcc.
  assert (Hadded : forall n nd', h !! n = None -> h2 !! n = Some nd' ->
            exists q, nd' = new_node (Some leaf) q).
  { intros n nd' Hn Hn'.
    apply (expand_new_nodes priors h leaf ld n nd' Hl Hn).
    now rewrite Hrun. }
  assert (Hold : forall n nd, h !! n = Some nd ->
            exists nd', h2 !! n = Some nd' /\ parent nd' = parent nd /\
              vis_times nd' = vis_times nd /\
              (children nd <> [] -> children nd' = children nd)).
  { intros n nd Hn. destruct (decide (n = leaf)) as [->|Hne].
    - exists ld2. assert (nd = ld) by congruence. subst nd.
      split; [exact Hs|]. split; [exact Hp|]. split; [exact Hv|].
      intros Hc. contradiction.
    - exists nd. split; [rewrite (Hoth n Hne); eauto|]. auto. }
  exists h2, ld2. split; [exact Hrun|]. split; [|split; [exact Hs|]].
  - constructor.
    + destruct Hroot as (rn & Hrn & Hrp).
      destruct (Hold r rn Hrn) as (rn' & Hrn' & Hrp' & _).
      exists rn'. split; [exact Hrn' | congruence].
    + intros n nd2 a c Hn2 Hin.
      destruct (h !! n) as [nd|] eqn:Hn.
      2:{ destruct (Hadded n nd2 Hn Hn2) as [q ->]. simpl in Hin.
          now apply elem_of_nil in Hin. }
      destruct (decide (n = leaf)) as [->|Hne].
      * assert (nd2 = ld2) by congruence. subst nd2.
        rewrite Hcc in Hin.
        destruct (Hnew a c Hin) as (_ & _ & q & Hq & Hc).
        split.
        -- apply Hpri. apply list_elem_of_fmap. exists (a, q). auto.
        -- eexists. split; [exact Hc | reflexivity].
      * rewrite (Hoth n Hne) in Hn2 by eauto.
        assert (nd2 = nd) by congruence. subst nd2.
        destruct (Hch n nd a c Hn Hin) as (Ha & cn & Hcn & Hcp).
        split; [exact Ha|].
        destruct (Hold c cn Hcn) as (cn' & Hcn' & Hcp' & _).
        exists cn'. split; [exact Hcn' | congruence].
    + intros n nd2 Hn2. destruct (h !! n) as [nd|] eqn:Hn.
      * destruct (Hold n nd Hn) as (nd' & Hn' & _ & Hv' & _).
        assert (nd2 = nd') by congruence. subst nd2.
        rewrite Hv'. exact (Hvis n nd Hn).
      * destruct (Hadded n nd2 Hn Hn2) as [q ->]. simpl. lia.
  - split; [|split; [exact Hold|]].
    + intros a. rewrite (Hk a), Hleaf. simpl.
      split; [intros [H|H]; [now apply elem_of_nil in H | exact H] | auto].
    + intros n nd' Hn Hn'. destruct (Hadded n nd' Hn Hn') as [q ->].
      split; reflexivity.
Qed.

(** What the backpropagation along a path does to the shape of the tree. *)
Lemma backprop_shape (h h' : gmap nat Node) path v :
  path_to_root h path ->
  (forall i m md, path !! i = Some m -> h !! m = Some md ->
     h' !! m = Some (incremental_mean md (flipped i v))) ->
  (forall m, m ∉ path -> h' !! m = h !! m) ->
  (forall n nd, h !! n = Some nd ->
     exists nd', h' !! n = Some nd' /\ parent nd' = parent nd /\
       children nd' = children nd /\
       vis_times nd' = vis_times nd
                       + (if bool_decide (n ∈ path) then 1 else 0)) /\
  (forall n, h !! n = None -> h' !! n = None).
Proof.
  intros Hpath Hon Hoff. split.
  - intros n nd Hn. case_bool_decide as Hin.
    + apply list_elem_of_lookup in Hin as [i Hi].
      exists (incremental_mean nd (flipped i v)).
      split; [exact (Hon i n nd Hi Hn)|]. simpl. auto.
    + exists nd. rewrite (Hoff n Hin). split; [exact Hn|].
      repeat split. lia.
  - intros n Hn. rewrite (Hoff n); [exact Hn|].
    intros Hin. destruct (path_to_root_in h path n Hpath Hin) as [x Hx].
    congruence.
Qed.

Lemma evaluateRollout_returns (w : World Rng) state b limit :
  boards Rng w !! state = Some b -> Board_inv b ->
  (length (Board.availables b) < limit)%nat ->
  exists w' v,
    evaluateRollout Rng e state limit w = (w', Ok v) /\
    tree Rng w' = tree Rng w /\
    (forall l, l <> state -> boards Rng w' !! l = boards Rng w !! l).
Proof.
  intros Hb I Hlen. unfold evaluateRollout.
  rewrite (st_bind_ok _ _ w w b) by (unfold board_at; now rewrite Hb).
  destruct (rollout_loop_ends Rng rand rand_length e e_rollout limit w state
              b None Hb I Hlen)
    as (w' & b' & winner & Hrun & _ & _ & _ & _ & Ht & Hfr).
  rewrite (st_bind_ok _ _ _ _ _ Hrun).
  destruct winner as [p|]; eexists w', _; (split; [reflexivity | auto]).
Qed.

Lemma expand_policy_actions b :
  (MCTS_expand_policy_fn b).1.*1 = Board.availables b.
Proof.
  unfold MCTS_expand_policy_fn. simpl. apply fst_zip.
  rewrite length_replicate. lia.
Qed.

(** The conditional expansion of the leaf in [_playout]. *)
Lemma expand_if_keeps_wf (c : bool) (h : gmap nat Node) leaf ld priors r
    cells (bs : gmap nat Board.t) (g : Rng) :
  tree_wf h r cells -> h !! leaf = Some ld -> children ld = [] ->
  (forall a, a ∈ priors.*1 -> 0 <= a < cells) ->
  exists h2 ld2,
    (if c then on_tree Rng (expand leaf priors) else st_ret tt)
      {| boards := bs; tree := h; rng := g |}
      = ({| boards := bs; tree := h2; rng := g |}, Ok tt) /\
    tree_wf h2 r cells /\
    h2 !! leaf = Some ld2 /\
    (forall a, a ∈ (children ld2).*1 -> a ∈ priors.*1) /\
    (c = true -> forall a, a ∈ priors.*1 -> a ∈ (children ld2).*1) /\
    (forall n nd, h !! n = Some nd ->
       exists nd', h2 !! n = Some nd' /\ parent nd' = parent nd /\
         vis_times nd' = vis_times nd /\
         (children nd <> [] -> children nd' = children nd)) /\
    (forall n nd', h !! n = None -> h2 !! n = Some nd' ->
       vis_times nd' = 0 /\ children nd' = []).
Proof.
  intros Hwf Hl Hleaf Hpri. destruct c.
  - destruct (expand_keeps_wf h leaf ld priors r cells Hwf Hl Hleaf Hpri)
      as (h2 & ld2 & Hrun & Hwf2 & Hl2 & Hk & Hold & Hnew).
    exists h2, ld2. split; [exact (on_tree_ok _ _ _ _ Hrun)|].
    split; [exact Hwf2|]. split; [exact Hl2|].
    split; [intros a; apply Hk|]. split; [intros _ a; apply Hk|].
    split; [exact Hold | exact Hnew].
  - exists h, ld. split; [reflexivity|]. split; [exact Hwf|].
    split; [exact Hl|]. split.
    { intros a. rewrite Hleaf. simpl. intros H. now apply elem_of_nil in H. }
    split; [discriminate|]. split.
    + intros n nd Hn. exists nd. auto.
    + intros n nd' Hn Hn'. congruence.
Qed.

(** One playout on a well-formed tree and a consistent board returns.  It
    walks from the root to a leaf, and the nodes on that path are the ones
    that get one more visit; a node that appears is an unvisited leaf; a
    root that is a leaf gets children for available moves only, and for
    all of them when the game is not over and the root has been visited
    [expand_bound] times. *)
Lemma playout_spec (w : World Rng) (state : nat) (b : Board.t) (cells : Z) :
  tree_wf (tree Rng w) (root Rng e) cells ->
  boards Rng w !! state = Some b -> Board_inv b ->
  Board.width b * Board.height b = cells ->
  (length (Board.availables b) < 1000)%nat ->
  exists w' leaf rest,
    playout sqrt Rng e state w = (w', Ok tt) /\
    tree_wf (tree Rng w') (root Rng e) cells /\
    path_to_root (tree Rng w') (leaf :: rest) /\
    last (leaf :: rest) = Some (root Rng e) /\
    (forall n nd, tree Rng w !! n = Some nd ->
       exists nd', tree Rng w' !! n = Some nd' /\ parent nd' = parent nd /\
         vis_times nd' = vis_times nd
             + (if bool_decide (n ∈ leaf :: rest) then 1 else 0) /\
         (children nd <> [] -> children nd' = children nd)) /\
    (forall n nd', tree Rng w !! n = None -> tree Rng w' !! n = Some nd' ->
       vis_times nd' = 0 /\ children nd' = [] /\ (n ∉ leaf :: rest)) /\
    (forall l, l <> state -> boards Rng w' !! l = boards Rng w !! l) /\
    (forall rn, tree Rng w !! root Rng e = Some rn -> children rn = [] ->
       exists rn', tree Rng w' !! root Rng e = Some rn' /\
         (forall a, a ∈ (children rn').*1 -> a ∈ Board.availables b) /\
         (forall x, Board.gameEnd b = Ok (false, x) ->
            expand_bound Rng e <= vis_times rn ->
            forall a, a ∈ Board.availables b -> a ∈ (children rn').*1)) /\
    (exists ld, tree Rng w !! leaf = Some ld /\ children ld = []).
Proof.
  intros Hwf Hb I Hdim Hlen.
  destruct (wf_root _ _ _ Hwf) as (rn0 & Hrn0 & Hrp0).
  unfold playout. cbv zeta.
  rewrite (st_bind_ok _ _ w w w) by reflexivity.
  destruct (descend_returns cells state (S (size (tree Rng w))) w
              (root Rng e) [] b Hwf (path_root _ _ rn0 Hrn0 Hrp0) Hb I Hdim
              ltac:(simpl; lia))
    as (w1 & leaf & rest & ld & b1 & Hrun1 & Hs1 & Hp1 & Hlast & Hld & Hlc
        & Hb1 & I1 & Hdim1 & Hl1 & Hfr1 & Hrootleaf).
  rewrite (st_bind_ok _ _ _ _ _ Hrun1).
  rewrite (st_bind_ok _ _ w1 w1 b1) by (unfold board_at; now rewrite Hb1).
  destruct (gameEnd_total b1 I1) as (ended & winner & Hg & _).
  rewrite (st_bind_ok _ _ w1 w1 (ended, winner))
    by (unfold st_lift; now rewrite Hg).
  destruct w1 as [bs1 h1 g1]. cbn [boards tree rng] in *.
  assert (Hnode : on_tree Rng (node_at leaf)
                    {| boards := bs1; tree := h1; rng := g1 |}
                  = ({| boards := bs1; tree := h1; rng := g1 |}, Ok ld)).
  { apply on_tree_ok. unfold node_at. simpl. now rewrite Hld. }
  rewrite (st_bind_ok _ _ _ _ _ Hnode).
  cbn [boards tree rng fst].
  assert (Hpri : forall a, a ∈ (expand_policy Rng e b1).1.*1 <->
                           a ∈ Board.availables b1).
  { intros a. now rewrite e_expand, expand_policy_actions. }
  destruct (expand_if_keeps_wf
              (negb ended && (vis_times ld >=? expand_bound Rng e))
              h1 leaf ld (expand_policy Rng e b1).1 (root Rng e) cells
              bs1 g1 (tree_wf_same_but_U _ _ _ _ Hs1 Hwf) Hld Hlc)
    as (h2 & ld2 & Hrun2 & Hwf2 & Hl2 & Hsub & Hall & Hold2 & Hnew2).
  { intros a Ha. apply Hpri in Ha. apply (inv_avail b1 I1) in Ha.
    rewrite <- Hdim1. tauto. }
  rewrite (st_bind_ok _ _ _ _ _ Hrun2).
  set (w2 := {| boards := bs1; tree := h2; rng := g1 |}).
  destruct (evaluateRollout_returns w2 state b1 1000 Hb1 I1 ltac:(lia))
    as (w3 & v & Hrun3 & Ht3 & Hfr3).
  rewrite (st_bind_ok _ _ _ _ _ Hrun3).
  assert (Hp2 : path_to_root h2 (leaf :: rest)).
  { apply (path_to_root_ext h1); [|exact Hp1]. intros n nd _ Hn.
    destruct (Hold2 n nd Hn) as (nd' & Hn' & Hp' & _). eauto. }
  destruct (backPropagation_fuel_path (leaf :: rest) h2 (S (size h2))
              (inject_Z (- v)) leaf rest eq_refl Hp2)
    as (h3 & Hrun4 & Hon & Hoff).
  { intros m md _ Hm. pose proof (wf_visits _ _ _ Hwf2 m md Hm). lia. }
  { pose proof (path_length_le_size h2 _ Hp2). lia. }
  destruct (backprop_shape h2 h3 (leaf :: rest) (inject_Z (- v)) Hp2 Hon Hoff)
    as [Hold3 Hnew3].
  exists {| boards := boards Rng w3; tree := h3; rng := rng Rng w3 |},
    leaf, rest.
  split.
  { apply on_tree_ok. unfold backPropagation. rewrite Ht3. exact Hrun4. }
  cbn [boards tree rng].
  split.
  { apply (tree_wf_shape h2 h3); [|exact Hnew3|exact Hwf2].
    intros n nd Hn. destruct (Hold3 n nd Hn) as (nd' & Hn' & Hp' & Hc' & Hv').
    exists nd'. repeat split; try assumption.
    rewrite Hv'. case_bool_decide; lia. }
  split.
  { apply (path_to_root_ext h2); [|exact Hp2]. intros n nd _ Hn.
    destruct (Hold3 n nd Hn) as (nd' & Hn' & Hp' & _). eauto. }
  split; [exact Hlast|].
  split.
  { intros n nd Hn.
    destruct (same_but_U_lookup _ _ n nd Hs1 Hn)
      as (nd1 & Hn1 & Hp1' & Hc1 & Hv1 & _).
    destruct (Hold2 n nd1 Hn1) as (nd2 & Hn2 & Hp2' & Hv2 & Hc2).
    destruct (Hold3 n nd2 Hn2) as (nd3 & Hn3 & Hp3 & Hc3 & Hv3).
    exists nd3. split; [exact Hn3|]. split; [congruence|].
    split; [rewrite Hv3; congruence|].
    intros Hne. rewrite Hc3, Hc2; [exact Hc1 | congruence]. }
  split.
  { intros n nd3 Hn Hn3.
    assert (Hn1 : h1 !! n = None).
    { specialize (Hs1 n). rewrite Hn in Hs1.
      destruct (h1 !! n); [contradiction | reflexivity]. }
    assert (Hnp : n ∉ leaf :: rest).
    { intros Hin. destruct (path_to_root_in h1 _ n Hp1 Hin) as [x Hx].
      congruence. }
    rewrite (Hoff n Hnp) in Hn3.
    destruct (Hnew2 n nd3 Hn1 Hn3) as [Hv Hc]. auto. }
  split.
  { intros l Hl. rewrite (Hfr3 l Hl). unfold w2. cbn [boards].
    exact (Hfr1 l Hl). }
  split.
  { intros rn Hrn Hrc.
    destruct (Hrootleaf rn Hrn Hrc) as (-> & -> & ->).
    destruct (same_but_U_lookup _ _ _ rn Hs1 Hrn)
      as (rn1 & Hrn1 & _ & _ & Hv1 & _).
    assert (rn1 = ld) by congruence. subst rn1.
    destruct (Hold3 _ ld2 Hl2) as (rn' & Hrn' & _ & Hc' & _).
    exists rn'. split; [exact Hrn'|]. rewrite Hc'. split.
    - intros a Ha. apply Hpri. now apply Hsub.
    - intros x Hx Hbound a Ha. apply Hall; [|now apply Hpri].
      assert (ended = false) by congruence. subst ended. simpl.
      rewrite Z.geb_leb. apply Z.leb_le. lia. }
  destruct (same_but_U_lookup_inv _ _ leaf ld Hs1 Hld)
    as (ld0 & Hld0 & _ & Hc0 & _).
  exists ld0. split; [exact Hld0 | congruence].
Qed.

(** X18: on a well-formed tree, with the policies of the pure engine and a
    consistent board with fewer than 1000 available moves, [_playout]
    returns and leaves a well-formed tree.  The nodes that were there keep
    their parents, and their children unless they were leaves; those on the
    path from one leaf of the tree it found to the root get exactly one
    more visit, the root among them, and every other keeps its visit
    count; a node that appears is an unvisited leaf off that path; no board
    but the one played on changes. *)
Theorem playout_visits_one_path
    (w : World Rng) (state : nat) (b : Board.t) :
  tree_wf (tree Rng w) (root Rng e) (Board.width b * Board.height b) ->
  boards Rng w !! state = Some b -> Board_inv b ->
  (length (Board.availables b) < 1000)%nat ->
  exists w' leaf rest,
    playout sqrt Rng e state w = (w', Ok tt) /\
    tree_wf (tree Rng w') (root Rng e) (Board.width b * Board.height b) /\
    (exists ld, tree Rng w !! leaf = Some ld /\ children ld = []) /\
    path_to_root (tree Rng w') (leaf :: rest) /\
    last (leaf :: rest) = Some (root Rng e) /\
    (forall n nd, tree Rng w !! n = Some nd ->
       exists nd', tree Rng w' !! n = Some nd' /\ parent nd' = parent nd /\
         vis_times nd' = vis_times nd
             + (if bool_decide (n ∈ leaf :: rest) then 1 else 0) /\
         (children nd <> [] -> children nd' = children nd)) /\
    (forall rn, tree Rng w !! root Rng e = Some rn ->
       exists rn', tree Rng w' !! root Rng e = Some rn' /\
                   vis_times rn' = vis_times rn + 1) /\
    (forall n nd', tree Rng w !! n = None -> tree Rng w' !! n = Some nd' ->
       vis_times nd' = 0 /\ children nd' = [] /\ (n ∉ leaf :: rest)) /\
    (forall l, l <> state -> boards Rng w' !! l = boards Rng w !! l).
Proof.
  intros Hwf Hb I Hlen.
  destruct (playout_spec w state b _ Hwf Hb I eq_refl Hlen)
    as (w' & leaf & rest & Hrun & Hwf' & Hpath & Hlast & Hold & Hnew & Hfr
        & _ & Hleaf).
  exists w', leaf, rest. split; [exact Hrun|]. split; [exact Hwf'|].
  split; [exact Hleaf|].
  split; [exact Hpath|]. split; [exact Hlast|]. split; [exact Hold|].
  split; [|split; [exact Hnew | exact Hfr]].
  intros rn Hrn. destruct (Hold _ rn Hrn) as (rn' & Hrn' & _ & Hv & _).
  exists rn'. split; [exact Hrn'|].
  rewrite bool_decide_eq_true_2 in Hv
    by exact (last_Some_elem_of _ _ Hlast).
  exact Hv.
Qed.

Lemma gameEnd_false_availables b x :
  Board_inv b -> Board.gameEnd b = Ok (false, x) ->
  Board.availables b <> [].
Proof.
  intros I H. destruct (gameEnd_total b I) as (en & wi & Hg & Hav).
  rewrite Hg in H. injection H as -> _. exact (Hav eq_refl).
Qed.

(** Any number of playouts, each on its own copy of the board: the root
    gets one visit from each, its children stand for available moves, and
    it has children at the end if it had some or was visited often enough
    to be expanded. *)
Lemma playouts_spec n : forall (w : World Rng) state b rn,
  tree_wf (tree Rng w) (root Rng e) (Board.width b * Board.height b) ->
  tree Rng w !! root Rng e = Some rn ->
  (forall a, a ∈ (children rn).*1 -> a ∈ Board.availables b) ->
  boards Rng w !! state = Some b -> Board_inv b ->
  (length (Board.availables b) < 1000)%nat ->
  exists w' rn',
    playouts sqrt Rng e n state w = (w', Ok tt) /\
    tree_wf (tree Rng w') (root Rng e) (Board.width b * Board.height b) /\
    tree Rng w' !! root Rng e = Some rn' /\
    vis_times rn' = vis_times rn + Z.of_nat n /\
    (forall a, a ∈ (children rn').*1 -> a ∈ Board.availables b) /\
    boards Rng w' !! state = Some b /\
    (forall x, Board.gameEnd b = Ok (false, x) ->
       children rn <> [] \/
       ((0 < n)%nat /\ expand_bound Rng e < vis_times rn + Z.of_nat n) ->
       children rn' <> []).
Proof.
  induction n as [|n IH]; intros w state b rn Hwf Hroot Hsub Hb I Hlen.
  { exists w, rn. simpl. unfold st_ret. split; [reflexivity|].
    split; [exact Hwf|]. split; [exact Hroot|]. split; [lia|].
    split; [exact Hsub|]. split; [exact Hb|].
    intros x _ [H|[H _]]; [exact H | lia]. }
  simpl playouts.
  set (copy := fresh (dom (boards Rng w))).
  set (w1 := {| boards := <[copy := b]> (boards Rng w);
                tree := tree Rng w; rng := rng Rng w |}).
  assert (Hcopy : copy <> state).
  { intros E. pose proof (is_fresh (dom (boards Rng w))) as Hf.
    apply Hf. fold copy. rewrite E. apply elem_of_dom. eauto. }
  assert (Hdc : deepcopy Rng state w = (w1, Ok copy)).
  { unfold deepcopy.
    rewrite (st_bind_ok _ _ w w b) by (unfold board_at; now rewrite Hb).
    reflexivity. }
  rewrite (st_bind_ok _ _ _ _ _ Hdc).
  destruct (playout_spec w1 copy b _ Hwf (lookup_insert_eq _ _ _) I eq_refl
              Hlen)
    as (w2 & leaf & rest & Hrun & Hwf2 & Hpath & Hlast & Hold & _ & Hfr
        & Hleaf & _).
  rewrite (st_bind_ok _ _ _ _ _ Hrun).
  destruct (Hold _ rn Hroot) as (rn1 & Hrn1 & _ & Hv1 & Hc1).
  rewrite bool_decide_eq_true_2 in Hv1
    by exact (last_Some_elem_of _ _ Hlast).
  assert (Hb2 : boards Rng w2 !! state = Some b).
  { rewrite (Hfr state) by congruence. unfold w1. cbn [boards].
    rewrite lookup_insert_ne by exact Hcopy. exact Hb. }
  assert (Hsub1 : forall a, a ∈ (children rn1).*1 -> a ∈ Board.availables b).
  { destruct (children rn) as [|it its] eqn:Hc.
    - destruct (Hleaf rn Hroot Hc) as (rn' & Hrn' & Hs & _).
      assert (rn' = rn1) by congruence. subst rn'. exact Hs.
    - rewrite Hc1 by discriminate. exact Hsub. }
  destruct (IH w2 state b rn1 Hwf2 Hrn1 Hsub1 Hb2 I Hlen)
    as (w3 & rn3 & Hrun3 & Hwf3 & Hrn3 & Hv3 & Hsub3 & Hb3 & Hch3).
  exists w3, rn3. split; [exact Hrun3|]. split; [exact Hwf3|].
  split; [exact Hrn3|]. split; [lia|]. split; [exact Hsub3|].
  split; [exact Hb3|].
  intros x Hx Hcase. apply (Hch3 x Hx).
  destruct (children rn) as [|it its] eqn:Hc.
  - destruct (Z_le_gt_dec (expand_bound Rng e) (vis_times rn)) as [Hle|Hgt].
    + left. destruct (Hleaf rn Hroot Hc) as (rn' & Hrn' & _ & Hall).
      assert (rn' = rn1) by congruence. subst rn'.
      pose proof (gameEnd_false_availables b x I Hx) as Hav.
      destruct (Board.availables b) as [|a av] eqn:Ea; [contradiction|].
      assert (Ha : a ∈ (children rn1).*1) by (apply (Hall x Hx Hle); left).
      intros E. rewrite E in Ha. now apply elem_of_nil in Ha.
    + right. destruct Hcase as [H|[_ H]]; [contradiction|].
      split; [destruct n; [lia | lia] | lia].
  - left. rewrite Hc1 by discriminate. discriminate.
Qed.

(** X19: on a board with stones where the game is not over, with a
    well-formed tree whose root has children for available moves only (a
    new root has none), the policies of the pure engine and a budget of at
    least one playout that exceeds [expand_bound], [getMove] returns a move
    that is available on the board.  The board is as it was, the tree is
    well-formed, and the root has been visited once by each playout of the
    budget. *)
Theorem getMove_returns_available_move
    (w : World Rng) (state : nat) (b : Board.t) (rn : Node) :
  tree_wf (tree Rng w) (root Rng e) (Board.width b * Board.height b) ->
  tree Rng w !! root Rng e = Some rn ->
  (forall a, a ∈ (children rn).*1 -> a ∈ Board.availables b) ->
  boards Rng w !! state = Some b -> Board_inv b ->
  Board.is_empty b = false ->
  (exists x, Board.gameEnd b = Ok (false, x)) ->
  (length (Board.availables b) < 1000)%nat ->
  0 < compute_budget Rng e ->
  expand_bound Rng e < compute_budget Rng e ->
  exists w' a rn',
    getMove sqrt Rng e state w = (w', Ok a) /\
    a ∈ Board.availables b /\
    boards Rng w' !! state = Some b /\
    tree_wf (tree Rng w') (root Rng e) (Board.width b * Board.height b) /\
    tree Rng w' !! root Rng e = Some rn' /\
    vis_times rn' = vis_times rn + compute_budget Rng e.
Proof.
  intros Hwf Hroot Hsub Hb I Hne [x Hx] Hlen Hpos Hbound.
  destruct (playouts_spec (Z.to_nat (compute_budget Rng e)) w state b rn
              Hwf Hroot Hsub Hb I Hlen)
    as (w1 & rn1 & Hrun & Hwf1 & Hrn1 & Hv1 & Hsub1 & Hb1 & Hch1).
  assert (Hne1 : children rn1 <> []).
  { apply (Hch1 x Hx). right.
    pose proof (wf_visits _ _ _ Hwf _ rn Hroot). lia. }
  destruct (getMove sqrt Rng e state w) as [w' r] eqn:Hget.
  unfold getMove in Hget.
  rewrite (st_bind_ok _ _ w w b) in Hget
    by (unfold board_at; now rewrite Hb).
  rewrite Hne in Hget.
  rewrite (st_bind_ok _ _ _ _ _ Hrun) in Hget.
  destruct w1 as [bs1 h1 g1]. cbn [boards tree rng] in *.
  assert (Hnode : on_tree Rng (node_at (root Rng e))
                    {| boards := bs1; tree := h1; rng := g1 |}
                  = ({| boards := bs1; tree := h1; rng := g1 |}, Ok rn1)).
  { apply on_tree_ok. unfold node_at. simpl. now rewrite Hrn1. }
  rewrite (st_bind_ok _ _ _ _ _ Hnode) in Hget.
  unfold st_bind at 1 in Hget. unfold on_tree at 1 in Hget. simpl in Hget.
  set (items := omap _ (children rn1)) in Hget.
  destruct (py_max_by Z.gtb items) as [[a v]|] eqn:Hmax.
  - unfold st_ret in Hget. injection Hget as <- <-.
    exists {| boards := bs1; tree := h1; rng := g1 |}, a, rn1.
    split; [reflexivity|]. cbn [boards tree rng].
    split; [|split; [exact Hb1|split; [exact Hwf1|split; [exact Hrn1|]]]].
    + apply py_max_by_Z in Hmax as [Hin _]. unfold items in Hin.
      apply list_elem_of_omap in Hin as ([a1 c] & Hc & Heq).
      simpl in Heq. destruct (h1 !! c) as [cn|]; [|discriminate].
      injection Heq as -> _. apply Hsub1.
      apply list_elem_of_fmap. exists (a, c). auto.
    + rewrite Hv1. rewrite Z2Nat.id by lia. reflexivity.
  - exfalso. destruct (children rn1) as [|[a0 c0] its] eqn:Hc;
      [contradiction|].
    destruct (wf_children _ _ _ Hwf1 _ rn1 a0 c0 Hrn1) as (_ & cn & Hcn & _).
    { rewrite Hc. left. }
    assert (Hin : (a0, vis_times cn) ∈ items).
    { unfold items. apply list_elem_of_omap. exists (a0, c0).
      split; [left|]. simpl. now rewrite Hcn. }
    destruct items; [now apply elem_of_nil in Hin | discriminate].
Qed.

End Playout.

Lemma tree_wf_new_root (r : nat) (cells : Z) :
  tree_wf {[ r := MCTS.new_node None 1 ]} r cells.
Proof.
  constructor.
  - eexists. split; [apply lookup_singleton_eq | reflexivity].
  - intros n nd a c Hn Hin. apply lookup_singleton_Some in Hn as [_ <-].
    simpl in Hin. now apply elem_of_nil in Hin.
  - intros n nd Hn. apply lookup_singleton_Some in Hn as [_ <-]. simpl. lia.
Qed.

Lemma board3_one_inv : Board_inv board3_one.
Proof.
  apply (Board_inv_play
           {| Board.width := 3; Board.height := 3; Board.numberToWin := 3;
              Board.current_player := Board.kPlayerBlack;
              Board.availables := seqZ 0 9; Board.moved := [];
              Board.states := ∅; Board.last_move := None |} 4).
  - apply (Board_inv_initBoard 3 3 3 None); [lia | lia | auto | reflexivity].
  - reflexivity.
Qed.

Lemma getMove_returns_available_move_witness :
  exists w' a rn',
    MCTS.getMove (fun q => q) nat small_engine 7%nat (toy_world board3_one)
      = (w', Ok a) /\
    a ∈ Board.availables board3_one /\
    MCTS.boards nat w' !! 7%nat = Some board3_one /\
    tree_wf (MCTS.tree nat w') 0%nat 9 /\
    MCTS.tree nat w' !! 0%nat = Some rn' /\
    MCTS.vis_times rn' = 4.
Proof.
  assert (Hlen : (length (Board.availables board3_one) < 1000)%nat)
    by (vm_compute; lia).
  assert (Hend : exists x, Board.gameEnd board3_one = Ok (false, x))
    by (exists None; vm_compute; reflexivity).
  assert (Hsub : forall a, a ∈ (MCTS.children (MCTS.new_node None 1)).*1 ->
                           a ∈ Board.availables board3_one).
  { intros a Ha. now apply elem_of_nil in Ha. }
  exact (getMove_returns_available_move (fun q => q) nat toy_rand
           toy_rand_length small_engine eq_refl eq_refl
           (toy_world board3_one) 7%nat board3_one (MCTS.new_node None 1)
           (tree_wf_new_root 0 9) eq_refl Hsub eq_refl board3_one_inv
           eq_refl Hend Hlen ltac:(reflexivity) ltac:(reflexivity)).
Defined.

(** ** Instances on boards with stones and on trees with several nodes *)

Lemma undo_total_on_consistent_board_witness :
  exists lm b',
    last (Board.moved board_win) = Some lm /\
    Board.undo board_win = (b', Ok true) /\
    Board.moved b' = removelast (Board.moved board_win) /\
    Board.states b' = delete lm (Board.states board_win) /\
    lm ∈ Board.availables b' /\
    Board.current_player b'
      = Board.opponent (Board.current_player board_win) /\
    Board_inv b'.
Proof.
  destruct (undo_total_on_consistent_board board_win board_win_inv)
    as [[H _]|H]; [discriminate H | exact H].
Defined.

Lemma win_checks_return_witness :
  exists full fast,
    Board.getWinner board_win = Ok full /\
    Board.fastGetWinner board_win = Ok fast /\
    Board.gameEnd board_win =
      Ok (match fast with
          | Some _ => true
          | None => bool_decide (Board.availables board_win = [])
          end, fast) /\
    (Board.gameEnd board_win = Ok (true, None) ->
     Z.of_nat (length (Board.moved board_win))
       = Board.width board_win * Board.height board_win).
Proof.
  exact (win_checks_return board_win board_win_inv).
Defined.

Lemma expand_policy_is_uniform_witness :
  7 ∈ Board.availables board3_one /\
  (1 # 8)%Q
    = (1 / inject_Z (Z.of_nat (length (Board.availables board3_one))))%Q.
Proof.
  destruct (expand_policy_is_uniform board3_one) as (_ & _ & H & _).
  apply (H 7 (1 # 8)%Q). vm_compute. repeat constructor.
Defined.

Lemma select_maximises_score_witness :
  exists h' s,
    MCTS.select (fun q => q) 0%nat 5 toy_fan = (h', Ok (5, 3%nat)) /\
    (5, 3%nat) ∈ [(3, 1%nat); (4, 2%nat); (5, 3%nat)] /\
    same_but_U toy_fan h' /\
    uct_score (fun q => q) toy_fan 5 3%nat = Some s /\
    forall a' ch' s',
      (a', ch') ∈ [(3, 1%nat); (4, 2%nat); (5, 3%nat)] ->
      uct_score (fun q => q) toy_fan 5 ch' = Some s' -> (s' <= s)%Q.
Proof.
  destruct (select_maximises_score (fun q => q) toy_fan 0%nat
              (MCTS.mkNode None [(3, 1%nat); (4, 2%nat); (5, 3%nat)] 6 0 0 1)
              5 eq_refl) as [H _].
  assert (Hsel : MCTS.select (fun q => q) 0%nat 5 toy_fan
                 = (fst (MCTS.select (fun q => q) 0%nat 5 toy_fan),
                    Ok (5, 3%nat)))
    by (vm_compute; reflexivity).
  destruct (H _ _ _ Hsel) as (Hin & Hsame & s & Hs & Hmax).
  exists (fst (MCTS.select (fun q => q) 0%nat 5 toy_fan)), s.
  split; [exact Hsel|]. split; [exact Hin|]. split; [exact Hsame|].
  split; [exact Hs | exact Hmax].
Defined.

Lemma toy_tree_wf : tree_wf toy_tree 0%nat 225.
Proof.
  constructor.
  - eexists. split; [vm_compute; reflexivity | reflexivity].
  - intros n nd a c Hn Hin. unfold toy_tree in Hn.
    apply lookup_insert_Some in Hn as [[<- <-]|[_ Hn]];
      [simpl in Hin; now apply elem_of_nil in Hin|].
    apply lookup_insert_Some in Hn as [[<- <-]|[_ Hn]].
    + simpl in Hin. apply list_elem_of_singleton in Hin.
      injection Hin as -> ->. split; [lia|].
      eexists. split; [vm_compute; reflexivity | reflexivity].
    + apply lookup_singleton_Some in Hn as [<- <-].
      simpl in Hin. apply list_elem_of_singleton in Hin.
      injection Hin as -> ->. split; [lia|].
      eexists. split; [vm_compute; reflexivity | reflexivity].
  - intros n nd Hn. unfold toy_tree in Hn.
    apply lookup_insert_Some in Hn as [[<- <-]|[_ Hn]]; [simpl; lia|].
    apply lookup_insert_Some in Hn as [[<- <-]|[_ Hn]]; [simpl; lia|].
    apply lookup_singleton_Some in Hn as [<- <-]. simpl. lia.
Qed.

Lemma playout_visits_one_path_witness :
  exists w' n0 n1 n2,
    MCTS.playout (fun q => q) nat toy_engine 7%nat (toy_tree_world board15)
      = (w', Ok tt) /\
    tree_wf (MCTS.tree nat w') 0%nat 225 /\
    MCTS.tree nat w' !! 0%nat = Some n0 /\ MCTS.vis_times n0 = 4 /\
    MCTS.tree nat w' !! 1%nat = Some n1 /\ MCTS.vis_times n1 = 3 /\
    MCTS.tree nat w' !! 2%nat = Some n2 /\ MCTS.vis_times n2 = 2.
Proof.
  assert (Hlen : (length (Board.availables board15) < 1000)%nat)
    by (vm_compute; lia).
  assert (Hinv : Board_inv board15)
    by (apply (Board_inv_initBoard 15 15 5 None); auto; lia).
  destruct (playout_visits_one_path (fun q => q) nat toy_rand
              toy_rand_length toy_engine eq_refl eq_refl
              (toy_tree_world board15) 7%nat board15 toy_tree_wf eq_refl
              Hinv Hlen)
    as (w' & leaf & rest & Hrun & Hwf & (ld & Hld & Hlc) & Hpath & Hlast
        & Hold & _).
  assert (Hleaf : leaf = 2%nat).
  { cbn [MCTS.tree toy_tree_world] in Hld. unfold toy_tree in Hld.
    apply lookup_insert_Some in Hld as [[<- _]|[_ Hld]]; [reflexivity|].
    apply lookup_insert_Some in Hld as [[_ <-]|[_ Hld]]; [discriminate|].
    apply lookup_singleton_Some in Hld as [_ <-]. discriminate. }
  subst leaf.
  destruct (Hold 2%nat (MCTS.mkNode (Some 1%nat) [] 1 1 0 (1 # 2)) eq_refl)
    as (n2 & Hn2 & Hp2 & Hv2 & _).
  destruct (Hold 1%nat
              (MCTS.mkNode (Some 0%nat) [(113, 2%nat)] 2 (-1 # 2) 0 (1 # 2))
              eq_refl)
    as (n1 & Hn1 & Hp1 & Hv1 & _).
  destruct (Hold 0%nat (MCTS.mkNode None [(112, 1%nat)] 3 (1 # 3) 0 1)
              eq_refl)
    as (n0 & Hn0 & Hp0 & Hv0 & _).
  simpl in Hp2, Hp1, Hp0.
  assert (Hrest : rest = [1%nat; 0%nat]).
  { inversion Hpath as [m md Hm Hpm | m md p r1 Hm Hpm Hr1]; subst;
      [congruence|].
    assert (p = 1%nat) by congruence. subst p.
    inversion Hr1 as [m md1 Hm1 Hpm1 | m md1 p r2 Hm1 Hpm1 Hr2]; subst;
      [congruence|].
    assert (p = 0%nat) by congruence. subst p.
    inversion Hr2 as [m md2 Hm2 Hpm2 | m md2 p r3 Hm2 Hpm2 Hr3]; subst;
      [reflexivity | congruence]. }
  subst rest.
  rewrite bool_decide_eq_true_2 in Hv2 by (repeat constructor).
  rewrite bool_decide_eq_true_2 in Hv1 by (repeat constructor).
  rewrite bool_decide_eq_true_2 in Hv0 by (repeat constructor).
  simpl in Hv2, Hv1, Hv0.
  exists w', n0, n1, n2. split; [exact Hrun|]. split; [exact Hwf|].
  repeat split; assumption.
Defined.
